(** * ai-agent-schema: workflow graph model, validator, graph analysis and
      the three adapter mappings, embedded from the TypeScript sources.

    - [src/schemas/workflow.schema.ts], [src/schemas/agent.schema.ts]: the
      Zod schemas, embedded as parsers from JSON values to typed records.
    - [src/utils/workflow-validator.ts] (kept as [unnamed/part_002]):
      [validateWorkflowConfig], [detectWorkflowCycles],
      [getWorkflowTopologicalOrder], [findDisconnectedNodes].
    - [src/adapters/crewai.adapter.ts]: [mapAgentToCrewAgent],
      [mapWorkflowToCrew], [determineProcessType].
    - [src/adapters/n8n.adapter.ts]: [mapWorkflowToN8n]; the LangChain
      adapter ([mapAgentToLangChain], [mapWorkflowToLangGraph]) follows it in
      the same source file.

    A JavaScript [Map] or [Set] the code iterates is an insertion-ordered
    list, a set it only tests is a [gset], a plain object used as a
    dictionary is the [gmap] of its own properties. The numbers the code
    only reads, compares and copies are rationals; the numbers it computes
    with (the coordinates of the n8n layout) are binary64 floats. *)

From Stdlib Require Import String Ascii List ZArith QArith Bool Lia.
From Stdlib Require Import DecimalString PrimFloat.

From stdpp Require Import base option list gmap strings.

Set Warnings "-register-all,-clear-no-such-hyp".

Import ListNotations.
Local Open Scope string_scope.
Local Open Scope list_scope.
Local Open Scope nat_scope.

(** ** JavaScript values used by the sources *)

(** Truthiness of a string ([s || d], [if (s)]): the empty string is falsy. *)
Definition truthy (s : string) : bool := negb (String.eqb s EmptyString).

(** Truthiness of an optional string property: [undefined] and the empty string are falsy. *)
Definition truthy_opt (o : option string) : bool :=
  match o with
  | Some s => truthy s
  | None => false
  end.

(** [a || d] on an optional string with a string default. *)
Definition or_else (o : option string) (d : string) : string :=
  match o with
  | Some s => if truthy s then s else d
  | None => d
  end.

(** [a || b] on two optional strings, the result still optional. *)
Definition or_opt (a b : option string) : option string :=
  if truthy_opt a then a else b.

(** [String.prototype.includes]. *)
Fixpoint includes (s sub : string) : bool :=
  String.prefix sub s ||
  match s with
  | EmptyString => false
  | String _ s' => includes s' sub
  end.

(** A JavaScript [Map<string, V>]: keys are unique and iteration follows
    insertion order; [set] on an existing key keeps its position. *)
Module JsMap.
Definition t (V : Type) : Type := list (string * V).

Definition empty {V : Type} : t V := [].

Fixpoint get {V : Type} (k : string) (m : t V) : option V :=
  match m with
  | [] => None
  | (k', v) :: r => if String.eqb k k' then Some v else get k r
  end.

Fixpoint set {V : Type} (k : string) (v : V) (m : t V) : t V :=
  match m with
  | [] => [(k, v)]
  | (k', v') :: r =>
      if String.eqb k k' then (k', v) :: r else (k', v') :: set k v r
  end.

Definition keys {V : Type} (m : t V) : list string := map fst m.
End JsMap.

(** A JavaScript [Set<string>] that the code iterates: insertion order. *)
Module JsSet.
Definition t : Type := list string.

Definition empty : t := [].

Definition has (x : string) (s : t) : bool := existsb (String.eqb x) s.

Definition add (x : string) (s : t) : t := if has x s then s else s ++ [x].
End JsSet.

(** ** Data model ([src/types/workflow.ts], [src/types/agent.ts]) *)

(** [unknown] values are JSON-compatible data. Numbers are rationals: the
    code only compares them and passes them through. An object is the list of
    its own properties; a property read takes the first entry of a key. *)
Inductive json : Type :=
  | JNull
  | JBool (b : bool)
  | JNum (q : Q)
  | JStr (s : string)
  | JArr (items : list json)
  | JObj (fields : list (string * json)).

Fixpoint field (k : string) (fields : list (string * json)) : option json :=
  match fields with
  | [] => None
  | (k', v) :: r => if String.eqb k k' then Some v else field k r
  end.

Module AIProvider.
Inductive t : Type :=
  openai | anthropic | google | mistral | cohere | azure_openai | bedrock | custom.

Definition to_string (p : t) : string :=
  match p with
  | openai => "openai"
  | anthropic => "anthropic"
  | google => "google"
  | mistral => "mistral"
  | cohere => "cohere"
  | azure_openai => "azure-openai"
  | bedrock => "bedrock"
  | custom => "custom"
  end.

Definition all : list t :=
  [openai; anthropic; google; mistral; cohere; azure_openai; bedrock; custom].
End AIProvider.

Module MemoryType.
Inductive t : Type := buffer | summary | vector | none.

Definition to_string (m : t) : string :=
  match m with
  | buffer => "buffer"
  | summary => "summary"
  | vector => "vector"
  | none => "none"
  end.

Definition all : list t := [buffer; summary; vector; none].

Definition is_none (m : t) : bool :=
  match m with
  | none => true
  | _ => false
  end.
End MemoryType.

Module MemoryConfig.
Record t : Type := mk {
  type : MemoryType.t;
  maxMessages : option Q;
  persistent : option bool
}.
End MemoryConfig.

Module Tool.
Record t : Type := mk {
  id : string;
  name : string;
  description : string;
  parameters : option (list (string * json));
  requiresAuth : option bool
}.
End Tool.

Module ModelParameters.
Record t : Type := mk {
  temperature : option Q;
  maxTokens : option Q;
  topP : option Q;
  frequencyPenalty : option Q;
  presencePenalty : option Q;
  stopSequences : option (list string)
}.
End ModelParameters.

Module AgentConfig.
Record t : Type := mk {
  id : string;
  name : string;
  description : option string;
  provider : AIProvider.t;
  model : string;
  systemPrompt : option string;
  parameters : option ModelParameters.t;
  tools : option (list Tool.t);
  memory : option MemoryConfig.t;
  connections : option (list string);
  metadata : option (list (string * json))
}.
End AgentConfig.

Module NodePosition.
Record t : Type := mk { x : Q; y : Q }.
End NodePosition.

Module WorkflowConnection.
Record t : Type := mk {
  id : string;
  sourceId : string;
  targetId : string;
  sourceHandle : option string;
  targetHandle : option string;
  condition : option string;
  label : option string
}.
End WorkflowConnection.

Module NodeType.
Inductive t : Type := agent | trigger | condition | loop | end_.

Definition to_string (k : t) : string :=
  match k with
  | agent => "agent"
  | trigger => "trigger"
  | condition => "condition"
  | loop => "loop"
  | end_ => "end"
  end.

Definition all : list t := [agent; trigger; condition; loop; end_].

Definition eqb (a b : t) : bool :=
  match a, b with
  | agent, agent | trigger, trigger | condition, condition
  | loop, loop | end_, end_ => true
  | _, _ => false
  end.
End NodeType.

Module WorkflowNode.
Record t : Type := mk {
  id : string;
  type : NodeType.t;
  agentId : option string;
  agent : option AgentConfig.t;
  position : option NodePosition.t;
  metadata : option (list (string * json))
}.
End WorkflowNode.

Module TriggerType.
Inductive t : Type := manual | schedule | webhook | event.

Definition to_string (k : t) : string :=
  match k with
  | manual => "manual"
  | schedule => "schedule"
  | webhook => "webhook"
  | event => "event"
  end.

Definition all : list t := [manual; schedule; webhook; event].
End TriggerType.

Module TriggerConfig.
(** [extra] holds the properties kept by [.passthrough()]. *)
Record t : Type := mk {
  schedule : option string;
  webhookUrl : option string;
  eventName : option string;
  extra : list (string * json)
}.
End TriggerConfig.

Module WorkflowTrigger.
Record t : Type := mk {
  type : TriggerType.t;
  config : option TriggerConfig.t
}.
End WorkflowTrigger.

Module VariableType.
Inductive t : Type := string_ | number | boolean | object | array.

Definition to_string (k : t) : string :=
  match k with
  | string_ => "string"
  | number => "number"
  | boolean => "boolean"
  | object => "object"
  | array => "array"
  end.

Definition all : list t := [string_; number; boolean; object; array].
End VariableType.

Module WorkflowVariable.
Record t : Type := mk {
  name : string;
  type : VariableType.t;
  defaultValue : option json;
  description : option string;
  required : option bool
}.
End WorkflowVariable.

Module WorkflowConfig.
Record t : Type := mk {
  id : string;
  name : string;
  description : option string;
  version : option string;
  nodes : list WorkflowNode.t;
  connections : list WorkflowConnection.t;
  trigger : option WorkflowTrigger.t;
  variables : option (list WorkflowVariable.t);
  tags : option (list string);
  metadata : option (list (string * json))
}.
End WorkflowConfig.

(** ** Graph analysis ([src/utils/workflow-validator.ts]) *)

(** The adjacency [Map<string, Set<string>>] both analyses build: one empty
    set per node id, then [graph.get(conn.sourceId)?.add(conn.targetId)]. *)
Definition buildGraph (workflow : WorkflowConfig.t) : JsMap.t JsSet.t :=
  let graph :=
    fold_left (fun g node => JsMap.set (WorkflowNode.id node) JsSet.empty g)
      (WorkflowConfig.nodes workflow) JsMap.empty in
  fold_left
    (fun g conn =>
       match JsMap.get (WorkflowConnection.sourceId conn) g with
       | Some s =>
           JsMap.set (WorkflowConnection.sourceId conn)
             (JsSet.add (WorkflowConnection.targetId conn) s) g
       | None => g
       end)
    (WorkflowConfig.connections workflow) graph.

(** [graph.get(nodeId) || new Set()]. *)
Definition neighborsOf (graph : JsMap.t JsSet.t) (nodeId : string) : JsSet.t :=
  match JsMap.get nodeId graph with
  | Some s => s
  | None => JsSet.empty
  end.

(** The two sets the depth-first search mutates. They are only tested,
    extended and shrunk, never iterated. *)
Record DfsState : Type := mkDfs {
  visited : gset string;
  recursionStack : gset string
}.

(** The [for (const neighbor of neighbors)] loop of [hasCycle(nodeId)] and
    the two statements after it; [recur] is the recursive call. *)
Fixpoint visitNeighbors (recur : string → DfsState → option (bool * DfsState))
    (nodeId : string) (neighbors : list string) (st : DfsState)
    : option (bool * DfsState) :=
  match neighbors with
  | [] => Some (false, mkDfs (visited st) (recursionStack st ∖ {[nodeId]}))
  | neighbor :: rest =>
      if negb (bool_decide (neighbor ∈ visited st)) then
        match recur neighbor st with
        | None => None
        | Some (true, st') => Some (true, st')
        | Some (false, st') => visitNeighbors recur nodeId rest st'
        end
      else if bool_decide (neighbor ∈ recursionStack st) then Some (true, st)
      else visitNeighbors recur nodeId rest st
  end.

(** The inner [hasCycle(nodeId)]. The recursion is bounded by [fuel]; [None]
    means the bound was too small. *)
Fixpoint hasCycle (fuel : nat) (graph : JsMap.t JsSet.t) (nodeId : string)
    (st : DfsState) : option (bool * DfsState) :=
  match fuel with
  | O => None
  | S fuel' =>
      visitNeighbors (hasCycle fuel' graph) nodeId (neighborsOf graph nodeId)
        (mkDfs ({[nodeId]} ∪ visited st) ({[nodeId]} ∪ recursionStack st))
  end.

(** The outer loop [for (const nodeId of graph.keys())]. *)
Fixpoint detectLoop (fuel : nat) (graph : JsMap.t JsSet.t)
    (keys : list string) (st : DfsState) : option bool :=
  match keys with
  | [] => Some false
  | nodeId :: rest =>
      if negb (bool_decide (nodeId ∈ visited st)) then
        match hasCycle fuel graph nodeId st with
        | None => None
        | Some (true, _) => Some true
        | Some (false, st') => detectLoop fuel graph rest st'
        end
      else detectLoop fuel graph rest st
  end.

(** Every call of [hasCycle] marks a node that was not visited before, and
    only node ids and connection targets are ever marked: the depth of the
    recursion is at most the number of nodes plus connections. *)
Definition dfsFuel (workflow : WorkflowConfig.t) : nat :=
  S (List.length (WorkflowConfig.nodes workflow)
     + List.length (WorkflowConfig.connections workflow)).

Definition detectWorkflowCycles_run (workflow : WorkflowConfig.t) : option bool :=
  let graph := buildGraph workflow in
  detectLoop (dfsFuel workflow) graph (JsMap.keys graph) (mkDfs ∅ ∅).

(** Kahn's algorithm of [getWorkflowTopologicalOrder]. *)
Definition initInDegree (workflow : WorkflowConfig.t) : JsMap.t Z :=
  let inDegree :=
    fold_left (fun d node => JsMap.set (WorkflowNode.id node) 0%Z d)
      (WorkflowConfig.nodes workflow) JsMap.empty in
  fold_left
    (fun d conn =>
       let target := WorkflowConnection.targetId conn in
       JsMap.set target (default 0%Z (JsMap.get target d) + 1)%Z d)
    (WorkflowConfig.connections workflow) inDegree.

(** One [neighbors.forEach] body: decrement, enqueue on reaching zero. *)
Definition relax (acc : JsMap.t Z * list string) (neighbor : string)
    : JsMap.t Z * list string :=
  let '(inDegree, queue) := acc in
  let newDegree := (default 0%Z (JsMap.get neighbor inDegree) - 1)%Z in
  (JsMap.set neighbor newDegree inDegree,
   if (newDegree =? 0)%Z then queue ++ [neighbor] else queue).

(** The [while (queue.length > 0)] loop. *)
Fixpoint kahnLoop (fuel : nat) (graph : JsMap.t JsSet.t)
    (inDegree : JsMap.t Z) (queue result : list string) : option (list string) :=
  match queue with
  | [] => Some result
  | nodeId :: queue' =>
      match fuel with
      | O => None
      | S fuel' =>
          let '(inDegree', queue'') :=
            fold_left relax (neighborsOf graph nodeId) (inDegree, queue') in
          kahnLoop fuel' graph inDegree' queue'' (result ++ [nodeId])
      end
  end.

(** Every iteration removes one queue entry, and an entry is added only when
    a positive in-degree drops to zero. *)
Definition kahnFuel (workflow : WorkflowConfig.t) : nat :=
  S (List.length (WorkflowConfig.nodes workflow)
     + 2 * List.length (WorkflowConfig.connections workflow)).

(** The result is [Some None] for JavaScript's [null]. *)
Definition getWorkflowTopologicalOrder_run (workflow : WorkflowConfig.t)
    : option (option (list string)) :=
  match detectWorkflowCycles_run workflow with
  | None => None
  | Some true => Some None
  | Some false =>
      let graph := buildGraph workflow in
      let inDegree := initInDegree workflow in
      let queue :=
        map fst (List.filter (fun kv => (snd kv =? 0)%Z) inDegree) in
      match kahnLoop (kahnFuel workflow) graph inDegree queue [] with
      | None => None
      | Some result =>
          Some (if Nat.eqb (List.length result)
                     (List.length (WorkflowConfig.nodes workflow))
                then Some result else None)
      end
  end.

(** The two analyses as the source types them. The bounds above are never
    exhausted ([detectWorkflowCycles_run_total],
    [getWorkflowTopologicalOrder_run_total]), so the fallbacks are dead. *)
Definition detectWorkflowCycles (workflow : WorkflowConfig.t) : bool :=
  default false (detectWorkflowCycles_run workflow).

Definition getWorkflowTopologicalOrder (workflow : WorkflowConfig.t)
    : option (list string) :=
  default None (getWorkflowTopologicalOrder_run workflow).

Definition findDisconnectedNodes (workflow : WorkflowConfig.t) : list string :=
  let connectedNodes :=
    fold_left
      (fun s conn =>
         {[WorkflowConnection.targetId conn]} ∪
         ({[WorkflowConnection.sourceId conn]} ∪ s))
      (WorkflowConfig.connections workflow) (∅ : gset string) in
  List.filter (fun id => negb (bool_decide (id ∈ connectedNodes)))
    (map WorkflowNode.id (WorkflowConfig.nodes workflow)).

(** ** Zod schemas ([src/schemas/agent.schema.ts], [src/schemas/workflow.schema.ts])

    A schema is embedded as its parser: [Some d] for the value [parse]
    returns, [None] where [parse] throws a [ZodError]. *)

Definition z_string (v : json) : option string :=
  match v with
  | JStr s => Some s
  | _ => None
  end.

(** The test of [.min(1)] on a string. *)
Definition nonEmpty (s : string) : bool := (1 <=? String.length s)%nat.
Arguments nonEmpty : simpl never.

(** [z.string().min(1, ...)]. *)
Definition z_string_min1 (v : json) : option string :=
  s ← z_string v;
  if nonEmpty s then Some s else None.

Definition z_number (v : json) : option Q :=
  match v with
  | JNum q => Some q
  | _ => None
  end.

Definition z_boolean (v : json) : option bool :=
  match v with
  | JBool b => Some b
  | _ => None
  end.

(** [Number.isInteger] on a rational. *)
Definition is_int (q : Q) : bool := (Qnum q mod Zpos (Qden q) =? 0)%Z.

Definition is_positive (q : Q) : bool := (0 <? Qnum q)%Z.
Arguments is_int : simpl never.
Arguments is_positive : simpl never.

(** [z.number().int().positive()]. *)
Definition z_positive_int (v : json) : option Q :=
  q ← z_number v;
  if is_int q && is_positive q then Some q else None.

(** [z.number().min(lo).max(hi)]. *)
Definition in_range (lo hi q : Q) : bool := Qle_bool lo q && Qle_bool q hi.
Arguments in_range : simpl never.

Definition z_number_range (lo hi : Q) (v : json) : option Q :=
  q ← z_number v;
  if in_range lo hi q then Some q else None.

(** [schema.optional()] applied to a property that may be absent. *)
Definition z_optional {A : Type} (p : json → option A) (o : option json)
    : option (option A) :=
  match o with
  | None => Some None
  | Some v => Some <$> p v
  end.

(** A property without [.optional()]: it has to be there. *)
Definition z_required {A : Type} (p : json → option A) (o : option json)
    : option A :=
  o ≫= p.

Definition z_array {A : Type} (p : json → option A) (v : json)
    : option (list A) :=
  match v with
  | JArr items => mapM p items
  | _ => None
  end.

(** [z.enum([...])], the members given with their spelling. *)
Definition z_enum {A : Type} (to_string : A → string) (all : list A) (v : json)
    : option A :=
  match v with
  | JStr s => List.find (fun a => String.eqb (to_string a) s) all
  | _ => None
  end.

(** The object test of [z.object]: the own properties of the input. *)
Definition z_object (v : json) : option (list (string * json)) :=
  match v with
  | JObj fields => Some fields
  | _ => None
  end.

(** Zod builds the object it returns for a record, or for the undeclared
    part of a passthrough object, property by property, and leaves out an
    own property of the input that is named [__proto__]. *)
Definition isProtoKey (kv : string * json) : bool := String.eqb (fst kv) "__proto__".

Definition withoutProto (fields : list (string * json)) : bool :=
  forallb (fun kv => negb (isProtoKey kv)) fields.

(** [z.record(z.unknown())]. *)
Definition z_record (v : json) : option (list (string * json)) :=
  match v with
  | JObj fields => Some (List.filter (fun kv => negb (isProtoKey kv)) fields)
  | _ => None
  end.

(** [z.unknown()]: anything. *)
Definition z_unknown (v : json) : option json := Some v.

Definition MemoryConfigSchema (v : json) : option MemoryConfig.t :=
  o ← z_object v;
  type ← z_required (z_enum MemoryType.to_string MemoryType.all) (field "type" o);
  maxMessages ← z_optional z_positive_int (field "maxMessages" o);
  persistent ← z_optional z_boolean (field "persistent" o);
  Some (MemoryConfig.mk type maxMessages persistent).

Definition ToolSchema (v : json) : option Tool.t :=
  o ← z_object v;
  id ← z_required z_string_min1 (field "id" o);
  name ← z_required z_string_min1 (field "name" o);
  description ← z_required z_string (field "description" o);
  parameters ← z_optional z_record (field "parameters" o);
  requiresAuth ← z_optional z_boolean (field "requiresAuth" o);
  Some (Tool.mk id name description parameters requiresAuth).

Definition ModelParametersSchema (v : json) : option ModelParameters.t :=
  o ← z_object v;
  temperature ← z_optional (z_number_range 0 2) (field "temperature" o);
  maxTokens ← z_optional z_positive_int (field "maxTokens" o);
  topP ← z_optional (z_number_range 0 1) (field "topP" o);
  frequencyPenalty ← z_optional (z_number_range (-2) 2) (field "frequencyPenalty" o);
  presencePenalty ← z_optional (z_number_range (-2) 2) (field "presencePenalty" o);
  stopSequences ← z_optional (z_array z_string) (field "stopSequences" o);
  Some (ModelParameters.mk temperature maxTokens topP frequencyPenalty
          presencePenalty stopSequences).

Definition AgentConfigSchema (v : json) : option AgentConfig.t :=
  o ← z_object v;
  id ← z_required z_string_min1 (field "id" o);
  name ← z_required z_string_min1 (field "name" o);
  description ← z_optional z_string (field "description" o);
  provider ← z_required (z_enum AIProvider.to_string AIProvider.all) (field "provider" o);
  model ← z_required z_string_min1 (field "model" o);
  systemPrompt ← z_optional z_string (field "systemPrompt" o);
  parameters ← z_optional ModelParametersSchema (field "parameters" o);
  tools ← z_optional (z_array ToolSchema) (field "tools" o);
  memory ← z_optional MemoryConfigSchema (field "memory" o);
  connections ← z_optional (z_array z_string) (field "connections" o);
  metadata ← z_optional z_record (field "metadata" o);
  Some (AgentConfig.mk id name description provider model systemPrompt
          parameters tools memory connections metadata).

Definition NodePositionSchema (v : json) : option NodePosition.t :=
  o ← z_object v;
  x ← z_required z_number (field "x" o);
  y ← z_required z_number (field "y" o);
  Some (NodePosition.mk x y).

Definition WorkflowConnectionSchema (v : json) : option WorkflowConnection.t :=
  o ← z_object v;
  id ← z_required z_string_min1 (field "id" o);
  sourceId ← z_required z_string_min1 (field "sourceId" o);
  targetId ← z_required z_string_min1 (field "targetId" o);
  sourceHandle ← z_optional z_string (field "sourceHandle" o);
  targetHandle ← z_optional z_string (field "targetHandle" o);
  condition ← z_optional z_string (field "condition" o);
  label ← z_optional z_string (field "label" o);
  Some (WorkflowConnection.mk id sourceId targetId sourceHandle targetHandle
          condition label).

Definition WorkflowNodeSchema (v : json) : option WorkflowNode.t :=
  o ← z_object v;
  id ← z_required z_string_min1 (field "id" o);
  type ← z_required (z_enum NodeType.to_string NodeType.all) (field "type" o);
  agentId ← z_optional z_string (field "agentId" o);
  agent ← z_optional AgentConfigSchema (field "agent" o);
  position ← z_optional NodePositionSchema (field "position" o);
  metadata ← z_optional z_record (field "metadata" o);
  Some (WorkflowNode.mk id type agentId agent position metadata).

Definition WorkflowVariableSchema (v : json) : option WorkflowVariable.t :=
  o ← z_object v;
  name ← z_required z_string_min1 (field "name" o);
  type ← z_required (z_enum VariableType.to_string VariableType.all) (field "type" o);
  defaultValue ← z_optional z_unknown (field "defaultValue" o);
  description ← z_optional z_string (field "description" o);
  required ← z_optional z_boolean (field "required" o);
  Some (WorkflowVariable.mk name type defaultValue description required).

(** The keys the trigger's config object declares; [.passthrough()] keeps
    every other property of the input but one named [__proto__]. *)
Definition triggerConfigKeys : list string := ["schedule"; "webhookUrl"; "eventName"].

Definition isDeclared (keys : list string) (kv : string * json) : bool :=
  existsb (String.eqb (fst kv)) keys.

Definition passthrough (keys : list string) (o : list (string * json))
    : list (string * json) :=
  List.filter (fun kv => negb (isDeclared keys kv) && negb (isProtoKey kv)) o.

Section Schemas.

(** [z.string().url()] accepts what the runtime's [URL] constructor
    accepts; that test is outside the repository and stays a parameter. *)
Variable isUrl : string → bool.

Definition z_string_url (v : json) : option string :=
  s ← z_string v;
  if isUrl s then Some s else None.

Definition TriggerConfigSchema (v : json) : option TriggerConfig.t :=
  o ← z_object v;
  schedule ← z_optional z_string (field "schedule" o);
  webhookUrl ← z_optional z_string_url (field "webhookUrl" o);
  eventName ← z_optional z_string (field "eventName" o);
  Some (TriggerConfig.mk schedule webhookUrl eventName
          (passthrough triggerConfigKeys o)).

Definition WorkflowTriggerSchema (v : json) : option WorkflowTrigger.t :=
  o ← z_object v;
  type ← z_required (z_enum TriggerType.to_string TriggerType.all) (field "type" o);
  config ← z_optional TriggerConfigSchema (field "config" o);
  Some (WorkflowTrigger.mk type config).

(** The [z.object({...})] under the two refinements; [nodes] has [.min(1)]. *)
Definition WorkflowConfigObject (v : json) : option WorkflowConfig.t :=
  o ← z_object v;
  id ← z_required z_string_min1 (field "id" o);
  name ← z_required z_string_min1 (field "name" o);
  description ← z_optional z_string (field "description" o);
  version ← z_optional z_string (field "version" o);
  nodes ← z_required (z_array WorkflowNodeSchema) (field "nodes" o);
  nodes ← (if (1 <=? List.length nodes)%nat then Some nodes else None);
  connections ← z_required (z_array WorkflowConnectionSchema) (field "connections" o);
  trigger ← z_optional WorkflowTriggerSchema (field "trigger" o);
  variables ← z_optional (z_array WorkflowVariableSchema) (field "variables" o);
  tags ← z_optional (z_array z_string) (field "tags" o);
  metadata ← z_optional z_record (field "metadata" o);
  Some (WorkflowConfig.mk id name description version nodes connections
          trigger variables tags metadata).

(** First refinement: connections reference existing nodes. *)
Definition connectionsReferenceNodes (workflow : WorkflowConfig.t) : bool :=
  let nodeIds : gset string :=
    list_to_set (map WorkflowNode.id (WorkflowConfig.nodes workflow)) in
  forallb
    (fun conn =>
       bool_decide (WorkflowConnection.sourceId conn ∈ nodeIds) &&
       bool_decide (WorkflowConnection.targetId conn ∈ nodeIds))
    (WorkflowConfig.connections workflow).

(** Second refinement: [n.agentId || n.agent] on every agent node. An
    object is truthy, an empty [agentId] is not. *)
Definition agentNodesHaveReference (workflow : WorkflowConfig.t) : bool :=
  forallb
    (fun n =>
       truthy_opt (WorkflowNode.agentId n) ||
       bool_decide (is_Some (WorkflowNode.agent n)))
    (List.filter (fun n => NodeType.eqb (WorkflowNode.type n) NodeType.agent)
       (WorkflowConfig.nodes workflow)).

Record ValidationIssue : Type := mkIssue {
  path : list string;
  message : string
}.

(** The issues of a [ZodError]. Those Zod writes when the object schema
    itself rejects the value are the library's and are not spelled out;
    the two refinements report under the path and message the source
    gives them. *)
Inductive ZodIssues : Type :=
  | ObjectSchemaIssues
  | RefinementIssues (issues : list ValidationIssue).

Definition refinementIssues (workflow : WorkflowConfig.t) : list ValidationIssue :=
  (if connectionsReferenceNodes workflow then []
   else [mkIssue ["connections"]
           "All connections must reference existing nodes"]) ++
  (if agentNodesHaveReference workflow then []
   else [mkIssue ["nodes"]
           "Agent nodes must have either agentId or agent configuration"]).

(** [WorkflowConfigSchema.parse]: the value, or the thrown [ZodError]. *)
Definition WorkflowConfigSchema (v : json) : WorkflowConfig.t + ZodIssues :=
  match WorkflowConfigObject v with
  | None => inr ObjectSchemaIssues
  | Some workflow =>
      match refinementIssues workflow with
      | [] => inl workflow
      | issues => inr (RefinementIssues issues)
      end
  end.

(** ** The validator ([src/utils/workflow-validator.ts]) *)

Inductive WorkflowValidationResult : Type :=
  | Success (data : WorkflowConfig.t)
  | Failure (message : string) (issues : ZodIssues).

Definition success (r : WorkflowValidationResult) : bool :=
  match r with
  | Success _ => true
  | Failure _ _ => false
  end.

(** [parse] throws nothing but a [ZodError], so the second [return] of the
    [catch] block is never taken. *)
Definition validateWorkflowConfig (config : json) : WorkflowValidationResult :=
  match WorkflowConfigSchema config with
  | inl validatedData => Success validatedData
  | inr issues => Failure "Workflow validation failed" issues
  end.

End Schemas.

(** ** Typed values seen as [unknown]

    A validated value is an ordinary object; handing it back to the validator
    passes the object with exactly the properties it owns. *)

Fixpoint present (props : list (string * option json)) : list (string * json) :=
  match props with
  | [] => []
  | (k, Some v) :: r => (k, v) :: present r
  | (_, None) :: r => present r
  end.

Definition unknownOfStrings (l : list string) : json := JArr (map JStr l).

Definition unknownOfMemoryConfig (m : MemoryConfig.t) : json :=
  JObj (present
    [("type", Some (JStr (MemoryType.to_string (MemoryConfig.type m))));
     ("maxMessages", JNum <$> MemoryConfig.maxMessages m);
     ("persistent", JBool <$> MemoryConfig.persistent m)]).

Definition unknownOfTool (t : Tool.t) : json :=
  JObj (present
    [("id", Some (JStr (Tool.id t)));
     ("name", Some (JStr (Tool.name t)));
     ("description", Some (JStr (Tool.description t)));
     ("parameters", JObj <$> Tool.parameters t);
     ("requiresAuth", JBool <$> Tool.requiresAuth t)]).

Definition unknownOfModelParameters (p : ModelParameters.t) : json :=
  JObj (present
    [("temperature", JNum <$> ModelParameters.temperature p);
     ("maxTokens", JNum <$> ModelParameters.maxTokens p);
     ("topP", JNum <$> ModelParameters.topP p);
     ("frequencyPenalty", JNum <$> ModelParameters.frequencyPenalty p);
     ("presencePenalty", JNum <$> ModelParameters.presencePenalty p);
     ("stopSequences", unknownOfStrings <$> ModelParameters.stopSequences p)]).

Definition unknownOfAgentConfig (a : AgentConfig.t) : json :=
  JObj (present
    [("id", Some (JStr (AgentConfig.id a)));
     ("name", Some (JStr (AgentConfig.name a)));
     ("description", JStr <$> AgentConfig.description a);
     ("provider", Some (JStr (AIProvider.to_string (AgentConfig.provider a))));
     ("model", Some (JStr (AgentConfig.model a)));
     ("systemPrompt", JStr <$> AgentConfig.systemPrompt a);
     ("parameters", unknownOfModelParameters <$> AgentConfig.parameters a);
     ("tools", (fun l => JArr (map unknownOfTool l)) <$> AgentConfig.tools a);
     ("memory", unknownOfMemoryConfig <$> AgentConfig.memory a);
     ("connections", unknownOfStrings <$> AgentConfig.connections a);
     ("metadata", JObj <$> AgentConfig.metadata a)]).

Definition unknownOfNodePosition (p : NodePosition.t) : json :=
  JObj (present
    [("x", Some (JNum (NodePosition.x p)));
     ("y", Some (JNum (NodePosition.y p)))]).

Definition unknownOfWorkflowConnection (c : WorkflowConnection.t) : json :=
  JObj (present
    [("id", Some (JStr (WorkflowConnection.id c)));
     ("sourceId", Some (JStr (WorkflowConnection.sourceId c)));
     ("targetId", Some (JStr (WorkflowConnection.targetId c)));
     ("sourceHandle", JStr <$> WorkflowConnection.sourceHandle c);
     ("targetHandle", JStr <$> WorkflowConnection.targetHandle c);
     ("condition", JStr <$> WorkflowConnection.condition c);
     ("label", JStr <$> WorkflowConnection.label c)]).

Definition unknownOfWorkflowNode (n : WorkflowNode.t) : json :=
  JObj (present
    [("id", Some (JStr (WorkflowNode.id n)));
     ("type", Some (JStr (NodeType.to_string (WorkflowNode.type n))));
     ("agentId", JStr <$> WorkflowNode.agentId n);
     ("agent", unknownOfAgentConfig <$> WorkflowNode.agent n);
     ("position", unknownOfNodePosition <$> WorkflowNode.position n);
     ("metadata", JObj <$> WorkflowNode.metadata n)]).

Definition unknownOfWorkflowVariable (v : WorkflowVariable.t) : json :=
  JObj (present
    [("name", Some (JStr (WorkflowVariable.name v)));
     ("type", Some (JStr (VariableType.to_string (WorkflowVariable.type v))));
     ("defaultValue", WorkflowVariable.defaultValue v);
     ("description", JStr <$> WorkflowVariable.description v);
     ("required", JBool <$> WorkflowVariable.required v)]).

Definition unknownOfTriggerConfig (c : TriggerConfig.t) : json :=
  JObj (present
    [("schedule", JStr <$> TriggerConfig.schedule c);
     ("webhookUrl", JStr <$> TriggerConfig.webhookUrl c);
     ("eventName", JStr <$> TriggerConfig.eventName c)]
    ++ TriggerConfig.extra c).

Definition unknownOfWorkflowTrigger (t : WorkflowTrigger.t) : json :=
  JObj (present
    [("type", Some (JStr (TriggerType.to_string (WorkflowTrigger.type t))));
     ("config", unknownOfTriggerConfig <$> WorkflowTrigger.config t)]).

Definition unknownOfWorkflowConfig (w : WorkflowConfig.t) : json :=
  JObj (present
    [("id", Some (JStr (WorkflowConfig.id w)));
     ("name", Some (JStr (WorkflowConfig.name w)));
     ("description", JStr <$> WorkflowConfig.description w);
     ("version", JStr <$> WorkflowConfig.version w);
     ("nodes", Some (JArr (map unknownOfWorkflowNode (WorkflowConfig.nodes w))));
     ("connections",
      Some (JArr (map unknownOfWorkflowConnection (WorkflowConfig.connections w))));
     ("trigger", unknownOfWorkflowTrigger <$> WorkflowConfig.trigger w);
     ("variables",
      (fun l => JArr (map unknownOfWorkflowVariable l)) <$> WorkflowConfig.variables w);
     ("tags", unknownOfStrings <$> WorkflowConfig.tags w);
     ("metadata", JObj <$> WorkflowConfig.metadata w)]).

(** ** Plain objects used as dictionaries

    [Record<string, V>] values the adapters fill by assignment. The map holds
    the object's own properties. Two things differ from a [Map]: assigning to
    the key [__proto__] creates no own property, and reading a key the object
    does not own falls through to [Object.prototype]. *)
Module JsObject.
Definition assign {V : Type} (k : string) (v : V) (o : gmap string V)
    : gmap string V :=
  if String.eqb k "__proto__" then o else <[k := v]> o.

(** [Object.fromEntries]: later entries overwrite earlier ones; every key,
    [__proto__] included, becomes an own property. *)
Definition fromEntries {V : Type} (entries : list (string * V)) : gmap string V :=
  fold_left (fun o kv => <[fst kv := snd kv]> o) entries ∅.

(** The property names of [Object.prototype]; each holds a function or an
    object, so an inherited read is truthy. *)
Definition prototypeKeys : list string :=
  ["constructor"; "__defineGetter__"; "__defineSetter__"; "hasOwnProperty";
   "__lookupGetter__"; "__lookupSetter__"; "isPrototypeOf";
   "propertyIsEnumerable"; "toString"; "valueOf"; "__proto__";
   "toLocaleString"].

Inductive read (V : Type) : Type :=
  | Own (v : V)
  | Inherited
  | Undefined.
Arguments Own {V} v.
Arguments Inherited {V}.
Arguments Undefined {V}.

Definition get {V : Type} (k : string) (o : gmap string V) : read V :=
  match o !! k with
  | Some v => Own v
  | None => if existsb (String.eqb k) prototypeKeys then Inherited else Undefined
  end.
End JsObject.

(** [workflow.name || workflow.id]. *)
Definition workflowTitle (workflow : WorkflowConfig.t) : string :=
  if truthy (WorkflowConfig.name workflow) then WorkflowConfig.name workflow
  else WorkflowConfig.id workflow.

(** [agent.name || agent.id]. *)
Definition agentTitle (agent : AgentConfig.t) : string :=
  if truthy (AgentConfig.name agent) then AgentConfig.name agent
  else AgentConfig.id agent.

(** [agent.parameters?.f ?? d]. *)
Definition parameterOr (agent : AgentConfig.t)
    (f : ModelParameters.t → option Q) (d : Q) : Q :=
  default d (AgentConfig.parameters agent ≫= f).

(** The one-character string holding a double quote. *)
Definition dquote : string := String (Ascii.ascii_of_nat 34) EmptyString.

(** Decimal rendering of a number inside a template literal. *)
Definition decimal (n : nat) : string := NilZero.string_of_uint (Nat.to_uint n).

(** ** CrewAI adapter ([src/adapters/crewai.adapter.ts]) *)

Module CrewAIProcess.
Inductive t : Type := sequential | hierarchical | consensual.

Definition eqb (a b : t) : bool :=
  match a, b with
  | sequential, sequential | hierarchical, hierarchical
  | consensual, consensual => true
  | _, _ => false
  end.
End CrewAIProcess.

Module CrewAIAdapterOptions.
Record t : Type := mk {
  process : option CrewAIProcess.t;
  verbose : option bool;
  enableMemory : option bool;
  enableCache : option bool;
  maxRpm : option Q
}.

(** The default argument [options = {}]. *)
Definition none : t := mk None None None None None.
End CrewAIAdapterOptions.

Module CrewLlm.
Record t : Type := mk {
  model : string;
  temperature : Q;
  maxTokens : Q;
  topP : Q
}.
End CrewLlm.

Module CrewAIAgent.
Record t : Type := mk {
  role : string;
  goal : string;
  backstory : string;
  tools : option (list string);
  llm : CrewLlm.t;
  verbose : bool;
  allowDelegation : bool;
  maxIter : nat;
  memory : bool;
  cache : bool
}.
End CrewAIAgent.

Module CrewAITask.
Record t : Type := mk {
  description : string;
  expectedOutput : string;
  agent : string;
  tools : option (list string);
  context : list string;
  async : bool
}.
End CrewAITask.

Module CrewAICrew.
Record t : Type := mk {
  name : string;
  agents : list CrewAIAgent.t;
  tasks : list CrewAITask.t;
  process : CrewAIProcess.t;
  verbose : bool;
  memory : bool;
  cache : bool;
  maxRpm : Q;
  shareCrewAI : bool
}.
End CrewAICrew.

Definition mapCrewAIModel (provider : AIProvider.t) (model : string) : string :=
  let mappedProvider :=
    match provider with
    | AIProvider.openai => "openai"
    | AIProvider.anthropic => "anthropic"
    | AIProvider.google => "google"
    | AIProvider.mistral => "mistral"
    | AIProvider.cohere => "cohere"
    | AIProvider.azure_openai => "azure"
    | AIProvider.bedrock => "bedrock"
    | AIProvider.custom => "custom"
    end in
  mappedProvider +:+ "/" +:+ model.

Definition toolNames (agent : AgentConfig.t) : option (list string) :=
  map Tool.name <$> AgentConfig.tools agent.

Definition mapAgentToCrewAgent (agent : AgentConfig.t)
    (options : CrewAIAdapterOptions.t) : CrewAIAgent.t :=
  let verbose := default false (CrewAIAdapterOptions.verbose options) in
  let enableMemory := default true (CrewAIAdapterOptions.enableMemory options) in
  let enableCache := default true (CrewAIAdapterOptions.enableCache options) in
  let role := agentTitle agent in
  let goal :=
    or_else (or_opt (AgentConfig.systemPrompt agent) (AgentConfig.description agent))
      ("Execute tasks as " +:+ role) in
  let backstory :=
    if truthy_opt (AgentConfig.description agent) then
      default EmptyString (AgentConfig.description agent) +:+ ". " +:+
      or_else (AgentConfig.systemPrompt agent) EmptyString
    else
      or_else (AgentConfig.systemPrompt agent)
        ("An AI agent specialized in performing tasks related to " +:+ role +:+ ".") in
  let llm :=
    CrewLlm.mk
      (mapCrewAIModel (AgentConfig.provider agent) (AgentConfig.model agent))
      (parameterOr agent ModelParameters.temperature (7 # 10))
      (parameterOr agent ModelParameters.maxTokens 1000)
      (parameterOr agent ModelParameters.topP 1) in
  CrewAIAgent.mk role goal backstory (toolNames agent) llm verbose
    true 15
    (enableMemory &&
     match AgentConfig.memory agent with
     | Some m => negb (MemoryType.is_none (MemoryConfig.type m))
     | None => true
     end)
    enableCache.

Definition determineProcessType (workflow : WorkflowConfig.t) : CrewAIProcess.t :=
  let connections := WorkflowConfig.connections workflow in
  let hasBranching :=
    existsb
      (fun conn =>
         let otherConns :=
           List.filter
             (fun c => String.eqb (WorkflowConnection.sourceId c)
                         (WorkflowConnection.sourceId conn))
             connections in
         (1 <? List.length otherConns)%nat)
      connections in
  let isLinear :=
    forallb
      (fun node =>
         let incoming :=
           List.filter
             (fun c => String.eqb (WorkflowConnection.targetId c) (WorkflowNode.id node))
             connections in
         let outgoing :=
           List.filter
             (fun c => String.eqb (WorkflowConnection.sourceId c) (WorkflowNode.id node))
             connections in
         (List.length incoming <=? 1)%nat && (List.length outgoing <=? 1)%nat)
      (WorkflowConfig.nodes workflow) in
  if hasBranching || negb isLinear then CrewAIProcess.hierarchical
  else CrewAIProcess.sequential.

(** The [Map<string, string[]>] from a target to its sources. *)
Definition buildDependencyMap (workflow : WorkflowConfig.t) : JsMap.t (list string) :=
  fold_left
    (fun m conn =>
       let deps := default [] (JsMap.get (WorkflowConnection.targetId conn) m) in
       JsMap.set (WorkflowConnection.targetId conn)
         (deps ++ [WorkflowConnection.sourceId conn]) m)
    (WorkflowConfig.connections workflow) JsMap.empty.

(** [dependencies.map(...).filter(Boolean)]: a dependency stays when the
    first node of that id is an agent node and the id is not empty. *)
Definition taskContext (workflow : WorkflowConfig.t) (dependencies : list string)
    : list string :=
  List.filter
    (fun depId =>
       match List.find (fun n => String.eqb (WorkflowNode.id n) depId)
               (WorkflowConfig.nodes workflow) with
       | Some depNode =>
           NodeType.eqb (WorkflowNode.type depNode) NodeType.agent && truthy depId
       | None => false
       end)
    dependencies.

(** The body of [workflow.nodes.forEach((node, index) => ...)]: what one node
    pushes onto [agents] and [tasks], if anything. *)
Definition crewEntry (workflow : WorkflowConfig.t)
    (options : CrewAIAdapterOptions.t) (process : CrewAIProcess.t)
    (dependencyMap : JsMap.t (list string)) (index : nat) (node : WorkflowNode.t)
    : option (CrewAIAgent.t * CrewAITask.t) :=
  if NodeType.eqb (WorkflowNode.type node) NodeType.agent then
    match WorkflowNode.agent node with
    | Some agentConfig =>
        let crewAgent := mapAgentToCrewAgent agentConfig options in
        let dependencies :=
          default [] (JsMap.get (WorkflowNode.id node) dependencyMap) in
        let task :=
          CrewAITask.mk
            (or_else
               (or_opt (AgentConfig.systemPrompt agentConfig)
                  (AgentConfig.description agentConfig))
               ("Execute task " +:+ decimal (index + 1)))
            ("Results from " +:+ CrewAIAgent.role crewAgent)
            (CrewAIAgent.role crewAgent)
            (toolNames agentConfig)
            (taskContext workflow dependencies)
            (CrewAIProcess.eqb process CrewAIProcess.hierarchical) in
        Some (crewAgent, task)
    | None => None
    end
  else None.

Definition mapWorkflowToCrew (workflow : WorkflowConfig.t)
    (options : CrewAIAdapterOptions.t) : CrewAICrew.t :=
  let process :=
    default (determineProcessType workflow) (CrewAIAdapterOptions.process options) in
  let verbose := default false (CrewAIAdapterOptions.verbose options) in
  let enableMemory := default true (CrewAIAdapterOptions.enableMemory options) in
  let enableCache := default true (CrewAIAdapterOptions.enableCache options) in
  let maxRpm := default (10 : Q) (CrewAIAdapterOptions.maxRpm options) in
  let dependencyMap := buildDependencyMap workflow in
  let pushed :=
    omap (fun x => x)
      (imap (crewEntry workflow options process dependencyMap)
         (WorkflowConfig.nodes workflow)) in
  CrewAICrew.mk (workflowTitle workflow) (map fst pushed) (map snd pushed)
    process verbose enableMemory enableCache maxRpm false.

(** ** LangChain adapter ([src/adapters/langchain.adapter.ts]) *)

Module LangChainAgentType.
Inductive t : Type :=
  | zero_shot_react_description
  | react_docstore
  | self_ask_with_search
  | conversational_react_description
  | chat_zero_shot_react_description
  | chat_conversational_react_description
  | structured_chat_zero_shot_react_description
  | openai_functions
  | openai_multi_functions.
End LangChainAgentType.

Module LangChainAdapterOptions.
Record t : Type := mk {
  agentType : option LangChainAgentType.t;
  verbose : option bool;
  maxIterations : option nat;
  returnIntermediateSteps : option bool
}.

Definition none : t := mk None None None None.
End LangChainAdapterOptions.

Module LangChainTool.
Record t : Type := mk {
  name : string;
  description : string;
  parameters : option (list (string * json));
  returnDirect : bool
}.
End LangChainTool.

Module LangChainMemoryType.
Inductive t : Type := buffer | buffer_window | summary | entity | knowledge_graph.
End LangChainMemoryType.

Module LangChainMemory.
Record t : Type := mk {
  type : LangChainMemoryType.t;
  k : option Q;
  memoryKey : string;
  inputKey : string;
  outputKey : string;
  returnMessages : bool
}.
End LangChainMemory.

Module LangChainLlm.
Record t : Type := mk {
  modelName : string;
  temperature : Q;
  maxTokens : Q;
  topP : Q;
  frequencyPenalty : Q;
  presencePenalty : Q;
  timeout : Z;
  maxRetries : Z
}.
End LangChainLlm.

Module LangChainAgent.
Record t : Type := mk {
  agentType : LangChainAgentType.t;
  llm : LangChainLlm.t;
  tools : list LangChainTool.t;
  memory : option LangChainMemory.t;
  systemMessage : option string;
  verbose : bool;
  maxIterations : nat;
  returnIntermediateSteps : bool
}.
End LangChainAgent.

Definition determineAgentType (agent : AgentConfig.t) : LangChainAgentType.t :=
  if (0 <? List.length (default [] (AgentConfig.tools agent)))%nat then
    match AgentConfig.provider agent with
    | AIProvider.openai => LangChainAgentType.openai_functions
    | _ => LangChainAgentType.zero_shot_react_description
    end
  else
    match AgentConfig.memory agent with
    | Some m =>
        if MemoryType.is_none (MemoryConfig.type m)
        then LangChainAgentType.zero_shot_react_description
        else LangChainAgentType.conversational_react_description
    | None => LangChainAgentType.zero_shot_react_description
    end.

Definition mapMemoryType (memoryType : MemoryType.t) : LangChainMemoryType.t :=
  match memoryType with
  | MemoryType.buffer => LangChainMemoryType.buffer
  | MemoryType.summary => LangChainMemoryType.summary
  | MemoryType.vector => LangChainMemoryType.knowledge_graph
  | MemoryType.none => LangChainMemoryType.buffer
  end.

Definition mapModelName (provider : AIProvider.t) (model : string) : string :=
  let prefix :=
    match provider with
    | AIProvider.openai => "openai/"
    | AIProvider.anthropic => "anthropic/"
    | AIProvider.google => "google/"
    | AIProvider.mistral => "mistral/"
    | AIProvider.cohere => "cohere/"
    | AIProvider.azure_openai => "azure/"
    | AIProvider.bedrock => "bedrock/"
    | AIProvider.custom => EmptyString
    end in
  prefix +:+ model.

Definition mapAgentToLangChain (agent : AgentConfig.t)
    (options : LangChainAdapterOptions.t) : LangChainAgent.t :=
  let agentType :=
    default (determineAgentType agent) (LangChainAdapterOptions.agentType options) in
  let verbose := default false (LangChainAdapterOptions.verbose options) in
  let maxIterations := default 15 (LangChainAdapterOptions.maxIterations options) in
  let returnIntermediateSteps :=
    default false (LangChainAdapterOptions.returnIntermediateSteps options) in
  let tools :=
    map (fun tool =>
           LangChainTool.mk (Tool.name tool) (Tool.description tool)
             (Tool.parameters tool) false)
      (default [] (AgentConfig.tools agent)) in
  let memory :=
    (fun m =>
       LangChainMemory.mk (mapMemoryType (MemoryConfig.type m))
         (MemoryConfig.maxMessages m) "chat_history" "input" "output" true)
    <$> AgentConfig.memory agent in
  let llm :=
    LangChainLlm.mk
      (mapModelName (AgentConfig.provider agent) (AgentConfig.model agent))
      (parameterOr agent ModelParameters.temperature (7 # 10))
      (parameterOr agent ModelParameters.maxTokens 1000)
      (parameterOr agent ModelParameters.topP 1)
      (parameterOr agent ModelParameters.frequencyPenalty 0)
      (parameterOr agent ModelParameters.presencePenalty 0)
      60000%Z 2%Z in
  LangChainAgent.mk agentType llm tools memory (AgentConfig.systemPrompt agent)
    verbose maxIterations returnIntermediateSteps.

Module LangGraphNodeType.
Inductive t : Type := agent | tool | llm | prompt | conditional.
End LangGraphNodeType.

(** The [config] objects [mapWorkflowToLangGraph] writes, one shape per case
    of its [switch]. *)
Inductive LangGraphConfig : Type :=
  | TemplateConfig (template : string)
  | InlineAgentConfig (agentType : LangChainAgentType.t) (llm : LangChainLlm.t)
      (tools : list LangChainTool.t) (memory : option LangChainMemory.t)
      (systemMessage : option string)
  | AgentIdConfig (agentId : string)
  | ConditionConfig (condition : string)
  | ToolConfig (name description : string).

(** [next?: string | string[] | Record<string, string>]. *)
Inductive LangGraphNext : Type :=
  | NextSingle (target : string)
  | NextParallel (targets : list string)
  | NextConditional (routes : gmap string string).

Module LangGraphNode.
Record t : Type := mk {
  id : string;
  type : LangGraphNodeType.t;
  config : LangGraphConfig;
  next : option LangGraphNext
}.
End LangGraphNode.

Module LangGraphEdge.
Record t : Type := mk {
  source : string;
  target : string;
  condition : option string
}.
End LangGraphEdge.

Module LangGraphState.
Record t : Type := mk {
  schema : gmap string json;
  default_ : gmap string json
}.
End LangGraphState.

Module LangGraphWorkflow.
Record t : Type := mk {
  name : string;
  nodes : gmap string LangGraphNode.t;
  edges : list LangGraphEdge.t;
  entryPoint : string;
  state : LangGraphState.t;
  checkpointerType : string
}.
End LangGraphWorkflow.

(** [workflow.connections.filter((c) => c.sourceId === node.id)]. *)
Definition outgoingConnections (workflow : WorkflowConfig.t) (nodeId : string)
    : list WorkflowConnection.t :=
  List.filter (fun c => String.eqb (WorkflowConnection.sourceId c) nodeId)
    (WorkflowConfig.connections workflow).

(** [outgoingConnections.some((c) => c.condition)]. *)
Definition hasConditions (outgoing : list WorkflowConnection.t) : bool :=
  existsb (fun c => truthy_opt (WorkflowConnection.condition c)) outgoing.

(** [c.condition || 'default']. *)
Definition routeKey (c : WorkflowConnection.t) : string :=
  or_else (WorkflowConnection.condition c) "default".

(** The value left in [lgNode.next] by the block after the [switch]. *)
Definition nextOf (workflow : WorkflowConfig.t) (nodeId : string)
    : option LangGraphNext :=
  let outgoing := outgoingConnections workflow nodeId in
  match outgoing with
  | [] => None
  | [c] => Some (NextSingle (WorkflowConnection.targetId c))
  | _ =>
      if hasConditions outgoing then
        Some (NextConditional
                (JsObject.fromEntries
                   (map (fun c => (routeKey c, WorkflowConnection.targetId c))
                      outgoing)))
      else Some (NextParallel (map WorkflowConnection.targetId outgoing))
  end.

(** The body of [workflow.nodes.forEach((node) => ...)] up to the assignment
    [nodes[node.id] = lgNode]: the node it stores. *)
Definition langGraphNode (workflow : WorkflowConfig.t)
    (options : LangChainAdapterOptions.t) (node : WorkflowNode.t)
    : LangGraphNode.t :=
  let id := WorkflowNode.id node in
  let '(type, config) :=
    match WorkflowNode.type node with
    | NodeType.trigger =>
        (LangGraphNodeType.prompt,
         TemplateConfig "Start workflow with input: {input}")
    | NodeType.agent =>
        match WorkflowNode.agent node with
        | Some agentConfig =>
            let lcAgent := mapAgentToLangChain agentConfig options in
            (LangGraphNodeType.agent,
             InlineAgentConfig (LangChainAgent.agentType lcAgent)
               (LangChainAgent.llm lcAgent) (LangChainAgent.tools lcAgent)
               (LangChainAgent.memory lcAgent)
               (LangChainAgent.systemMessage lcAgent))
        | None =>
            (LangGraphNodeType.agent,
             AgentIdConfig (or_else (WorkflowNode.agentId node) id))
        end
    | NodeType.condition =>
        (LangGraphNodeType.conditional,
         ConditionConfig
           ("lambda x: x.get(" +:+ dquote +:+ "condition" +:+ dquote +:+ ", True)"))
    | NodeType.loop =>
        (LangGraphNodeType.tool, ToolConfig "loop" "Iterate over items")
    | NodeType.end_ =>
        (LangGraphNodeType.llm,
         TemplateConfig "Workflow completed. Output: {output}")
    end in
  LangGraphNode.mk id type config (nextOf workflow id).

Definition langGraphEntryPoint (workflow : WorkflowConfig.t) : string :=
  let triggerNode :=
    List.find (fun n => NodeType.eqb (WorkflowNode.type n) NodeType.trigger)
      (WorkflowConfig.nodes workflow) in
  or_else (WorkflowNode.id <$> triggerNode)
    (or_else (WorkflowNode.id <$> head (WorkflowConfig.nodes workflow)) "start").

(** The state description: declared variables first, then the two fixed
    fields. *)
Definition langGraphState (workflow : WorkflowConfig.t) : LangGraphState.t :=
  let variables := default [] (WorkflowConfig.variables workflow) in
  let stateSchema :=
    fold_left
      (fun o variable =>
         JsObject.assign (WorkflowVariable.name variable)
           (JStr (VariableType.to_string (WorkflowVariable.type variable))) o)
      variables ∅ in
  let stateDefault :=
    fold_left
      (fun o variable =>
         match WorkflowVariable.defaultValue variable with
         | Some v => JsObject.assign (WorkflowVariable.name variable) v o
         | None => o
         end)
      variables ∅ in
  LangGraphState.mk
    (JsObject.assign "output" (JStr "string")
       (JsObject.assign "input" (JStr "string") stateSchema))
    (JsObject.assign "output" (JStr EmptyString)
       (JsObject.assign "input" (JStr EmptyString) stateDefault)).

Definition mapWorkflowToLangGraph (workflow : WorkflowConfig.t)
    (options : LangChainAdapterOptions.t) : LangGraphWorkflow.t :=
  let nodes :=
    fold_left
      (fun o node =>
         JsObject.assign (WorkflowNode.id node)
           (langGraphNode workflow options node) o)
      (WorkflowConfig.nodes workflow) ∅ in
  let edges :=
    map (fun conn =>
           LangGraphEdge.mk (WorkflowConnection.sourceId conn)
             (WorkflowConnection.targetId conn)
             (WorkflowConnection.condition conn))
      (WorkflowConfig.connections workflow) in
  LangGraphWorkflow.mk (workflowTitle workflow) nodes edges
    (langGraphEntryPoint workflow) (langGraphState workflow) "memory".

(** ** n8n adapter ([src/adapters/n8n.adapter.ts]) *)

(** A call either returns or throws. *)
Inductive outcome (A : Type) : Type :=
  | Returns (a : A)
  | Throws (error : string).
Arguments Returns {A} a.
Arguments Throws {A} error.

Module N8nNode.
(** The connection step reads a node's [name] and [parameters.agentId]
    only; [position], [credentials] and the other parameters play no part
    in it and are not carried here. *)
Record t : Type := mk {
  name : string;
  type : string;
  typeVersion : nat;
  agentIdParameter : option string
}.
End N8nNode.

Module N8nConnection.
Record t : Type := mk {
  node : string;
  type : string;
  index : nat
}.
End N8nConnection.

Module N8nWorkflow.
(** [connections] maps a node name to its [main] array of outputs. *)
Record t : Type := mk {
  name : string;
  nodes : list N8nNode.t;
  connections : gmap string (list (list N8nConnection.t));
  active : bool
}.
End N8nWorkflow.

Definition mapTriggerToN8nType (triggerType : TriggerType.t) : string :=
  match triggerType with
  | TriggerType.webhook => "n8n-nodes-base.webhook"
  | TriggerType.schedule => "n8n-nodes-base.scheduleTrigger"
  | TriggerType.event => "n8n-nodes-base.eventTrigger"
  | TriggerType.manual => "n8n-nodes-base.manualTrigger"
  end.

(** [name], [type], [typeVersion] and [parameters.agentId] of the node
    [mapAgentToN8nNode] returns. *)
Definition mapAgentToN8nNode (agent : AgentConfig.t) : N8nNode.t :=
  N8nNode.mk (agentTitle agent) "n8n-nodes-langchain.agent" 1
    (Some (AgentConfig.id agent)).

(** The [switch] of [mapWorkflowToN8n]: the node pushed for [node]. *)
Definition n8nNode (workflow : WorkflowConfig.t) (node : WorkflowNode.t)
    : N8nNode.t :=
  let id := WorkflowNode.id node in
  match WorkflowNode.type node with
  | NodeType.trigger =>
      N8nNode.mk ("Trigger " +:+ id)
        match WorkflowConfig.trigger workflow with
        | Some trigger => mapTriggerToN8nType (WorkflowTrigger.type trigger)
        | None => "n8n-nodes-base.manualTrigger"
        end
        1 None
  | NodeType.agent =>
      match WorkflowNode.agent node with
      | Some agentConfig => mapAgentToN8nNode agentConfig
      | None =>
          N8nNode.mk ("Agent " +:+ id) "n8n-nodes-langchain.agent" 1
            (Some (or_else (WorkflowNode.agentId node) id))
      end
  | NodeType.condition =>
      N8nNode.mk ("Condition " +:+ id) "n8n-nodes-base.if" 1 None
  | NodeType.loop =>
      N8nNode.mk ("Loop " +:+ id) "n8n-nodes-base.splitInBatches" 1 None
  | NodeType.end_ =>
      N8nNode.mk ("End " +:+ id) "n8n-nodes-base.noOp" 1 None
  end.

(** [n.name.includes(id) || n.parameters.agentId === id]. *)
Definition matchesEndpoint (id : string) (n : N8nNode.t) : bool :=
  includes (N8nNode.name n) id ||
  match N8nNode.agentIdParameter n with
  | Some agentId => String.eqb agentId id
  | None => false
  end.

Definition findEndpoint (nodes : list N8nNode.t) (id : string) : option N8nNode.t :=
  List.find (matchesEndpoint id) nodes.

(** The statements after the guard of the connection step: create the entry
    of [fromName] when the read is falsy, then push onto [main[0]]. An
    inherited property is truthy and has no [main]. *)
Definition pushConnection (fromName toName : string)
    (connections : gmap string (list (list N8nConnection.t)))
    : outcome (gmap string (list (list N8nConnection.t))) :=
  let connections1 :=
    match JsObject.get fromName connections with
    | JsObject.Undefined => JsObject.assign fromName [[]] connections
    | _ => connections
    end in
  match JsObject.get fromName connections1 with
  | JsObject.Own main =>
      let main1 := if (List.length main <=? 0)%nat then main ++ [[]] else main in
      match main1 with
      | output :: rest =>
          Returns
            (<[fromName := (output ++ [N8nConnection.mk toName "main" 0]) :: rest]>
               connections1)
      | [] => Throws "TypeError"
      end
  | _ => Throws "TypeError"
  end.

(** One turn of [workflow.connections.forEach]. *)
Definition connectionStep (nodes : list N8nNode.t)
    (connections : gmap string (list (list N8nConnection.t)))
    (conn : WorkflowConnection.t)
    : outcome (gmap string (list (list N8nConnection.t))) :=
  match findEndpoint nodes (WorkflowConnection.sourceId conn),
        findEndpoint nodes (WorkflowConnection.targetId conn) with
  | Some fromNode, Some toNode =>
      pushConnection (N8nNode.name fromNode) (N8nNode.name toNode) connections
  | _, _ => Returns connections
  end.

Fixpoint buildConnections (nodes : list N8nNode.t)
    (conns : list WorkflowConnection.t)
    (connections : gmap string (list (list N8nConnection.t)))
    : outcome (gmap string (list (list N8nConnection.t))) :=
  match conns with
  | [] => Returns connections
  | conn :: rest =>
      match connectionStep nodes connections conn with
      | Returns connections' => buildConnections nodes rest connections'
      | Throws e => Throws e
      end
  end.

Definition mapWorkflowToN8n (workflow : WorkflowConfig.t) : outcome N8nWorkflow.t :=
  let nodes := map (n8nNode workflow) (WorkflowConfig.nodes workflow) in
  match buildConnections nodes (WorkflowConfig.connections workflow) ∅ with
  | Returns connections =>
      Returns (N8nWorkflow.mk (workflowTitle workflow) nodes connections false)
  | Throws e => Throws e
  end.

(** ** Vocabulary of the properties *)

(** *** Structural validity of a typed workflow *)

(** [P] on a property that may be absent. *)
Definition whenPresent {A : Type} (P : A → bool) (o : option A) : bool :=
  match o with
  | Some a => P a
  | None => true
  end.

Definition anything {A : Type} (_ : A) : bool := true.

Definition okMemoryConfig (m : MemoryConfig.t) : bool :=
  whenPresent (fun q => is_int q && is_positive q) (MemoryConfig.maxMessages m).

Definition okTool (t : Tool.t) : bool :=
  nonEmpty (Tool.id t) && nonEmpty (Tool.name t) &&
  whenPresent withoutProto (Tool.parameters t).

Definition okModelParameters (p : ModelParameters.t) : bool :=
  whenPresent (in_range 0 2) (ModelParameters.temperature p) &&
  whenPresent (fun q => is_int q && is_positive q) (ModelParameters.maxTokens p) &&
  whenPresent (in_range 0 1) (ModelParameters.topP p) &&
  whenPresent (in_range (-2) 2) (ModelParameters.frequencyPenalty p) &&
  whenPresent (in_range (-2) 2) (ModelParameters.presencePenalty p).

Definition okAgentConfig (a : AgentConfig.t) : bool :=
  nonEmpty (AgentConfig.id a) && nonEmpty (AgentConfig.name a) &&
  nonEmpty (AgentConfig.model a) &&
  whenPresent okModelParameters (AgentConfig.parameters a) &&
  whenPresent (forallb okTool) (AgentConfig.tools a) &&
  whenPresent okMemoryConfig (AgentConfig.memory a) &&
  whenPresent withoutProto (AgentConfig.metadata a).

Definition okWorkflowConnection (c : WorkflowConnection.t) : bool :=
  nonEmpty (WorkflowConnection.id c) &&
  nonEmpty (WorkflowConnection.sourceId c) &&
  nonEmpty (WorkflowConnection.targetId c).

Definition okWorkflowNode (n : WorkflowNode.t) : bool :=
  nonEmpty (WorkflowNode.id n) && whenPresent okAgentConfig (WorkflowNode.agent n) &&
  whenPresent withoutProto (WorkflowNode.metadata n).

Definition okWorkflowVariable (v : WorkflowVariable.t) : bool :=
  nonEmpty (WorkflowVariable.name v).

Definition okTriggerConfig (isUrl : string → bool) (c : TriggerConfig.t) : bool :=
  whenPresent isUrl (TriggerConfig.webhookUrl c) &&
  forallb (fun kv => negb (isDeclared triggerConfigKeys kv)) (TriggerConfig.extra c) &&
  withoutProto (TriggerConfig.extra c).

Definition okWorkflowTrigger (isUrl : string → bool) (t : WorkflowTrigger.t) : bool :=
  whenPresent (okTriggerConfig isUrl) (WorkflowTrigger.config t).

(** The field-level constraints of the schemas on a workflow: non-empty
    identifiers, numbers in range, at least one node; and, of the records
    (metadata, tool parameters, the undeclared trigger config properties),
    that none has a property named [__proto__], which parsing leaves out. *)
Definition okWorkflowFields (isUrl : string → bool) (w : WorkflowConfig.t) : bool :=
  nonEmpty (WorkflowConfig.id w) && nonEmpty (WorkflowConfig.name w) &&
  (1 <=? List.length (WorkflowConfig.nodes w)) &&
  forallb okWorkflowNode (WorkflowConfig.nodes w) &&
  forallb okWorkflowConnection (WorkflowConfig.connections w) &&
  whenPresent (okWorkflowTrigger isUrl) (WorkflowConfig.trigger w) &&
  whenPresent (forallb okWorkflowVariable) (WorkflowConfig.variables w) &&
  whenPresent withoutProto (WorkflowConfig.metadata w).

(** Structural validity: the field constraints, Invariant A (the first
    refinement) and Invariant B (the second). *)
Definition structurallyValid (isUrl : string → bool) (w : WorkflowConfig.t) : bool :=
  okWorkflowFields isUrl w && connectionsReferenceNodes w && agentNodesHaveReference w.

(** Invariant A, spelled out. *)
Definition endpointsResolve (workflow : WorkflowConfig.t) : Prop :=
  ∀ c, In c (WorkflowConfig.connections workflow) →
    (∃ n, In n (WorkflowConfig.nodes workflow) ∧
          WorkflowNode.id n = WorkflowConnection.sourceId c) ∧
    (∃ n, In n (WorkflowConfig.nodes workflow) ∧
          WorkflowNode.id n = WorkflowConnection.targetId c).

(** Its half on sources: every connection leaves an existing node. *)
Definition sourcesResolve (workflow : WorkflowConfig.t) : Prop :=
  ∀ c, In c (WorkflowConfig.connections workflow) →
    ∃ n, In n (WorkflowConfig.nodes workflow) ∧
         WorkflowNode.id n = WorkflowConnection.sourceId c.

(** Invariant B, spelled out. *)
Definition agentNodesCarryReference (workflow : WorkflowConfig.t) : Prop :=
  ∀ n, In n (WorkflowConfig.nodes workflow) →
    WorkflowNode.type n = NodeType.agent →
    (∃ agentId, WorkflowNode.agentId n = Some agentId ∧ agentId ≠ EmptyString) ∨
    is_Some (WorkflowNode.agent n).

(** What a schema guarantees of the value it returns, and the inverse
    property of the view of typed values as [unknown]. *)
Definition sound {A : Type} (p : json → option A) (P : A → bool) : Prop :=
  ∀ v a, p v = Some a → P a = true.

Definition retract {A : Type} (p : json → option A) (e : A → json) (P : A → bool)
    : Prop :=
  ∀ a, P a = true → p (e a) = Some a.

(** Reading a property of an encoded object. *)
Fixpoint assocOpt (k : string) (props : list (string * option json)) : option json :=
  match props with
  | [] => None
  | (k', o) :: r => if String.eqb k k' then o else assocOpt k r
  end.

Fixpoint distinct (keys : list string) : bool :=
  match keys with
  | [] => true
  | k :: r => negb (existsb (String.eqb k) r) && distinct r
  end.

(** *** Graphs *)

(** One connection leads from [a] to [b]. *)
Definition connects (workflow : WorkflowConfig.t) (a b : string) : Prop :=
  ∃ c, In c (WorkflowConfig.connections workflow) ∧
       WorkflowConnection.sourceId c = a ∧ WorkflowConnection.targetId c = b.

(** The connection graph has a directed cycle: some id reaches itself along
    one or more connections. *)
Definition hasDirectedCycle (workflow : WorkflowConfig.t) : Prop :=
  ∃ x, tc (connects workflow) x x.

(** Every id the adjacency map mentions, and how many entries that takes. *)
Definition graphUniverse (graph : JsMap.t JsSet.t) : gset string :=
  list_to_set (flat_map (fun kv => fst kv :: snd kv) graph).

Definition graphWeight (graph : JsMap.t JsSet.t) : nat :=
  List.length (flat_map (fun kv => fst kv :: snd kv) graph).

(** The sum of the positive in-degrees. *)
Definition degreeSum (inDegree : JsMap.t Z) : nat :=
  list_sum (map (fun kv => Z.to_nat (snd kv)) inDegree).

(** The recursive call returns as long as [fuel] covers the unvisited part of
    the universe [U]. *)
Definition dfs_ok (U : gset string) (fuel : nat)
    (recur : string → DfsState → option (bool * DfsState)) : Prop :=
  ∀ n st, n ∈ U → n ∉ visited st → size (U ∖ visited st) ≤ fuel →
    ∃ b st', recur n st = Some (b, st') ∧ visited st ⊆ visited st'.

(** *** Adapters *)

(** [workflow.connections.filter((c) => c.targetId === node.id)]. *)
Definition incomingConnections (workflow : WorkflowConfig.t) (nodeId : string)
    : list WorkflowConnection.t :=
  List.filter (fun c => String.eqb (WorkflowConnection.targetId c) nodeId)
    (WorkflowConfig.connections workflow).

(** A strict chain: no node has two incoming or two outgoing connections. *)
Definition strictChain (workflow : WorkflowConfig.t) : Prop :=
  ∀ n, In n (WorkflowConfig.nodes workflow) →
    List.length (incomingConnections workflow (WorkflowNode.id n)) ≤ 1 ∧
    List.length (outgoingConnections workflow (WorkflowNode.id n)) ≤ 1.

(** The agent-kind nodes, and the inline descriptors among them. *)
Definition agentNodes (workflow : WorkflowConfig.t) : list WorkflowNode.t :=
  List.filter (fun n => NodeType.eqb (WorkflowNode.type n) NodeType.agent)
    (WorkflowConfig.nodes workflow).

Definition inlineAgents (workflow : WorkflowConfig.t) : list AgentConfig.t :=
  omap WorkflowNode.agent (agentNodes workflow).

(** A connection carries a condition label when [condition] is there and is
    not the empty string. *)
Definition carriesCondition (c : WorkflowConnection.t) : Prop :=
  ∃ label, WorkflowConnection.condition c = Some label ∧ label ≠ EmptyString.

(** The fan-out contract of the LangGraph mapping for one node: conditional
    routes when some outgoing connection carries a condition, the parallel
    array when none does, and the node stored under its id. In the route map
    a key is bound to the target of the last connection that has the key. *)
Definition fanOutContract (workflow : WorkflowConfig.t)
    (options : LangChainAdapterOptions.t) (node : WorkflowNode.t) : Prop :=
  let outgoing := outgoingConnections workflow (WorkflowNode.id node) in
  let next := LangGraphNode.next (langGraphNode workflow options node) in
  ((∃ c, In c outgoing ∧ carriesCondition c) →
     ∃ routes, next = Some (NextConditional routes) ∧
       (∀ k, is_Some (routes !! k) ↔ ∃ c, In c outgoing ∧ routeKey c = k) ∧
       (∀ before c after, outgoing = before ++ c :: after →
          (∀ c', In c' after → routeKey c' ≠ routeKey c) →
          routes !! routeKey c = Some (WorkflowConnection.targetId c)) ∧
       (∀ c label, WorkflowConnection.condition c = Some label →
          label ≠ EmptyString → routeKey c = label) ∧
       (∀ c, ¬ carriesCondition c → routeKey c = "default")) ∧
  ((∀ c, In c outgoing → ¬ carriesCondition c) →
     next = Some (NextParallel (map WorkflowConnection.targetId outgoing))) ∧
  (WorkflowNode.id node ≠ "__proto__" →
     ∃ stored,
       LangGraphWorkflow.nodes (mapWorkflowToLangGraph workflow options)
         !! WorkflowNode.id node = Some stored ∧
       LangGraphNode.next stored = next).

(** The names of the two nodes a connection resolves to in the n8n mapping,
    if both are found. *)
Definition resolvedEndpoints (nodes : list N8nNode.t) (conn : WorkflowConnection.t)
    : option (string * string) :=
  match findEndpoint nodes (WorkflowConnection.sourceId conn),
        findEndpoint nodes (WorkflowConnection.targetId conn) with
  | Some fromNode, Some toNode => Some (N8nNode.name fromNode, N8nNode.name toNode)
  | _, _ => None
  end.

(** What the connections that resolve send out of the node named [fromName],
    in connection order. *)
Definition emittedFrom (nodes : list N8nNode.t) (conns : list WorkflowConnection.t)
    (fromName : string) : list N8nConnection.t :=
  map (fun p => N8nConnection.mk (snd p) "main" 0)
    (List.filter (fun p => String.eqb (fst p) fromName)
       (omap (resolvedEndpoints nodes) conns)).

(** The [main] array holding [sent]: no entry when nothing was sent. *)
Definition mainOf (sent : list N8nConnection.t)
    : option (list (list N8nConnection.t)) :=
  match sent with
  | [] => None
  | _ => Some [sent]
  end.

(** No generated node is named like a property of [Object.prototype]. *)
Definition avoidsPrototype (nodes : list N8nNode.t) : Prop :=
  ∀ n, In n nodes → ¬ In (N8nNode.name n) JsObject.prototypeKeys.

(** *** Topological orders *)

Definition workflowNodeIds (workflow : WorkflowConfig.t) : list string :=
  map WorkflowNode.id (WorkflowConfig.nodes workflow).

(** The number of connections into [v]. *)
Definition inDegreeOf (workflow : WorkflowConfig.t) (v : string) : nat :=
  List.length (incomingConnections workflow v).

(** [u] stands before [v] in [l]. *)
Definition precedes (u v : string) (l : list string) : Prop :=
  ∃ l1 l2, l = l1 ++ v :: l2 ∧ In u l1.

(** How many members of [result] have [v] among their successors. *)
Definition processedInto (graph : JsMap.t JsSet.t) (v : string)
    (result : list string) : nat :=
  List.length (List.filter (fun u => JsSet.has v (neighborsOf graph u)) result).

(** What holds of the in-degree map, the queue and the result each time Kahn's
    loop tests its queue. *)
Record kahnInv (workflow : WorkflowConfig.t) (inDegree : JsMap.t Z)
    (queue result : list string) : Prop := {
  inv_nodup : List.NoDup (result ++ queue);
  inv_ids : ∀ v, In v (result ++ queue) → In v (workflowNodeIds workflow);
  inv_degree : ∀ v, In v (workflowNodeIds workflow) →
    JsMap.get v inDegree
    = Some (Z.of_nat (inDegreeOf workflow v)
            - Z.of_nat (processedInto (buildGraph workflow) v result))%Z;
  inv_spent : ∀ v, In v (result ++ queue) →
    inDegreeOf workflow v ≤ processedInto (buildGraph workflow) v result;
  inv_queue : ∀ v, In v queue → ∀ u, connects workflow u v → In u result;
  inv_order : ∀ u v, connects workflow u v → In v result → precedes u v result
}.

(** *** Sample values *)

Definition plainNode (id : string) (k : NodeType.t) : WorkflowNode.t :=
  WorkflowNode.mk id k None None None None.

Definition refNode (id agentId : string) : WorkflowNode.t :=
  WorkflowNode.mk id NodeType.agent (Some agentId) None None None.

Definition plainAgent (id name : string) : AgentConfig.t :=
  AgentConfig.mk id name None AIProvider.openai "gpt-4"
    None None None None None None.

Definition inlineNode (id name : string) : WorkflowNode.t :=
  WorkflowNode.mk id NodeType.agent None (Some (plainAgent id name)) None None.

Definition edge (id src tgt : string) : WorkflowConnection.t :=
  WorkflowConnection.mk id src tgt None None None None.

Definition labelledEdge (id src tgt cond : string) : WorkflowConnection.t :=
  WorkflowConnection.mk id src tgt None None (Some cond) None.

Definition graphOf (nodes : list WorkflowNode.t)
    (connections : list WorkflowConnection.t) : WorkflowConfig.t :=
  WorkflowConfig.mk "wf" "wf" None None nodes connections None None None None.

(** A URL test that accepts every string. *)
Definition acceptAnyUrl (s : string) : bool := true.

(** Scenario 1 and Scenario 2 of the specification. *)
Definition chainWorkflow : WorkflowConfig.t :=
  graphOf [plainNode "a" NodeType.end_; plainNode "b" NodeType.end_;
           plainNode "c" NodeType.end_]
    [edge "c1" "a" "b"; edge "c2" "b" "c"].

Definition twoNodeCycle : WorkflowConfig.t :=
  graphOf [plainNode "a" NodeType.end_; plainNode "b" NodeType.end_]
    [edge "c1" "a" "b"; edge "c2" "b" "a"].

(** Two nodes under one id. *)
Definition duplicateIdWorkflow : WorkflowConfig.t :=
  graphOf [plainNode "a" NodeType.end_; plainNode "a" NodeType.end_] [].

(** Two connections between the same pair of nodes, told apart by their
    conditions. *)
Definition parallelEdgeWorkflow : WorkflowConfig.t :=
  graphOf [plainNode "a" NodeType.end_; plainNode "b" NodeType.end_]
    [labelledEdge "c1" "a" "b" "yes"; labelledEdge "c2" "a" "b" "no"].

(** Scenario 5: one conditioned and one unconditioned edge out of [a]. *)
Definition mixedFanOutWorkflow : WorkflowConfig.t :=
  graphOf [plainNode "a" NodeType.condition; plainNode "b" NodeType.end_;
           plainNode "c" NodeType.end_]
    [labelledEdge "c1" "a" "b" "yes"; edge "c2" "a" "c"].

(** One conditioned edge and two unconditioned ones out of [a]: the two
    share the key [default]. *)
Definition sharedKeyFanOutWorkflow : WorkflowConfig.t :=
  graphOf [plainNode "a" NodeType.condition; plainNode "b" NodeType.end_;
           plainNode "c" NodeType.end_; plainNode "d" NodeType.end_]
    [labelledEdge "c1" "a" "b" "yes"; edge "c2" "a" "c"; edge "c3" "a" "d"].

(** Scenario 6: three chained agents, and the same with a fourth node hanging
    off the first. *)
Definition agentChainWorkflow : WorkflowConfig.t :=
  graphOf [inlineNode "n1" "One"; inlineNode "n2" "Two"; inlineNode "n3" "Three"]
    [edge "c1" "n1" "n2"; edge "c2" "n2" "n3"].

Definition agentBranchWorkflow : WorkflowConfig.t :=
  graphOf [inlineNode "n1" "One"; inlineNode "n2" "Two"; inlineNode "n3" "Three";
           inlineNode "n4" "Four"]
    [edge "c1" "n1" "n2"; edge "c2" "n2" "n3"; edge "c3" "n1" "n4"].

(** One agent node that carries only an [agentId]. *)
Definition bareReferenceWorkflow : WorkflowConfig.t :=
  graphOf [refNode "n1" "research-agent"] [].

(** An inline agent named like a property of [Object.prototype], one
    connection out of it, and one connection from an id no node has. *)
Definition reservedNameWorkflow : WorkflowConfig.t :=
  graphOf [inlineNode "a1" "constructor"; plainNode "done" NodeType.end_]
    [edge "c0" "ghost" "done"; edge "c1" "a1" "done"].

(** A declared variable named [input], typed number, with a default. *)
Definition inputVariableWorkflow : WorkflowConfig.t :=
  WorkflowConfig.mk "wf" "wf" None None [plainNode "a" NodeType.end_] [] None
    (Some [WorkflowVariable.mk "input" VariableType.number (Some (JNum 5))
             None None])
    None None.

(** An input with properties no schema declares. *)
Definition looseConfig : json :=
  JObj [("id", JStr "wf"); ("name", JStr "wf"); ("owner", JStr "me");
        ("nodes", JArr [JObj [("id", JStr "a"); ("type", JStr "end");
                              ("colour", JStr "red")]]);
        ("connections", JArr [])].

(** *** The depth-first search *)

(** An edge of the adjacency map. *)
Definition adjacent (graph : JsMap.t JsSet.t) (u v : string) : Prop :=
  In v (neighborsOf graph u).

(** The nodes whose call of [hasCycle] has returned: visited and off the
    recursion stack. Everything such a node leads to is finished as well, and
    no such node lies on a cycle. *)
Definition finishedClosed (graph : JsMap.t JsSet.t) (st : DfsState) : Prop :=
  recursionStack st ⊆ visited st ∧
  ∀ u, u ∈ visited st → u ∉ recursionStack st →
    (∀ v, adjacent graph u v → v ∈ visited st ∧ v ∉ recursionStack st) ∧
    ¬ tc (adjacent graph) u u.

(** What a call [recur n st] of the search does on an unvisited [n] that every
    node of the stack reaches: [true] only on a cycle, [false] with [n]
    finished and the stack as it was. *)
Definition dfs_spec (graph : JsMap.t JsSet.t)
    (recur : string → DfsState → option (bool * DfsState)) : Prop :=
  ∀ n st b st', recur n st = Some (b, st') →
    n ∉ visited st → finishedClosed graph st →
    (∀ s, s ∈ recursionStack st → rtc (adjacent graph) s n) →
    if b then ∃ x, tc (adjacent graph) x x
    else recursionStack st' = recursionStack st ∧
         visited st ⊆ visited st' ∧ n ∈ visited st' ∧
         finishedClosed graph st'.

(** No two connections share both their source and their target. *)
Definition simpleConnections (workflow : WorkflowConfig.t) : Prop :=
  List.NoDup
    (map (fun c => (WorkflowConnection.sourceId c, WorkflowConnection.targetId c))
       (WorkflowConfig.connections workflow)).

(** A node whose counter is at zero has been queued. *)
Definition kahnReady (workflow : WorkflowConfig.t) (inDegree : JsMap.t Z)
    (queue result : list string) : Prop :=
  ∀ v, In v (workflowNodeIds workflow) →
    JsMap.get v inDegree = Some 0%Z → In v (result ++ queue).

(** What holds of Kahn's loop also when node ids repeat: nothing is queued
    twice, only node ids are queued, and a queued id has its counter used
    up. *)
Definition kahnQueuedOnce (workflow : WorkflowConfig.t) (inDegree : JsMap.t Z)
    (queue result : list string) : Prop :=
  List.NoDup (result ++ queue) ∧
  ∀ v, In v (result ++ queue) →
    In v (workflowNodeIds workflow) ∧ (default 0 (JsMap.get v inDegree) ≤ 0)%Z.

(** Three nodes and no connection. *)
Definition unconnectedWorkflow : WorkflowConfig.t :=
  graphOf [plainNode "b" NodeType.end_; plainNode "a" NodeType.end_;
           plainNode "c" NodeType.end_] [].

(** Two nodes under one id, and a third they both lead to. *)
Definition sharedIdWorkflow : WorkflowConfig.t :=
  graphOf [plainNode "a" NodeType.end_; plainNode "a" NodeType.end_;
           plainNode "b" NodeType.end_] [edge "c1" "a" "b"].

(** No connection starts or ends at [id]. *)
Definition unconnected (workflow : WorkflowConfig.t) (id : string) : Prop :=
  ∀ c, In c (WorkflowConfig.connections workflow) →
    WorkflowConnection.sourceId c ≠ id ∧ WorkflowConnection.targetId c ≠ id.

(** ** The agent validators ([src/utils/validator.ts]) and the throwing
    variants *)

(** [ValidationResult], and its variant with [Partial<AgentConfig>] data. The
    agent schema has no refinement, so the issues of a failure are those of
    the object schema. *)
Inductive ValidationResult (D : Type) : Type :=
  | ValidationSuccess (data : D)
  | ValidationFailure (message : string) (issues : ZodIssues).
Arguments ValidationSuccess {D} data.
Arguments ValidationFailure {D} message issues.

Definition validateAgentConfig (config : json) : ValidationResult AgentConfig.t :=
  match AgentConfigSchema config with
  | Some validatedData => ValidationSuccess validatedData
  | None => ValidationFailure "Validation failed" ObjectSchemaIssues
  end.

(** [AgentConfigSchema.parse(config)], the [ZodError] left to the caller. *)
Definition validateAgentConfigStrict (config : json) : outcome AgentConfig.t :=
  match AgentConfigSchema config with
  | Some validatedData => Returns validatedData
  | None => Throws "ZodError"
  end.

Definition validateWorkflowConfigStrict (isUrl : string → bool) (config : json)
    : outcome WorkflowConfig.t :=
  match WorkflowConfigSchema isUrl config with
  | inl validatedData => Returns validatedData
  | inr _ => Throws "ZodError"
  end.

Module PartialAgentConfig.
Record t : Type := mk {
  id : option string;
  name : option string;
  description : option string;
  provider : option AIProvider.t;
  model : option string;
  systemPrompt : option string;
  parameters : option ModelParameters.t;
  tools : option (list Tool.t);
  memory : option MemoryConfig.t;
  connections : option (list string);
  metadata : option (list (string * json))
}.
End PartialAgentConfig.

(** [AgentConfigSchema.partial()]: every property of the object becomes
    optional; a property that is there still has to pass its own schema. *)
Definition PartialAgentConfigSchema (v : json) : option PartialAgentConfig.t :=
  o ← z_object v;
  id ← z_optional z_string_min1 (field "id" o);
  name ← z_optional z_string_min1 (field "name" o);
  description ← z_optional z_string (field "description" o);
  provider ← z_optional (z_enum AIProvider.to_string AIProvider.all) (field "provider" o);
  model ← z_optional z_string_min1 (field "model" o);
  systemPrompt ← z_optional z_string (field "systemPrompt" o);
  parameters ← z_optional ModelParametersSchema (field "parameters" o);
  tools ← z_optional (z_array ToolSchema) (field "tools" o);
  memory ← z_optional MemoryConfigSchema (field "memory" o);
  connections ← z_optional (z_array z_string) (field "connections" o);
  metadata ← z_optional z_record (field "metadata" o);
  Some (PartialAgentConfig.mk id name description provider model systemPrompt
          parameters tools memory connections metadata).

Definition validatePartialAgentConfig (config : json)
    : ValidationResult PartialAgentConfig.t :=
  match PartialAgentConfigSchema config with
  | Some validatedData => ValidationSuccess validatedData
  | None => ValidationFailure "Validation failed" ObjectSchemaIssues
  end.

(** A complete agent configuration seen as a partial one. *)
Definition partialOf (a : AgentConfig.t) : PartialAgentConfig.t :=
  PartialAgentConfig.mk (Some (AgentConfig.id a)) (Some (AgentConfig.name a))
    (AgentConfig.description a) (Some (AgentConfig.provider a))
    (Some (AgentConfig.model a)) (AgentConfig.systemPrompt a)
    (AgentConfig.parameters a) (AgentConfig.tools a) (AgentConfig.memory a)
    (AgentConfig.connections a) (AgentConfig.metadata a).

(** The field constraints on the properties a partial configuration has. *)
Definition okPartialAgentConfig (p : PartialAgentConfig.t) : bool :=
  whenPresent nonEmpty (PartialAgentConfig.id p) &&
  whenPresent nonEmpty (PartialAgentConfig.name p) &&
  whenPresent nonEmpty (PartialAgentConfig.model p) &&
  whenPresent okModelParameters (PartialAgentConfig.parameters p) &&
  whenPresent (forallb okTool) (PartialAgentConfig.tools p) &&
  whenPresent okMemoryConfig (PartialAgentConfig.memory p) &&
  whenPresent withoutProto (PartialAgentConfig.metadata p).

(** The properties [WorkflowConfigSchema] declares. *)
Definition workflowConfigKeys : list string :=
  ["id"; "name"; "description"; "version"; "nodes"; "connections"; "trigger";
   "variables"; "tags"; "metadata"].

Definition danglingConnectionIssue : ValidationIssue :=
  mkIssue ["connections"] "All connections must reference existing nodes".

Definition unreferencedAgentIssue : ValidationIssue :=
  mkIssue ["nodes"] "Agent nodes must have either agentId or agent configuration".

(** The object without properties. *)
Definition emptyObject : json := JObj [].

(** A workflow whose one connection starts at an id no node has, and whose
    agent node has neither an agent id nor an inline agent. *)
Definition danglingWorkflow : WorkflowConfig.t :=
  graphOf [plainNode "a" NodeType.end_; plainNode "b" NodeType.agent]
    [edge "c1" "ghost" "a"].


(** The nodes [mapWorkflowToCrew] builds an agent and a task for: agent-kind
    nodes with an inline descriptor. *)
Definition hasInlineAgent (n : WorkflowNode.t) : bool :=
  NodeType.eqb (WorkflowNode.type n) NodeType.agent &&
  match WorkflowNode.agent n with
  | Some _ => true
  | None => false
  end.

Definition inlineAgentNodes (workflow : WorkflowConfig.t) : list WorkflowNode.t :=
  List.filter hasInlineAgent (WorkflowConfig.nodes workflow).

(** The ids a task context keeps: not empty, and the first node of that id is
    an agent-kind node. *)
Definition namesAgentNode (workflow : WorkflowConfig.t) (depId : string) : Prop :=
  depId ≠ EmptyString ∧
  ∃ n, List.find (fun n => String.eqb (WorkflowNode.id n) depId)
         (WorkflowConfig.nodes workflow) = Some n ∧
       WorkflowNode.type n = NodeType.agent.

(** The sources of the connections into [nodeId], in connection order. *)
Definition sourcesInto (workflow : WorkflowConfig.t) (nodeId : string)
    : list string :=
  map WorkflowConnection.sourceId (incomingConnections workflow nodeId).

(** The agent has at least one tool; the agent has a memory whose type is not
    [none]. *)
Definition hasTools (agent : AgentConfig.t) : Prop :=
  ∃ tool rest, AgentConfig.tools agent = Some (tool :: rest).

Definition remembers (agent : AgentConfig.t) : Prop :=
  ∃ m, AgentConfig.memory agent = Some m ∧ MemoryConfig.type m ≠ MemoryType.none.

(** The names the state description of the LangGraph mapping fixes itself,
    and the one name an assignment cannot create. *)
Definition reservedStateNames : list string := ["input"; "output"; "__proto__"].

(** A trigger in second place; two declared variables. *)
Definition lateTriggerWorkflow : WorkflowConfig.t :=
  graphOf [plainNode "work" NodeType.end_; plainNode "go" NodeType.trigger]
    [edge "c1" "go" "work"].

Definition topicVariable : WorkflowVariable.t :=
  WorkflowVariable.mk "topic" VariableType.string_ (Some (JStr "ai")) None None.

Definition depthVariable : WorkflowVariable.t :=
  WorkflowVariable.mk "depth" VariableType.number None None None.

Definition declaredVariablesWorkflow : WorkflowConfig.t :=
  WorkflowConfig.mk "wf" "wf" None None [plainNode "a" NodeType.end_] [] None
    (Some [topicVariable; depthVariable]) None None.

(** An agent with a buffer memory and no tools. *)
Definition memoryAgent : AgentConfig.t :=
  AgentConfig.mk "a1" "Assistant" None AIProvider.openai "gpt-4" None None None
    (Some (MemoryConfig.mk MemoryType.buffer None None)) None None.

(** The inline descriptor of an agent-kind node goes by the id of its node,
    or by a name that contains it. *)
Definition inlineAgentsFollowNodeIds (workflow : WorkflowConfig.t) : Prop :=
  ∀ node agent, In node (WorkflowConfig.nodes workflow) →
    WorkflowNode.type node = NodeType.agent →
    WorkflowNode.agent node = Some agent →
    AgentConfig.id agent = WorkflowNode.id node ∨
    includes (agentTitle agent) (WorkflowNode.id node) = true.

(** The test behind [avoidsPrototype]. *)
Definition avoidsPrototypeb (nodes : list N8nNode.t) : bool :=
  forallb (fun n => negb (existsb (String.eqb (N8nNode.name n)) JsObject.prototypeKeys))
    nodes.

(** Some connection resolves on both ends, with a source node named like a
    property of [Object.prototype]. *)
Definition resolvesToPrototypeName (nodes : list N8nNode.t)
    (conns : list WorkflowConnection.t) : Prop :=
  ∃ c fromName toName,
    In c conns ∧ resolvedEndpoints nodes c = Some (fromName, toName) ∧
    In fromName JsObject.prototypeKeys.

(** ** n8n adapter: the layout ([calculateNodePositions]) *)

(** The adjacency [Map<string, string[]>] of the layout: one array per node
    id, then [graph.get(from)?.push(to)]. Unlike the [Set]s of the graph
    analyses, an array keeps a target once per connection. *)
Definition layoutGraph (nodeIds : list string) (connections : list (string * string))
    : JsMap.t (list string) :=
  let graph := fold_left (fun g id => JsMap.set id [] g) nodeIds JsMap.empty in
  fold_left
    (fun g conn =>
       match JsMap.get (fst conn) g with
       | Some targets => JsMap.set (fst conn) (targets ++ [snd conn]) g
       | None => g
       end)
    connections graph.

Definition layoutInDegree (nodeIds : list string) (connections : list (string * string))
    : JsMap.t Z :=
  let inDegree := fold_left (fun d id => JsMap.set id 0%Z d) nodeIds JsMap.empty in
  fold_left
    (fun d conn =>
       JsMap.set (snd conn) (default 0%Z (JsMap.get (snd conn) d) + 1)%Z d)
    connections inDegree.

(** The starting nodes, one queue entry per occurrence of the id:
    [inDegree.get(id) === 0]. *)
Definition isLayoutRoot (inDegree : JsMap.t Z) (id : string) : bool :=
  match JsMap.get id inDegree with
  | Some d => (d =? 0)%Z
  | None => false
  end.

Definition layoutRoots (nodeIds : list string) (inDegree : JsMap.t Z)
    : list (string * nat) :=
  map (fun id => (id, 0)) (List.filter (isLayoutRoot inDegree) nodeIds).

(** [graph.get(id) || []]. *)
Definition layoutNeighbors (graph : JsMap.t (list string)) (id : string)
    : list string :=
  default [] (JsMap.get id graph).

(** The breadth-first loop [while (queue.length > 0)]: [levels] is the
    [Map<number, string[]>], [visited] the [Set]. *)
Fixpoint assignLevels (fuel : nat) (graph : JsMap.t (list string))
    (queue : list (string * nat)) (levels : gmap nat (list string))
    (visited : gset string) : option (gmap nat (list string)) :=
  match queue with
  | [] => Some levels
  | (id, level) :: rest =>
      match fuel with
      | O => None
      | S fuel' =>
          if bool_decide (id ∈ visited) then
            assignLevels fuel' graph rest levels visited
          else
            let visited' := {[id]} ∪ visited in
            let levels' :=
              <[level := default [] (levels !! level) ++ [id]]> levels in
            let pushed :=
              List.filter (fun neighbor => negb (bool_decide (neighbor ∈ visited')))
                (layoutNeighbors graph id) in
            assignLevels fuel' graph
              (rest ++ map (fun neighbor => (neighbor, S level)) pushed)
              levels' visited'
      end
  end.

(** The double holding the integer [n], as [currentLevel++] computes it from
    0: [n] additions of 1. It is exact below 2^53, so it is also the number
    [forEach] passes for the array index [n]. *)
Definition numberOfNat (n : nat) : float :=
  Nat.iter n (fun x => (x + 1)%float) 0%float.

(** The cell of the grid at column [level] and row [index]:
    [[startPosition[0] + currentLevel * spacing,
      startPosition[1] + index * 100]], in the binary64 arithmetic of the
    source. *)
Definition layoutCell (startPosition : float * float) (spacing : float)
    (level index : nat) : float * float :=
  ((fst startPosition + numberOfNat level * spacing)%float,
   (snd startPosition + numberOfNat index * 100)%float).

(** [nodesInLevel.forEach((nodeId, index) => positions[nodeId] = ...)], from
    row [index] on. *)
Fixpoint placeLevel (startPosition : float * float) (spacing : float) (level index : nat)
    (nodesInLevel : list string) (positions : gmap string (float * float))
    : gmap string (float * float) :=
  match nodesInLevel with
  | [] => positions
  | nodeId :: rest =>
      placeLevel startPosition spacing level (S index) rest
        (JsObject.assign nodeId (layoutCell startPosition spacing level index)
           positions)
  end.

(** [while (levels.has(currentLevel))]. *)
Fixpoint placeLevels (fuel : nat) (startPosition : float * float) (spacing : float)
    (levels : gmap nat (list string)) (currentLevel : nat)
    (positions : gmap string (float * float)) : option (gmap string (float * float)) :=
  match levels !! currentLevel with
  | None => Some positions
  | Some nodesInLevel =>
      match fuel with
      | O => None
      | S fuel' =>
          placeLevels fuel' startPosition spacing levels (S currentLevel)
            (placeLevel startPosition spacing currentLevel 0 nodesInLevel positions)
      end
  end.

(** Every queue entry but the starting ones is pushed for a connection that
    leaves a node visited for the first time, so the loop tests its queue at
    most [nodeIds.length + connections.length] times with an entry in it. *)
Definition layoutFuel (nodeIds : list string) (connections : list (string * string))
    : nat :=
  S (List.length nodeIds + List.length connections).

Definition assignLevels_run (nodeIds : list string)
    (connections : list (string * string)) : option (gmap nat (list string)) :=
  let graph := layoutGraph nodeIds connections in
  let inDegree := layoutInDegree nodeIds connections in
  assignLevels (layoutFuel nodeIds connections) graph
    (layoutRoots nodeIds inDegree) ∅ ∅.

(** The map [levels] when the breadth-first loop is left; the bound is never
    exhausted ([assignLevels_run_total]). *)
Definition layoutLevels (nodeIds : list string)
    (connections : list (string * string)) : gmap nat (list string) :=
  default ∅ (assignLevels_run nodeIds connections).

Definition calculateNodePositions_run (nodeIds : list string)
    (connections : list (string * string)) (startPosition : float * float) (spacing : float)
    : option (gmap string (float * float)) :=
  let levels := layoutLevels nodeIds connections in
  placeLevels (S (size levels)) startPosition spacing levels 0 ∅.

(** The own properties of the record [calculateNodePositions] returns; the
    bound of the second loop is never exhausted either
    ([calculateNodePositions_run_total]). *)
Definition calculateNodePositions (nodeIds : list string)
    (connections : list (string * string)) (startPosition : float * float) (spacing : float)
    : gmap string (float * float) :=
  default ∅ (calculateNodePositions_run nodeIds connections startPosition spacing).

(** The call of [mapWorkflowToN8n]. *)
Definition layoutConnections (workflow : WorkflowConfig.t) : list (string * string) :=
  map (fun c => (WorkflowConnection.sourceId c, WorkflowConnection.targetId c))
    (WorkflowConfig.connections workflow).

Definition workflowNodePositions (workflow : WorkflowConfig.t)
    (startPosition : float * float) (nodeSpacing : float) : gmap string (float * float) :=
  calculateNodePositions (workflowNodeIds workflow) (layoutConnections workflow)
    startPosition nodeSpacing.

(** *** Vocabulary of the layout *)

(** [id] is the [index]-th entry of the array [levels.get(level)]. *)
Definition inCell (levels : gmap nat (list string)) (id : string)
    (level index : nat) : Prop :=
  ∃ row, levels !! level = Some row ∧ row !! index = Some id.

(** The edges the adjacency map of the layout holds: the connections that
    leave a node id. *)
Definition layoutEdge (nodeIds : list string) (connections : list (string * string))
    (u v : string) : Prop :=
  JsSet.has u nodeIds = true ∧ In (u, v) connections.

(** A starting node: a node id no connection leads to. *)
Definition layoutStart (nodeIds : list string) (connections : list (string * string))
    (r : string) : Prop :=
  In r nodeIds ∧ ¬ In r (map snd connections).

(** [v] is [n] edges away from a starting node. *)
Definition reachedIn (nodeIds : list string) (connections : list (string * string))
    (n : nat) (v : string) : Prop :=
  ∃ r, layoutStart nodeIds connections r ∧
       nsteps (layoutEdge nodeIds connections) n r v.

(** What holds of the queue, the map [levels] and the set [visited] each time
    the breadth-first loop tests its queue. *)
Record bfsInv (graph : JsMap.t (list string)) (roots : list string)
    (queue : list (string * nat)) (levels : gmap nat (list string))
    (visited : gset string) : Prop := {
  bfs_cells : ∀ v, v ∈ visited ↔ ∃ L i, inCell levels v L i;
  bfs_unique : ∀ v L i L' i',
    inCell levels v L i → inCell levels v L' i' → L = L' ∧ i = i';
  bfs_queue_parent : ∀ v L, In (v, S L) queue →
    ∃ u j, inCell levels u L j ∧ In v (layoutNeighbors graph u);
  bfs_queue_root : ∀ v, In (v, 0) queue → In v roots;
  bfs_cell_parent : ∀ v L i, inCell levels v (S L) i →
    ∃ u j, inCell levels u L j ∧ In v (layoutNeighbors graph u);
  bfs_cell_root : ∀ v i, inCell levels v 0 i → In v roots;
  bfs_closed : ∀ u v, u ∈ visited → In v (layoutNeighbors graph u) →
    v ∈ visited ∨ In v (map fst queue);
  bfs_roots : ∀ r, In r roots → r ∈ visited ∨ In r (map fst queue)
}.

(** The queue holds the entries of level [l] before those of level [l + 1]
    and no others, no node lies beyond level [l], and a neighbour of a node of
    level [L] lies, or is queued, at level [L + 1] at most. *)
Record bfsOrder (graph : JsMap.t (list string)) (l : nat)
    (queue : list (string * nat)) (levels : gmap nat (list string)) : Prop := {
  ord_split : ∃ q1 q2, queue = q1 ++ q2 ∧
    Forall (fun e => snd e = l) q1 ∧ Forall (fun e => snd e = S l) q2;
  ord_cells : ∀ v L i, inCell levels v L i → L ≤ l;
  ord_edge : ∀ u L j v, inCell levels u L j → In v (layoutNeighbors graph u) →
    (∃ L' i, inCell levels v L' i ∧ L' ≤ S L) ∨
    (∃ L', In (v, L') queue ∧ L' ≤ S L)
}.

(** The connections still to be walked: those that leave an unvisited id. *)
Definition pendingConnections (connections : list (string * string))
    (visited : gset string) : list (string * string) :=
  List.filter (fun c => negb (bool_decide (fst c ∈ visited))) connections.

(** * Properties *)

(** ** The graph analyses always return

    The bounds [dfsFuel] and [kahnFuel] are never exhausted, so
    [detectWorkflowCycles] and [getWorkflowTopologicalOrder] are the results
    of the two runs. *)

Lemma size_list_to_set_le (l : list string) :
  size (list_to_set l : gset string) ≤ List.length l.
Proof.
  induction l as [|x l IH].
  - rewrite list_to_set_nil, size_empty. simpl. lia.
  - rewrite list_to_set_cons, size_union_alt, size_singleton. simpl.
    pose proof (subseteq_size (list_to_set l ∖ {[x]}) (list_to_set l : gset string)
                  ltac:(set_solver)).
    lia.
Qed.

Lemma JsMap_get_In {V} k (m : JsMap.t V) v :
  JsMap.get k m = Some v → In (k, v) m.
Proof.
  induction m as [|[k' v'] m IH]; simpl; [done|].
  destruct (String.eqb_spec k k') as [->|]; intros H.
  - left. congruence.
  - right. auto.
Qed.

Lemma neighborsOf_universe graph nodeId x :
  In x (neighborsOf graph nodeId) → x ∈ graphUniverse graph.
Proof.
  unfold neighborsOf, graphUniverse.
  destruct (JsMap.get nodeId graph) as [s|] eqn:E; [|done].
  intros Hx. apply JsMap_get_In in E.
  apply elem_of_list_to_set, list_elem_of_In, in_flat_map.
  exists (nodeId, s). split; [done|]. by right.
Qed.

Lemma keys_universe graph k :
  In k (JsMap.keys graph) → k ∈ graphUniverse graph.
Proof.
  unfold JsMap.keys, graphUniverse. intros Hk.
  apply in_map_iff in Hk as ([k' s] & <- & Hin).
  apply elem_of_list_to_set, list_elem_of_In, in_flat_map.
  exists (k', s). split; [done|]. by left.
Qed.

Section DfsTotal.
Variable graph : JsMap.t JsSet.t.
Let U := graphUniverse graph.

Lemma visitNeighbors_total fuel recur nodeId neighbors :
  dfs_ok U fuel recur →
  (∀ x, In x neighbors → x ∈ U) →
  ∀ st, size (U ∖ visited st) ≤ fuel →
    ∃ b st', visitNeighbors recur nodeId neighbors st = Some (b, st')
             ∧ visited st ⊆ visited st'.
Proof.
  intros Hrec. induction neighbors as [|n rest IH]; intros HU st Hsz; simpl.
  - eexists _, _. split; [done|]. done.
  - case_bool_decide as Hv; simpl.
    + case_bool_decide.
      * eexists _, _. split; [done|]. done.
      * apply IH; [|done]. intros x Hx. apply HU. by right.
    + destruct (Hrec n st) as (b & st' & -> & Hsub); [apply HU; by left|done|done|].
      destruct b.
      * eexists _, _. split; [done|]. done.
      * destruct (IH (fun x Hx => HU x (or_intror Hx)) st') as (b' & st'' & -> & Hsub').
        { etrans; [|exact Hsz]. apply subseteq_size. set_solver. }
        eexists _, _. split; [done|]. set_solver.
Qed.

Lemma hasCycle_total fuel : dfs_ok U fuel (hasCycle fuel graph).
Proof.
  induction fuel as [|fuel IH]; intros n st Hn Hv Hsz.
  - exfalso.
    assert (size (U ∖ visited st) ≠ 0); [|lia].
    apply size_non_empty_iff. set_solver.
  - simpl.
    destruct (visitNeighbors_total fuel (hasCycle fuel graph) n
                (neighborsOf graph n) IH
                (fun x Hx => neighborsOf_universe graph n x Hx)
                (mkDfs ({[n]} ∪ visited st) ({[n]} ∪ recursionStack st)))
      as (b & st' & -> & Hsub).
    + simpl.
      assert (U ∖ visited st = {[n]} ∪ U ∖ ({[n]} ∪ visited st)) as Heq.
      { apply set_eq. intros x. destruct (decide (x = n)); set_solver. }
      rewrite Heq, size_union, size_singleton in Hsz by set_solver. lia.
    + eexists _, _. split; [done|]. simpl in Hsub. set_solver.
Qed.

Lemma detectLoop_total fuel keys st :
  size U ≤ fuel → (∀ k, In k keys → k ∈ U) →
  is_Some (detectLoop fuel graph keys st).
Proof.
  intros Hfuel. revert st. induction keys as [|k rest IH]; intros st HU; simpl.
  - done.
  - case_bool_decide as Hv; simpl.
    + apply IH. intros x Hx. apply HU. by right.
    + destruct (hasCycle_total fuel k st) as (b & st' & -> & _).
      * apply HU. by left.
      * done.
      * etrans; [|exact Hfuel]. apply subseteq_size. set_solver.
      * destruct b; [done|]. apply IH. intros x Hx. apply HU. by right.
Qed.
End DfsTotal.

Lemma graphWeight_set_new k v (g : JsMap.t JsSet.t) :
  JsMap.get k g = None →
  graphWeight (JsMap.set k v g) = graphWeight g + 1 + List.length v.
Proof.
  unfold graphWeight.
  induction g as [|[k' v'] g IH]; simpl; intros H.
  - rewrite length_app. simpl. lia.
  - destruct (String.eqb k k'); [done|]. simpl.
    rewrite !length_app in *. specialize (IH H). lia.
Qed.

Lemma graphWeight_set_old k v s (g : JsMap.t JsSet.t) :
  JsMap.get k g = Some s →
  graphWeight (JsMap.set k v g) + List.length s = graphWeight g + List.length v.
Proof.
  unfold graphWeight.
  induction g as [|[k' v'] g IH]; simpl; intros H; [done|].
  destruct (String.eqb k k'); simpl; rewrite !length_app in *.
  - injection H as ->. lia.
  - specialize (IH H). lia.
Qed.

Lemma JsSet_add_length x s : List.length (JsSet.add x s) ≤ S (List.length s).
Proof.
  unfold JsSet.add. destruct (JsSet.has x s); [lia|].
  rewrite length_app. simpl. lia.
Qed.

Lemma buildGraph_weight workflow :
  graphWeight (buildGraph workflow)
  ≤ List.length (WorkflowConfig.nodes workflow)
    + List.length (WorkflowConfig.connections workflow).
Proof.
  unfold buildGraph.
  generalize (WorkflowConfig.connections workflow) as conns.
  assert (∀ nodes g,
    graphWeight (fold_left
      (fun g node => JsMap.set (WorkflowNode.id node) JsSet.empty g) nodes g)
    ≤ graphWeight g + List.length nodes) as Hnodes.
  { induction nodes as [|n nodes IH]; intros g; simpl; [lia|].
    etrans; [apply IH|].
    destruct (JsMap.get (WorkflowNode.id n) g) as [s|] eqn:E.
    - pose proof (graphWeight_set_old _ JsSet.empty _ _ E). simpl in *. lia.
    - rewrite (graphWeight_set_new _ _ _ E). simpl. lia. }
  specialize (Hnodes (WorkflowConfig.nodes workflow) JsMap.empty).
  revert Hnodes.
  generalize (fold_left
      (fun g node => JsMap.set (WorkflowNode.id node) JsSet.empty g)
      (WorkflowConfig.nodes workflow) JsMap.empty) as g.
  change (graphWeight JsMap.empty) with 0.
  generalize (List.length (WorkflowConfig.nodes workflow)) as n.
  intros n g Hg conns. revert g n Hg.
  induction conns as [|c conns IH]; intros g n Hg; simpl; [lia|].
  destruct (JsMap.get (WorkflowConnection.sourceId c) g) as [s|] eqn:E.
  - specialize (IH (JsMap.set (WorkflowConnection.sourceId c)
                      (JsSet.add (WorkflowConnection.targetId c) s) g) (S n)).
    etrans; [apply IH|lia].
    pose proof (graphWeight_set_old _
                  (JsSet.add (WorkflowConnection.targetId c) s) _ _ E).
    pose proof (JsSet_add_length (WorkflowConnection.targetId c) s). lia.
  - specialize (IH g n Hg). lia.
Qed.

Lemma detectWorkflowCycles_run_total workflow :
  is_Some (detectWorkflowCycles_run workflow).
Proof.
  unfold detectWorkflowCycles_run.
  apply detectLoop_total.
  - etrans; [apply size_list_to_set_le|].
    pose proof (buildGraph_weight workflow).
    unfold graphWeight in *. unfold dfsFuel. lia.
  - apply keys_universe.
Qed.

Lemma degreeSum_set_new k v (m : JsMap.t Z) :
  JsMap.get k m = None →
  degreeSum (JsMap.set k v m) = degreeSum m + Z.to_nat v
  ∧ List.length (JsMap.set k v m) = S (List.length m).
Proof.
  unfold degreeSum.
  induction m as [|[k' v'] m IH]; simpl; intros H.
  - lia.
  - destruct (String.eqb k k'); [done|]. simpl.
    destruct (IH H) as [-> ->]. lia.
Qed.

Lemma degreeSum_set_old k v d (m : JsMap.t Z) :
  JsMap.get k m = Some d →
  degreeSum (JsMap.set k v m) + Z.to_nat d = degreeSum m + Z.to_nat v
  ∧ List.length (JsMap.set k v m) = List.length m.
Proof.
  unfold degreeSum.
  induction m as [|[k' v'] m IH]; simpl; intros H; [done|].
  destruct (String.eqb k k'); simpl.
  - injection H as ->. lia.
  - destruct (IH H) as [? ->]. lia.
Qed.

Lemma relax_measure inDegree queue neighbor :
  let '(inDegree', queue') := relax (inDegree, queue) neighbor in
  List.length queue' + degreeSum inDegree' ≤ List.length queue + degreeSum inDegree.
Proof.
  unfold relax.
  destruct (JsMap.get neighbor inDegree) as [d|] eqn:E; simpl.
  - destruct (degreeSum_set_old neighbor (d - 1)%Z d inDegree E) as [Hs _].
    destruct (Z.eqb_spec (d - 1) 0).
    + rewrite length_app. simpl. lia.
    + lia.
  - destruct (degreeSum_set_new neighbor (0 - 1)%Z inDegree E) as [Hs _].
    simpl in *. lia.
Qed.

Lemma fold_relax_measure neighbors inDegree queue :
  let '(inDegree', queue') := fold_left relax neighbors (inDegree, queue) in
  List.length queue' + degreeSum inDegree' ≤ List.length queue + degreeSum inDegree.
Proof.
  revert inDegree queue.
  induction neighbors as [|n rest IH]; intros inDegree queue; [simpl; lia|].
  change (fold_left relax (n :: rest) (inDegree, queue))
    with (fold_left relax rest (relax (inDegree, queue) n)).
  pose proof (relax_measure inDegree queue n) as H1.
  destruct (relax (inDegree, queue) n) as [d1 q1].
  specialize (IH d1 q1).
  destruct (fold_left relax rest (d1, q1)) as [d2 q2]. cbv beta iota in *. lia.
Qed.

Lemma kahnLoop_total graph fuel :
  ∀ inDegree queue result,
    List.length queue + degreeSum inDegree ≤ fuel →
    is_Some (kahnLoop fuel graph inDegree queue result).
Proof.
  induction fuel as [|fuel IH]; intros inDegree queue result Hm.
  - destruct queue; simpl in *; [done|lia].
  - destruct queue as [|nodeId queue]; simpl; [done|].
    pose proof (fold_relax_measure (neighborsOf graph nodeId) inDegree queue) as H.
    destruct (fold_left relax (neighborsOf graph nodeId) (inDegree, queue))
      as [d q].
    apply IH. simpl in Hm. lia.
Qed.

Lemma initInDegree_measure workflow :
  List.length (initInDegree workflow) + degreeSum (initInDegree workflow)
  ≤ List.length (WorkflowConfig.nodes workflow)
    + 2 * List.length (WorkflowConfig.connections workflow).
Proof.
  unfold initInDegree.
  assert (∀ nodes d,
    let d' := fold_left (fun d node => JsMap.set (WorkflowNode.id node) 0%Z d)
                nodes d in
    List.length d' + degreeSum d'
    ≤ List.length d + degreeSum d + List.length nodes) as Hnodes.
  { induction nodes as [|n nodes IH]; intros d; simpl; [lia|].
    etrans; [apply IH|].
    destruct (JsMap.get (WorkflowNode.id n) d) as [x|] eqn:E.
    - destruct (degreeSum_set_old _ 0%Z _ _ E). simpl in *. lia.
    - destruct (degreeSum_set_new _ 0%Z _ E). simpl in *. lia. }
  specialize (Hnodes (WorkflowConfig.nodes workflow) JsMap.empty).
  simpl in Hnodes. revert Hnodes.
  generalize (fold_left (fun d node => JsMap.set (WorkflowNode.id node) 0%Z d)
                (WorkflowConfig.nodes workflow) JsMap.empty) as d.
  change (degreeSum JsMap.empty) with 0.
  generalize (List.length (WorkflowConfig.nodes workflow)) as n.
  generalize (WorkflowConfig.connections workflow) as conns.
  induction conns as [|c conns IH]; intros n d Hd; simpl in *; [lia|].
  etrans; [apply (IH (2 + n))|lia].
  destruct (JsMap.get (WorkflowConnection.targetId c) d) as [x|] eqn:E; simpl.
  - destruct (degreeSum_set_old _ (x + 1)%Z _ _ E). lia.
  - destruct (degreeSum_set_new _ (0 + 1)%Z _ E). simpl in *. lia.
Qed.

Lemma getWorkflowTopologicalOrder_run_total workflow :
  is_Some (getWorkflowTopologicalOrder_run workflow).
Proof.
  unfold getWorkflowTopologicalOrder_run.
  destruct (detectWorkflowCycles_run_total workflow) as [b ->].
  destruct b; [done|].
  match goal with
  | |- context [kahnLoop ?f ?g ?d ?q ?r] =>
      destruct (kahnLoop_total g f d q r) as [res ->]; [|done]
  end.
  pose proof (initInDegree_measure workflow).
  rewrite length_map.
  pose proof (filter_length_le (fun kv : string * Z => (snd kv =? 0)%Z) (initInDegree workflow)).
  unfold kahnFuel. lia.
Qed.


(** ** The schemas

    Each schema returns only values that meet its constraints ([sound]), and
    parses the [unknown] view of such a value back to the value ([retract]). *)

(** *** Reading the properties of an encoded object *)

Lemma assocOpt_absent k props :
  existsb (String.eqb k) (map fst props) = false → assocOpt k props = None.
Proof.
  induction props as [|[k' o] r IH]; simpl; [done|].
  destruct (String.eqb k k'); simpl; [done|]. apply IH.
Qed.

Lemma field_present k props :
  distinct (map fst props) = true → field k (present props) = assocOpt k props.
Proof.
  induction props as [|[k' o] r IH]; simpl; [done|].
  intros [Hk Hr]%andb_true_iff. apply negb_true_iff in Hk.
  specialize (IH Hr).
  destruct o as [v|]; simpl.
  - destruct (String.eqb k k'); [done|]. apply IH.
  - destruct (String.eqb_spec k k') as [->|]; [|apply IH].
    rewrite IH. by apply assocOpt_absent.
Qed.

Lemma field_app k l1 l2 :
  field k (l1 ++ l2) = match field k l1 with
                       | Some v => Some v
                       | None => field k l2
                       end.
Proof.
  induction l1 as [|[k' v] l1 IH]; simpl; [done|].
  destruct (String.eqb k k'); [done|]. apply IH.
Qed.

Lemma field_undeclared keys k extra :
  forallb (fun kv => negb (isDeclared keys kv)) extra = true →
  In k keys → field k extra = None.
Proof.
  intros Hex Hk. induction extra as [|[k' v] extra IH]; simpl in *; [done|].
  apply andb_true_iff in Hex as [Hd Hex].
  destruct (String.eqb_spec k k') as [<-|]; [|by apply IH].
  exfalso. apply negb_true_iff in Hd. unfold isDeclared in Hd. simpl in Hd.
  assert (existsb (String.eqb k) keys = true); [|congruence].
  apply existsb_exists. exists k. split; [done|]. apply String.eqb_refl.
Qed.

(** *** Soundness and retraction of the schema combinators *)

Lemma z_required_sound {A} (p : json → option A) P o a :
  sound p P → z_required p o = Some a → P a = true.
Proof. intros Hp. destruct o as [v|]; simpl; [apply Hp|done]. Qed.

Lemma z_optional_sound {A} (p : json → option A) P o a :
  sound p P → z_optional p o = Some a → whenPresent P a = true.
Proof.
  intros Hp. destruct o as [v|]; simpl.
  - destruct (p v) as [x|] eqn:E; simpl; [|done]. intros [= <-]. simpl. eapply Hp, E.
  - by intros [= <-].
Qed.

Lemma z_array_sound {A} (p : json → option A) P :
  sound p P → sound (z_array p) (forallb P).
Proof.
  intros Hp v l. destruct v; simpl; try done.
  revert l. induction items as [|x items IH]; intros l; simpl.
  - by intros [= <-].
  - intros H. apply bind_Some in H as (a & Ha & H).
    apply bind_Some in H as (l' & Hl' & [= <-]). simpl.
    rewrite (Hp _ _ Ha). simpl. by apply IH.
Qed.

Lemma z_required_retract {A} (p : json → option A) e P a :
  retract p e P → P a = true → z_required p (Some (e a)) = Some a.
Proof. intros Hp HP. simpl. by apply Hp. Qed.

Lemma z_optional_retract {A} (p : json → option A) e P o :
  retract p e P → whenPresent P o = true → z_optional p (e <$> o) = Some o.
Proof.
  intros Hp HP. destruct o as [a|]; simpl; [|done]. simpl in HP.
  by rewrite (Hp a HP).
Qed.

Lemma z_array_retract {A} (p : json → option A) e P :
  retract p e P → retract (z_array p) (fun l => JArr (map e l)) (forallb P).
Proof.
  intros Hp l. simpl. induction l as [|a l IH]; simpl; [done|].
  intros [Ha Hl]%andb_true_iff. rewrite (Hp a Ha). simpl. by rewrite (IH Hl).
Qed.

Lemma z_string_retract : retract z_string JStr anything.
Proof. done. Qed.

Lemma z_string_min1_sound : sound z_string_min1 nonEmpty.
Proof.
  intros v s. unfold z_string_min1. destruct v; simpl; try done.
  destruct (nonEmpty s0) eqn:E; [|done]. by intros [= <-].
Qed.

Lemma z_string_min1_retract : retract z_string_min1 JStr nonEmpty.
Proof. intros s H. unfold z_string_min1. simpl. by rewrite H. Qed.

Lemma z_boolean_retract : retract z_boolean JBool anything.
Proof. done. Qed.

Lemma z_number_retract : retract z_number JNum anything.
Proof. done. Qed.

Lemma z_object_retract : retract z_object JObj anything.
Proof. done. Qed.

Lemma z_record_sound : sound z_record withoutProto.
Proof.
  intros v fields. destruct v; simpl; try done. intros [= <-].
  apply forallb_forall. intros kv Hin. by apply List.filter_In in Hin as [_ ?].
Qed.

Lemma z_record_retract : retract z_record JObj withoutProto.
Proof.
  intros fields H. simpl. f_equal. by apply forallb_filter_id.
Qed.

Lemma z_unknown_retract : retract z_unknown (fun v => v) anything.
Proof. done. Qed.

Lemma z_strings_retract : retract (z_array z_string) unknownOfStrings anything.
Proof.
  intros l _. apply (z_array_retract z_string JStr anything z_string_retract).
  by induction l.
Qed.

Lemma z_positive_int_sound :
  sound z_positive_int (fun q => is_int q && is_positive q).
Proof.
  intros v q. unfold z_positive_int. destruct v; simpl; try done.
  destruct (is_int q0 && is_positive q0) eqn:E; [|done]. by intros [= <-].
Qed.

Lemma z_positive_int_retract :
  retract z_positive_int JNum (fun q => is_int q && is_positive q).
Proof. intros q H. unfold z_positive_int. simpl. by rewrite H. Qed.

Lemma z_number_range_sound lo hi : sound (z_number_range lo hi) (in_range lo hi).
Proof.
  intros v q. unfold z_number_range. destruct v; simpl; try done.
  destruct (in_range lo hi q0) eqn:E; [|done]. by intros [= <-].
Qed.

Lemma z_number_range_retract lo hi :
  retract (z_number_range lo hi) JNum (in_range lo hi).
Proof. intros q H. unfold z_number_range. simpl. by rewrite H. Qed.

Lemma z_enum_retract {A} (to_string : A → string) (all : list A) :
  (∀ a, List.find (fun b => String.eqb (to_string b) (to_string a)) all = Some a) →
  retract (z_enum to_string all) (fun a => JStr (to_string a)) anything.
Proof. intros H a _. simpl. apply H. Qed.

Lemma MemoryType_retract :
  retract (z_enum MemoryType.to_string MemoryType.all)
    (fun a => JStr (MemoryType.to_string a)) anything.
Proof. apply z_enum_retract. by intros []. Qed.

Lemma AIProvider_retract :
  retract (z_enum AIProvider.to_string AIProvider.all)
    (fun a => JStr (AIProvider.to_string a)) anything.
Proof. apply z_enum_retract. by intros []. Qed.

Lemma NodeType_retract :
  retract (z_enum NodeType.to_string NodeType.all)
    (fun a => JStr (NodeType.to_string a)) anything.
Proof. apply z_enum_retract. by intros []. Qed.

Lemma TriggerType_retract :
  retract (z_enum TriggerType.to_string TriggerType.all)
    (fun a => JStr (TriggerType.to_string a)) anything.
Proof. apply z_enum_retract. by intros []. Qed.

Lemma VariableType_retract :
  retract (z_enum VariableType.to_string VariableType.all)
    (fun a => JStr (VariableType.to_string a)) anything.
Proof. apply z_enum_retract. by intros []. Qed.

Lemma whenPresent_anything {A} (o : option A) : whenPresent anything o = true.
Proof. by destruct o. Qed.

Lemma z_optional_unknown o : z_optional z_unknown o = Some o.
Proof. by destruct o. Qed.

(** Peel the binds of a successful parse. *)
Ltac peel H :=
  repeat (apply bind_Some in H as (? & ? & H));
  injection H as <-.

(** A parsed field meets the guarantee of its schema. *)
Ltac field_sound R :=
  repeat match goal with
  | H : z_required _ _ = Some _ |- _ => apply (z_required_sound _ _ _ _ R) in H
  | H : z_optional _ _ = Some _ |- _ => apply (z_optional_sound _ _ _ _ R) in H
  end.

Ltac split_ok :=
  repeat match goal with
  | H : _ && _ = true |- _ => apply andb_true_iff in H as [? ?]
  end.

Ltac join_ok :=
  repeat (apply andb_true_iff; split); try assumption; try reflexivity.

(** Open an encoded object and read its properties. *)
Ltac read_fields :=
  repeat match goal with
  | |- context [assocOpt ?k ?props] =>
      let r := eval cbv [assocOpt String.eqb Ascii.eqb Bool.eqb] in (assocOpt k props) in
      change (assocOpt k props) with r
  end.

Ltac open_object :=
  cbn [z_object mbind option_bind];
  rewrite ?field_present by reflexivity;
  read_fields.

(** One bind of a parse of an encoded value: the field parses to itself. *)
Ltac field_retract R :=
  first [ apply (z_required_retract _ _ _ _ R)
        | apply (z_optional_retract _ _ _ _ R) ];
  first [ assumption | reflexivity | apply whenPresent_anything ].

Ltac step R :=
  apply bind_Some; eexists; split; [field_retract R|]; cbv beta.

Lemma MemoryConfigSchema_sound : sound MemoryConfigSchema okMemoryConfig.
Proof.
  intros v m H. unfold MemoryConfigSchema in H. peel H.
  field_sound z_positive_int_sound. done.
Qed.

Lemma MemoryConfigSchema_retract :
  retract MemoryConfigSchema unknownOfMemoryConfig okMemoryConfig.
Proof.
  intros m H. unfold okMemoryConfig in H.
  unfold MemoryConfigSchema, unknownOfMemoryConfig. open_object.
  step MemoryType_retract. step z_positive_int_retract. step z_boolean_retract.
  by destruct m.
Qed.

Lemma ToolSchema_sound : sound ToolSchema okTool.
Proof.
  intros v t H. unfold ToolSchema in H. peel H.
  field_sound z_string_min1_sound. field_sound z_record_sound.
  unfold okTool. simpl. join_ok.
Qed.

Lemma ToolSchema_retract : retract ToolSchema unknownOfTool okTool.
Proof.
  intros t H. unfold okTool in H. split_ok.
  unfold ToolSchema, unknownOfTool. open_object.
  step z_string_min1_retract. step z_string_min1_retract. step z_string_retract.
  step z_record_retract. step z_boolean_retract. by destruct t.
Qed.

Lemma ModelParametersSchema_sound : sound ModelParametersSchema okModelParameters.
Proof.
  intros v p H. unfold ModelParametersSchema in H. peel H.
  field_sound z_positive_int_sound.
  field_sound (z_number_range_sound 0 2).
  field_sound (z_number_range_sound 0 1).
  field_sound (z_number_range_sound (-2) 2).
  unfold okModelParameters. simpl. join_ok.
Qed.

Lemma ModelParametersSchema_retract :
  retract ModelParametersSchema unknownOfModelParameters okModelParameters.
Proof.
  intros p H. unfold okModelParameters in H. split_ok.
  unfold ModelParametersSchema, unknownOfModelParameters. open_object.
  step (z_number_range_retract 0 2). step z_positive_int_retract.
  step (z_number_range_retract 0 1). step (z_number_range_retract (-2) 2).
  step (z_number_range_retract (-2) 2). step z_strings_retract. by destruct p.
Qed.

Lemma AgentConfigSchema_sound : sound AgentConfigSchema okAgentConfig.
Proof.
  intros v a H. unfold AgentConfigSchema in H. peel H.
  field_sound z_string_min1_sound.
  field_sound ModelParametersSchema_sound.
  field_sound (z_array_sound _ _ ToolSchema_sound).
  field_sound MemoryConfigSchema_sound.
  field_sound z_record_sound.
  unfold okAgentConfig. simpl. join_ok.
Qed.

Lemma AgentConfigSchema_retract :
  retract AgentConfigSchema unknownOfAgentConfig okAgentConfig.
Proof.
  intros a H. unfold okAgentConfig in H. split_ok.
  unfold AgentConfigSchema, unknownOfAgentConfig. open_object.
  step z_string_min1_retract. step z_string_min1_retract. step z_string_retract.
  step AIProvider_retract. step z_string_min1_retract. step z_string_retract.
  step ModelParametersSchema_retract.
  step (z_array_retract _ _ _ ToolSchema_retract).
  step MemoryConfigSchema_retract. step z_strings_retract. step z_record_retract.
  by destruct a.
Qed.

Lemma NodePositionSchema_retract :
  retract NodePositionSchema unknownOfNodePosition anything.
Proof.
  intros p _. unfold NodePositionSchema, unknownOfNodePosition. open_object.
  step z_number_retract. step z_number_retract. by destruct p.
Qed.

Lemma WorkflowConnectionSchema_sound :
  sound WorkflowConnectionSchema okWorkflowConnection.
Proof.
  intros v c H. unfold WorkflowConnectionSchema in H. peel H.
  field_sound z_string_min1_sound. unfold okWorkflowConnection. simpl. join_ok.
Qed.

Lemma WorkflowConnectionSchema_retract :
  retract WorkflowConnectionSchema unknownOfWorkflowConnection okWorkflowConnection.
Proof.
  intros c H. unfold okWorkflowConnection in H. split_ok.
  unfold WorkflowConnectionSchema, unknownOfWorkflowConnection. open_object.
  do 3 step z_string_min1_retract. do 4 step z_string_retract. by destruct c.
Qed.

Lemma WorkflowNodeSchema_sound : sound WorkflowNodeSchema okWorkflowNode.
Proof.
  intros v n H. unfold WorkflowNodeSchema in H. peel H.
  field_sound z_string_min1_sound. field_sound AgentConfigSchema_sound.
  field_sound z_record_sound.
  unfold okWorkflowNode. simpl. join_ok.
Qed.

Lemma WorkflowNodeSchema_retract :
  retract WorkflowNodeSchema unknownOfWorkflowNode okWorkflowNode.
Proof.
  intros n H. unfold okWorkflowNode in H. split_ok.
  unfold WorkflowNodeSchema, unknownOfWorkflowNode. open_object.
  step z_string_min1_retract. step NodeType_retract. step z_string_retract.
  step AgentConfigSchema_retract. step NodePositionSchema_retract.
  step z_record_retract. by destruct n.
Qed.

Lemma WorkflowVariableSchema_sound :
  sound WorkflowVariableSchema okWorkflowVariable.
Proof.
  intros v x H. unfold WorkflowVariableSchema in H. peel H.
  field_sound z_string_min1_sound. unfold okWorkflowVariable. simpl. join_ok.
Qed.

Lemma WorkflowVariableSchema_retract :
  retract WorkflowVariableSchema unknownOfWorkflowVariable okWorkflowVariable.
Proof.
  intros x H. unfold okWorkflowVariable in H.
  unfold WorkflowVariableSchema, unknownOfWorkflowVariable. open_object.
  step z_string_min1_retract. step VariableType_retract.
  rewrite z_optional_unknown. cbn [mbind option_bind].
  step z_string_retract. step z_boolean_retract. by destruct x.
Qed.

Section SchemaLemmas.
Variable isUrl : string → bool.

Lemma z_string_url_sound : sound (z_string_url isUrl) isUrl.
Proof.
  intros v s. unfold z_string_url. destruct v; simpl; try done.
  destruct (isUrl s0) eqn:E; [|done]. by intros [= <-].
Qed.

Lemma z_string_url_retract : retract (z_string_url isUrl) JStr isUrl.
Proof. intros s H. unfold z_string_url. simpl. by rewrite H. Qed.

Lemma passthrough_undeclared keys o :
  forallb (fun kv => negb (isDeclared keys kv)) (passthrough keys o) = true.
Proof.
  unfold passthrough. apply forallb_forall. intros kv Hin.
  by apply List.filter_In in Hin as [_ [? _]%andb_true_iff].
Qed.

Lemma passthrough_withoutProto keys o : withoutProto (passthrough keys o) = true.
Proof.
  unfold passthrough. apply forallb_forall. intros kv Hin.
  by apply List.filter_In in Hin as [_ [_ ?]%andb_true_iff].
Qed.

Lemma TriggerConfigSchema_sound :
  sound (TriggerConfigSchema isUrl) (okTriggerConfig isUrl).
Proof.
  intros v c H. unfold TriggerConfigSchema in H. peel H.
  field_sound z_string_url_sound.
  unfold okTriggerConfig. cbn [TriggerConfig.webhookUrl TriggerConfig.extra].
  rewrite passthrough_undeclared, passthrough_withoutProto. join_ok.
Qed.

Lemma passthrough_present keys props extra :
  forallb (fun k => existsb (String.eqb k) keys) (map fst props) = true →
  forallb (fun kv => negb (isDeclared keys kv)) extra = true →
  withoutProto extra = true →
  passthrough keys (present props ++ extra) = extra.
Proof.
  intros Hp He Hproto. unfold passthrough. rewrite List.filter_app.
  replace (List.filter _ (present props)) with (@nil (string * json)).
  - simpl. apply forallb_filter_id. apply forallb_forall. intros kv Hin.
    rewrite forallb_forall in He. unfold withoutProto in Hproto.
    rewrite forallb_forall in Hproto. by rewrite (He kv Hin), (Hproto kv Hin).
  - symmetry. induction props as [|[k o] props IH]; simpl in *; [done|].
    apply andb_true_iff in Hp as [Hk Hp].
    destruct o; simpl; [|by apply IH].
    unfold isDeclared at 1. simpl. rewrite Hk. simpl. by apply IH.
Qed.

Lemma TriggerConfigSchema_retract :
  retract (TriggerConfigSchema isUrl) unknownOfTriggerConfig (okTriggerConfig isUrl).
Proof.
  intros c H. unfold okTriggerConfig in H. split_ok.
  unfold TriggerConfigSchema, unknownOfTriggerConfig.
  cbn [z_object mbind option_bind].
  rewrite passthrough_present by (done || reflexivity).
  rewrite !field_app, !field_present by reflexivity. read_fields.
  rewrite !(field_undeclared triggerConfigKeys) by (done || (simpl; tauto)).
  destruct c as [schedule webhookUrl eventName extra]. simpl in *.
  destruct schedule, webhookUrl, eventName; simpl in *;
    unfold z_string_url; simpl; rewrite ?H; done.
Qed.

Lemma WorkflowTriggerSchema_sound :
  sound (WorkflowTriggerSchema isUrl) (okWorkflowTrigger isUrl).
Proof.
  intros v t H. unfold WorkflowTriggerSchema in H. peel H.
  field_sound TriggerConfigSchema_sound. done.
Qed.

Lemma WorkflowTriggerSchema_retract :
  retract (WorkflowTriggerSchema isUrl) unknownOfWorkflowTrigger
    (okWorkflowTrigger isUrl).
Proof.
  intros t H. unfold okWorkflowTrigger in H.
  unfold WorkflowTriggerSchema, unknownOfWorkflowTrigger. open_object.
  step TriggerType_retract. step TriggerConfigSchema_retract. by destruct t.
Qed.

Lemma WorkflowConfigObject_sound :
  sound (WorkflowConfigObject isUrl) (okWorkflowFields isUrl).
Proof.
  intros v w H. unfold WorkflowConfigObject in H.
  repeat (apply bind_Some in H as (? & ? & H)).
  match goal with
  | H : (if ?b then Some _ else None) = Some _ |- _ =>
      destruct b eqn:Hmin; [injection H as <-|discriminate H]
  end.
  injection H as <-.
  field_sound z_string_min1_sound.
  field_sound (z_array_sound _ _ WorkflowNodeSchema_sound).
  field_sound (z_array_sound _ _ WorkflowConnectionSchema_sound).
  field_sound WorkflowTriggerSchema_sound.
  field_sound (z_array_sound _ _ WorkflowVariableSchema_sound).
  field_sound z_record_sound.
  unfold okWorkflowFields. simpl. join_ok.
Qed.

Lemma WorkflowConfigObject_retract :
  retract (WorkflowConfigObject isUrl) unknownOfWorkflowConfig
    (okWorkflowFields isUrl).
Proof.
  intros w H. unfold okWorkflowFields in H. split_ok.
  unfold WorkflowConfigObject, unknownOfWorkflowConfig. open_object.
  step z_string_min1_retract. step z_string_min1_retract.
  step z_string_retract. step z_string_retract.
  step (z_array_retract _ _ _ WorkflowNodeSchema_retract).
  apply bind_Some. eexists. split.
  { match goal with H : (1 <=? _) = true |- _ => rewrite H end. done. }
  cbv beta.
  step (z_array_retract _ _ _ WorkflowConnectionSchema_retract).
  step WorkflowTriggerSchema_retract.
  step (z_array_retract _ _ _ WorkflowVariableSchema_retract).
  step z_strings_retract. step z_record_retract. by destruct w.
Qed.
End SchemaLemmas.


(** ** The validator *)

Lemma nonEmpty_spec s : nonEmpty s = true ↔ s ≠ EmptyString.
Proof.
  unfold nonEmpty. destruct s; simpl; split; (done || congruence).
Qed.

Lemma NodeType_eqb_spec a b : NodeType.eqb a b = true ↔ a = b.
Proof. destruct a, b; simpl; split; (done || congruence). Qed.

Lemma in_node_ids workflow (x : string) :
  x ∈ (list_to_set (map WorkflowNode.id (WorkflowConfig.nodes workflow)) : gset string)
  ↔ ∃ n, In n (WorkflowConfig.nodes workflow) ∧ WorkflowNode.id n = x.
Proof.
  rewrite elem_of_list_to_set, list_elem_of_In, in_map_iff.
  split; intros (n & H1 & H2); eauto.
Qed.

Lemma connectionsReferenceNodes_spec workflow :
  connectionsReferenceNodes workflow = true ↔ endpointsResolve workflow.
Proof.
  unfold connectionsReferenceNodes, endpointsResolve. rewrite forallb_forall.
  split; intros H c Hc; specialize (H c Hc).
  - apply andb_true_iff in H as [H1 H2].
    apply bool_decide_eq_true in H1, H2.
    by rewrite !in_node_ids in *.
  - destruct H as [H1 H2]. rewrite <- !in_node_ids in *.
    apply andb_true_iff. split; by apply bool_decide_eq_true.
Qed.

Lemma agentNodesHaveReference_spec workflow :
  agentNodesHaveReference workflow = true ↔ agentNodesCarryReference workflow.
Proof.
  unfold agentNodesHaveReference, agentNodesCarryReference. rewrite forallb_forall.
  split.
  - intros H n Hn Ht.
    specialize (H n). rewrite List.filter_In, NodeType_eqb_spec in H.
    specialize (H (conj Hn Ht)). apply orb_true_iff in H as [H|H].
    + left. unfold truthy_opt in H.
      destruct (WorkflowNode.agentId n) as [s|]; [|done].
      exists s. split; [done|]. unfold truthy in H.
      destruct (String.eqb_spec s EmptyString); [done|done].
    + right. by apply bool_decide_eq_true in H.
  - intros H n [Hn Ht]%List.filter_In. apply NodeType_eqb_spec in Ht.
    destruct (H n Hn Ht) as [(s & -> & Hs)|Ha]; apply orb_true_iff.
    + left. simpl. unfold truthy.
      destruct (String.eqb_spec s EmptyString); [done|done].
    + right. by apply bool_decide_eq_true.
Qed.

Section Validator.
Variable isUrl : string → bool.

Lemma validateWorkflowConfig_Success config workflow :
  validateWorkflowConfig isUrl config = Success workflow ↔
  WorkflowConfigObject isUrl config = Some workflow ∧
  connectionsReferenceNodes workflow = true ∧
  agentNodesHaveReference workflow = true.
Proof.
  unfold validateWorkflowConfig, WorkflowConfigSchema, refinementIssues.
  destruct (WorkflowConfigObject isUrl config) as [w|]; simpl.
  - destruct (connectionsReferenceNodes w) eqn:E1,
             (agentNodesHaveReference w) eqn:E2; simpl;
      (split; [intros [= <-]; by rewrite ?E1, ?E2
              |intros ([= <-] & H1 & H2); congruence]).
  - split; [done|]. by intros [? _].
Qed.

Lemma validateWorkflowConfig_sound config workflow :
  validateWorkflowConfig isUrl config = Success workflow →
  structurallyValid isUrl workflow = true.
Proof.
  intros (Ho & H1 & H2)%validateWorkflowConfig_Success.
  unfold structurallyValid.
  by rewrite (WorkflowConfigObject_sound isUrl _ _ Ho), H1, H2.
Qed.

Lemma validateWorkflowConfig_retract workflow :
  structurallyValid isUrl workflow = true →
  validateWorkflowConfig isUrl (unknownOfWorkflowConfig workflow) = Success workflow.
Proof.
  unfold structurallyValid.
  intros [[Hf H1]%andb_true_iff H2]%andb_true_iff.
  apply validateWorkflowConfig_Success. split; [|done].
  by apply WorkflowConfigObject_retract.
Qed.
End Validator.

(** The validator accepts exactly the structurally valid workflows, seen as
    [unknown] values. *)
Lemma validateWorkflowConfig_accepts_iff (isUrl : string → bool)
    (workflow : WorkflowConfig.t) :
  validateWorkflowConfig isUrl (unknownOfWorkflowConfig workflow) = Success workflow
  ↔ structurallyValid isUrl workflow = true.
Proof.
  split.
  - apply validateWorkflowConfig_sound.
  - apply validateWorkflowConfig_retract.
Qed.

(** A validated workflow satisfies Invariant A, in particular on sources. *)
Lemma validated_sources_resolve (isUrl : string → bool) (config : json)
    (d : WorkflowConfig.t) :
  validateWorkflowConfig isUrl config = Success d → sourcesResolve d.
Proof.
  intros (_ & H & _)%validateWorkflowConfig_Success.
  apply connectionsReferenceNodes_spec in H.
  intros c Hc. by destruct (H c Hc).
Qed.

(** C9: idempotence of validation. When [validateWorkflowConfig] returns
    success with data [d], validating [d] again returns success with the same
    data [d]. *)
Theorem validateWorkflowConfig_idempotent
    (isUrl : string → bool) (config : json) (d : WorkflowConfig.t) :
  validateWorkflowConfig isUrl config = Success d →
  validateWorkflowConfig isUrl (unknownOfWorkflowConfig d) = Success d.
Proof.
  intros H.
  by apply validateWorkflowConfig_retract, (validateWorkflowConfig_sound _ config).
Qed.

(** An input with undeclared properties is accepted, they are stripped, and
    the stripped value validates to itself. *)
Lemma validateWorkflowConfig_idempotent_witness :
  validateWorkflowConfig acceptAnyUrl looseConfig
    = Success (graphOf [plainNode "a" NodeType.end_] []) ∧
  validateWorkflowConfig acceptAnyUrl
    (unknownOfWorkflowConfig (graphOf [plainNode "a" NodeType.end_] []))
    = Success (graphOf [plainNode "a" NodeType.end_] []).
Proof.
  split.
  - vm_compute. reflexivity.
  - apply (validateWorkflowConfig_idempotent acceptAnyUrl looseConfig).
    vm_compute. reflexivity.
Defined.

(** C1, as stated, fails: a structurally valid workflow whose two
    connections form the cycle a, b, a is accepted by
    [validateWorkflowConfig], while [detectWorkflowCycles] reports the cycle. *)
Lemma validator_accepts_cyclic_workflow :
  structurallyValid acceptAnyUrl twoNodeCycle = true ∧
  hasDirectedCycle twoNodeCycle ∧
  detectWorkflowCycles twoNodeCycle = true ∧
  validateWorkflowConfig acceptAnyUrl (unknownOfWorkflowConfig twoNodeCycle)
    = Success twoNodeCycle.
Proof.
  split; [by vm_compute|]. split; [|split; by vm_compute].
  exists "a". apply (tc_l _ _ "b").
  - exists (edge "c1" "a" "b"). simpl. tauto.
  - apply tc_once. exists (edge "c2" "b" "a"). simpl. tauto.
Qed.

(** C1, amended: for every workflow value that passes structural validation
    (the field constraints of the schemas, a non-empty node sequence,
    resolvable connection endpoints, a reference on every agent node, and no
    property named [__proto__] in a record, which parsing would leave out),
    [validateWorkflowConfig] returns success with that workflow as data,
    whether or not its connection graph contains a directed cycle: the
    verdict is the structural one, a cycle plays no part in it. *)
Theorem validator_verdict_ignores_cycles
    (isUrl : string → bool) (workflow : WorkflowConfig.t) :
  structurallyValid isUrl workflow = true →
  validateWorkflowConfig isUrl (unknownOfWorkflowConfig workflow) = Success workflow.
Proof.
  unfold structurallyValid.
  intros [[Hfields Hendpoints]%andb_true_iff Hagents]%andb_true_iff.
  apply validateWorkflowConfig_Success. split; [|done].
  by apply WorkflowConfigObject_retract.
Qed.

(** The two-node cycle is such a workflow. *)
Lemma validator_verdict_ignores_cycles_witness :
  structurallyValid acceptAnyUrl twoNodeCycle = true ∧
  validateWorkflowConfig acceptAnyUrl (unknownOfWorkflowConfig twoNodeCycle)
    = Success twoNodeCycle.
Proof.
  split.
  - vm_compute. reflexivity.
  - apply (validator_verdict_ignores_cycles acceptAnyUrl twoNodeCycle).
    vm_compute. reflexivity.
Defined.

(** C7, as stated, fails: a workflow with two nodes of the same id is
    accepted, and the returned node ids are not pairwise distinct. *)
Lemma validator_accepts_duplicate_node_ids :
  validateWorkflowConfig acceptAnyUrl (unknownOfWorkflowConfig duplicateIdWorkflow)
    = Success duplicateIdWorkflow ∧
  ¬ NoDup (map WorkflowNode.id (WorkflowConfig.nodes duplicateIdWorkflow)).
Proof.
  split; [by vm_compute|]. simpl. intros H. apply NoDup_cons in H as [H _].
  apply H. set_solver.
Qed.

(** C7, amended: for every input on which [validateWorkflowConfig] returns
    success, the returned nodes sequence is non-empty, every node id is a
    non-empty string, every connection endpoint is the id of a returned node
    and every agent node carries a reference. Distinct ids are not part of
    what success guarantees. *)
Theorem validated_nodes_nonempty_and_referenced
    (isUrl : string → bool) (config : json) (d : WorkflowConfig.t) :
  validateWorkflowConfig isUrl config = Success d →
  WorkflowConfig.nodes d ≠ [] ∧
  (∀ n, In n (WorkflowConfig.nodes d) → WorkflowNode.id n ≠ EmptyString) ∧
  endpointsResolve d ∧
  agentNodesCarryReference d.
Proof.
  intros H. apply validateWorkflowConfig_sound in H.
  unfold structurallyValid, okWorkflowFields in H. split_ok.
  split; [|split; [|split]].
  - destruct (WorkflowConfig.nodes d); [done|done].
  - intros n Hn.
    match goal with
    | H : forallb okWorkflowNode _ = true |- _ =>
        rewrite forallb_forall in H; specialize (H n Hn)
    end.
    unfold okWorkflowNode in *. split_ok. by apply nonEmpty_spec.
  - by apply connectionsReferenceNodes_spec.
  - by apply agentNodesHaveReference_spec.
Qed.

Lemma validated_nodes_nonempty_and_referenced_witness :
  validateWorkflowConfig acceptAnyUrl (unknownOfWorkflowConfig duplicateIdWorkflow)
    = Success duplicateIdWorkflow ∧
  WorkflowConfig.nodes duplicateIdWorkflow ≠ [] ∧
  (∀ n, In n (WorkflowConfig.nodes duplicateIdWorkflow) →
        WorkflowNode.id n ≠ EmptyString) ∧
  endpointsResolve duplicateIdWorkflow ∧
  agentNodesCarryReference duplicateIdWorkflow.
Proof.
  split.
  - vm_compute. reflexivity.
  - apply (validated_nodes_nonempty_and_referenced acceptAnyUrl
             (unknownOfWorkflowConfig duplicateIdWorkflow)).
    vm_compute. reflexivity.
Defined.

(** ** The graph analyses *)

Lemma detectWorkflowCycles_run_eq workflow :
  detectWorkflowCycles_run workflow = Some (detectWorkflowCycles workflow).
Proof.
  unfold detectWorkflowCycles.
  by destruct (detectWorkflowCycles_run_total workflow) as [b ->].
Qed.

Lemma getWorkflowTopologicalOrder_run_eq workflow :
  getWorkflowTopologicalOrder_run workflow
  = Some (getWorkflowTopologicalOrder workflow).
Proof.
  unfold getWorkflowTopologicalOrder.
  by destruct (getWorkflowTopologicalOrder_run_total workflow) as [b ->].
Qed.

(** The first statement of [getWorkflowTopologicalOrder]: a detected cycle
    gives [null]. This is the half of the equivalence of C3 the code has. *)
Lemma getWorkflowTopologicalOrder_null_on_detected_cycle workflow :
  detectWorkflowCycles workflow = true →
  getWorkflowTopologicalOrder workflow = None.
Proof.
  intros H. unfold getWorkflowTopologicalOrder, getWorkflowTopologicalOrder_run.
  by rewrite detectWorkflowCycles_run_eq, H.
Qed.

(** A ranking that every connection strictly increases rules out a cycle. *)
Lemma ranked_graph_has_no_cycle workflow (rank : string → nat) :
  (∀ a b, connects workflow a b → rank a < rank b) →
  ¬ hasDirectedCycle workflow.
Proof.
  intros Hrank [x Hx].
  assert (∀ a b, tc (connects workflow) a b → rank a < rank b) as Htc.
  { intros a b H. induction H as [a b H|a b c H _ IH].
    - by apply Hrank.
    - specialize (Hrank a b H). lia. }
  specialize (Htc x x Hx). lia.
Qed.

Lemma parallelEdgeWorkflow_acyclic : ¬ hasDirectedCycle parallelEdgeWorkflow.
Proof.
  apply (ranked_graph_has_no_cycle _
           (fun s => if String.eqb s "a" then 0 else 1)).
  intros a b (c & Hc & <- & <-).
  destruct Hc as [<-|[<-|[]]]; simpl; lia.
Qed.

(** Scenarios 1 to 4 of the specification. *)
Example scenario_chain :
  getWorkflowTopologicalOrder chainWorkflow = Some ["a"; "b"; "c"] ∧
  detectWorkflowCycles chainWorkflow = false ∧
  findDisconnectedNodes chainWorkflow = [].
Proof. repeat split; by vm_compute. Qed.

Example scenario_two_node_cycle :
  detectWorkflowCycles twoNodeCycle = true ∧
  getWorkflowTopologicalOrder twoNodeCycle = None.
Proof. split; by vm_compute. Qed.

Example scenario_disjoint_chains :
  let workflow :=
    graphOf [plainNode "a" NodeType.end_; plainNode "b" NodeType.end_;
             plainNode "c" NodeType.end_; plainNode "d" NodeType.end_]
      [edge "c1" "a" "b"; edge "c2" "c" "d"] in
  detectWorkflowCycles workflow = false ∧
  getWorkflowTopologicalOrder workflow = Some ["a"; "c"; "b"; "d"] ∧
  findDisconnectedNodes workflow = [].
Proof. repeat split; by vm_compute. Qed.

Example scenario_isolated_node :
  findDisconnectedNodes
    (graphOf [plainNode "a" NodeType.end_; plainNode "b" NodeType.end_;
              plainNode "z" NodeType.end_]
       [edge "c1" "a" "b"]) = ["z"].
Proof. by vm_compute. Qed.

(** C3, at the failing input: two connections between the same two nodes. The
    workflow is accepted by the validator, [detectWorkflowCycles] returns
    false, and [getWorkflowTopologicalOrder] returns [null] all the same: the
    adjacency sets keep one edge from a to b, the in-degree of b counts two. *)
Theorem no_cycle_detected_yet_no_order_on_parallel_edges :
  validateWorkflowConfig acceptAnyUrl (unknownOfWorkflowConfig parallelEdgeWorkflow)
    = Success parallelEdgeWorkflow ∧
  map WorkflowNode.id (WorkflowConfig.nodes parallelEdgeWorkflow) = ["a"; "b"] ∧
  detectWorkflowCycles parallelEdgeWorkflow = false ∧
  getWorkflowTopologicalOrder parallelEdgeWorkflow = None.
Proof. repeat split; vm_compute; reflexivity. Qed.

(** C2, at the failing input: the workflow has connections, distinct node
    ids, resolvable endpoints and no directed cycle, and
    [getWorkflowTopologicalOrder] returns [null] instead of an order. *)
Theorem acyclic_workflow_without_topological_order :
  WorkflowConfig.connections parallelEdgeWorkflow ≠ [] ∧
  NoDup (map WorkflowNode.id (WorkflowConfig.nodes parallelEdgeWorkflow)) ∧
  endpointsResolve parallelEdgeWorkflow ∧
  ¬ hasDirectedCycle parallelEdgeWorkflow ∧
  getWorkflowTopologicalOrder parallelEdgeWorkflow = None.
Proof.
  split; [done|]. split; [|split; [|split]].
  - simpl. apply NoDup_cons. split; [set_solver|]. apply NoDup_singleton.
  - apply connectionsReferenceNodes_spec. by vm_compute.
  - apply parallelEdgeWorkflow_acyclic.
  - by vm_compute.
Qed.


(** *** Insertion-ordered maps and sets *)

Lemma JsMap_get_set_eq {V} k (v : V) m : JsMap.get k (JsMap.set k v m) = Some v.
Proof.
  induction m as [|[k' v'] m IH]; simpl.
  - by rewrite String.eqb_refl.
  - destruct (String.eqb k k') eqn:E; simpl; rewrite E; [done|apply IH].
Qed.

Lemma JsMap_get_set_ne {V} k k' (v : V) m :
  k ≠ k' → JsMap.get k' (JsMap.set k v m) = JsMap.get k' m.
Proof.
  intros Hne. induction m as [|[k0 v0] m IH]; simpl.
  - destruct (String.eqb_spec k' k) as [->|]; [done|done].
  - destruct (String.eqb_spec k k0) as [->|]; simpl.
    + destruct (String.eqb_spec k' k0); [congruence|done].
    + destruct (String.eqb k' k0); [done|apply IH].
Qed.

Lemma JsMap_get_In_keys {V} k (m : JsMap.t V) :
  is_Some (JsMap.get k m) ↔ In k (JsMap.keys m).
Proof.
  unfold JsMap.keys. induction m as [|[k' v'] m IH]; simpl.
  - split; [by intros [? ?]|done].
  - destruct (String.eqb_spec k k') as [->|Hne].
    + split; [by left|by eauto].
    + rewrite IH. split; [by right|]. intros [?|?]; [congruence|done].
Qed.

Lemma JsMap_keys_set_old {V} k (v : V) m :
  In k (JsMap.keys m) → JsMap.keys (JsMap.set k v m) = JsMap.keys m.
Proof.
  unfold JsMap.keys. induction m as [|[k' v'] m IH]; simpl; [done|].
  destruct (String.eqb_spec k k') as [->|Hne]; simpl; [done|].
  intros [?|H]; [congruence|]. by rewrite IH.
Qed.

Lemma JsMap_keys_set_new {V} k (v : V) m :
  ¬ In k (JsMap.keys m) → JsMap.keys (JsMap.set k v m) = JsMap.keys m ++ [k].
Proof.
  unfold JsMap.keys. induction m as [|[k' v'] m IH]; simpl; [done|].
  destruct (String.eqb_spec k k') as [->|Hne]; simpl.
  - intros H. destruct H. by left.
  - intros H. rewrite IH; [done|]. intros ?. apply H. by right.
Qed.

Lemma JsSet_has_In x s : JsSet.has x s = true ↔ In x s.
Proof.
  unfold JsSet.has. rewrite existsb_exists. split.
  - intros (y & Hy & ->%String.eqb_eq). done.
  - intros H. exists x. split; [done|]. apply String.eqb_refl.
Qed.

Lemma JsSet_add_In x y s : In y (JsSet.add x s) ↔ y = x ∨ In y s.
Proof.
  unfold JsSet.add. destruct (JsSet.has x s) eqn:E.
  - apply JsSet_has_In in E. split; [by right|]. intros [->|?]; done.
  - rewrite in_app_iff. simpl. split; [intros [?|[?|[]]]|intros [?|?]]; auto.
Qed.

Lemma JsSet_add_NoDup x s : List.NoDup s → List.NoDup (JsSet.add x s).
Proof.
  intros H. unfold JsSet.add. destruct (JsSet.has x s) eqn:E; [done|].
  apply NoDup_ListNoDup, NoDup_app. split; [by apply NoDup_ListNoDup|].
  split; [|apply NoDup_singleton].
  intros y Hy Hx. apply list_elem_of_In in Hy, Hx. destruct Hx as [<-|[]].
  apply JsSet_has_In in Hy. congruence.
Qed.

Lemma JsMap_In_get {V} k (v : V) (m : JsMap.t V) :
  List.NoDup (JsMap.keys m) → In (k, v) m → JsMap.get k m = Some v.
Proof.
  unfold JsMap.keys. induction m as [|[k' v'] m IH]; simpl; [done|].
  intros Hnd [[= -> ->]|Hin].
  - by rewrite String.eqb_refl.
  - apply List.NoDup_cons_iff in Hnd as [Hk Hnd].
    destruct (String.eqb_spec k k') as [->|]; [|by apply IH].
    exfalso. apply Hk. apply in_map_iff. by exists (k', v).
Qed.

Lemma NoDup_map_fst_filter {V} (f : string * V → bool) (m : list (string * V)) :
  List.NoDup (map fst m) → List.NoDup (map fst (List.filter f m)).
Proof.
  induction m as [|[k v] m IH]; simpl; [done|].
  intros [Hk Hnd]%List.NoDup_cons_iff. destruct (f (k, v)); simpl; [|by apply IH].
  constructor; [|by apply IH].
  intros ([k' v'] & Heq & [Hin _]%List.filter_In)%in_map_iff. simpl in Heq. subst k'.
  apply Hk, in_map_iff. by exists (k, v').
Qed.

(** *** What the two analyses build *)

Section GraphFacts.
Variable workflow : WorkflowConfig.t.
Hypothesis Hnodup : List.NoDup (workflowNodeIds workflow).

Lemma emptyGraph_spec nodes :
  let g := fold_left (fun g node => JsMap.set (WorkflowNode.id node) JsSet.empty g)
             nodes JsMap.empty in
  (∀ u, In u (map WorkflowNode.id nodes) → JsMap.get u g = Some []) ∧
  (∀ u, ¬ In u (map WorkflowNode.id nodes) → JsMap.get u g = None) ∧
  (List.NoDup (map WorkflowNode.id nodes) → JsMap.keys g = map WorkflowNode.id nodes).
Proof.
  induction nodes as [|n nodes IH] using rev_ind; simpl.
  - split; [done|]. split; done.
  - rewrite fold_left_app, map_app. simpl.
    destruct IH as (IH1 & IH2 & IH3).
    split; [|split].
    + intros u [Hu|[<-|[]]]%in_app_or.
      * destruct (String.eqb_spec (WorkflowNode.id n) u) as [<-|Hne].
        -- apply JsMap_get_set_eq.
        -- rewrite JsMap_get_set_ne by done. by apply IH1.
      * apply JsMap_get_set_eq.
    + intros u Hu. rewrite JsMap_get_set_ne.
      * apply IH2. intros ?. apply Hu, in_or_app. by left.
      * intros <-. apply Hu, in_or_app. right. by left.
    + intros Hnd. apply NoDup_ListNoDup, NoDup_app in Hnd as (Hnd & Hdis & _).
      rewrite JsMap_keys_set_new.
      * rewrite IH3; [done|]. by apply NoDup_ListNoDup.
      * rewrite IH3 by (by apply NoDup_ListNoDup).
        intros Hin. apply (Hdis (WorkflowNode.id n)); [by apply list_elem_of_In|].
        apply list_elem_of_In. by left.
Qed.

(** The adjacency map after a prefix of the connections. *)
Lemma buildGraph_prefix conns g0 :
  (∀ u, In u (workflowNodeIds workflow) → JsMap.get u g0 = Some []) →
  (∀ u, ¬ In u (workflowNodeIds workflow) → JsMap.get u g0 = None) →
  let g :=
    fold_left
      (fun g conn =>
         match JsMap.get (WorkflowConnection.sourceId conn) g with
         | Some s =>
             JsMap.set (WorkflowConnection.sourceId conn)
               (JsSet.add (WorkflowConnection.targetId conn) s) g
         | None => g
         end) conns g0 in
  JsMap.keys g = JsMap.keys g0 ∧
  (∀ u, ¬ In u (workflowNodeIds workflow) → JsMap.get u g = None) ∧
  (∀ u, In u (workflowNodeIds workflow) →
     ∃ s, JsMap.get u g = Some s ∧ List.NoDup s ∧
       ∀ x, In x s ↔ ∃ c, In c conns ∧ WorkflowConnection.sourceId c = u ∧
                          WorkflowConnection.targetId c = x).
Proof.
  intros H1 H2. induction conns as [|c conns IH] using rev_ind; simpl.
  - split; [done|]. split; [done|]. intros u Hu. exists []. split; [by apply H1|].
    split; [constructor|]. intros x. split; [done|]. by intros (c & [] & _).
  - rewrite fold_left_app. simpl. destruct IH as (IHk & IHn & IHs).
    match goal with
    | |- context [fold_left ?f conns g0] => set (g := fold_left f conns g0) in *
    end.
    destruct (JsMap.get (WorkflowConnection.sourceId c) g) as [s|] eqn:E.
    + assert (In (WorkflowConnection.sourceId c) (workflowNodeIds workflow)) as Hsrc.
      { destruct (in_dec string_dec (WorkflowConnection.sourceId c) (workflowNodeIds workflow))
          as [?|Hn]; [done|]. rewrite (IHn _ Hn) in E. done. }
      split; [|split].
      * rewrite JsMap_keys_set_old; [done|]. apply JsMap_get_In_keys. by rewrite E.
      * intros u Hu. rewrite JsMap_get_set_ne; [by apply IHn|]. by intros <-.
      * intros u Hu. destruct (String.eqb_spec (WorkflowConnection.sourceId c) u)
          as [<-|Hne].
        -- rewrite JsMap_get_set_eq. eexists. split; [done|].
           destruct (IHs _ Hsrc) as (s' & Hs' & Hnd & Hin).
           rewrite E in Hs'. injection Hs' as <-.
           split; [by apply JsSet_add_NoDup|].
           intros x. rewrite JsSet_add_In, Hin. split.
           ++ intros [->|(c' & Hc' & ? & ?)].
              ** exists c. split; [apply in_or_app; right; by left|done].
              ** exists c'. split; [apply in_or_app; by left|done].
           ++ intros (c' & [Hc'|[<-|[]]]%in_app_or & Hsrc' & Htgt').
              ** right. eauto.
              ** by left.
        -- rewrite JsMap_get_set_ne by done.
           destruct (IHs _ Hu) as (s' & Hs' & Hnd & Hin).
           exists s'. split; [done|]. split; [done|].
           intros x. rewrite Hin. split.
           ++ intros (c' & Hc' & ? & ?). exists c'.
              split; [apply in_or_app; by left|done].
           ++ intros (c' & [Hc'|[<-|[]]]%in_app_or & Hsrc' & Htgt'); [by eauto|].
              congruence.
    + split; [done|]. split; [done|].
      intros u Hu. destruct (IHs _ Hu) as (s' & Hs' & Hnd & Hin).
      exists s'. split; [done|]. split; [done|].
      intros x. rewrite Hin. split.
      * intros (c' & Hc' & ? & ?). exists c'.
        split; [apply in_or_app; by left|done].
      * intros (c' & [Hc'|[<-|[]]]%in_app_or & Hsrc' & Htgt'); [by eauto|].
        subst u. destruct (IHs _ Hu) as (s'' & Hs'' & _). congruence.
Qed.

Lemma buildGraph_keys : JsMap.keys (buildGraph workflow) = workflowNodeIds workflow.
Proof.
  unfold buildGraph.
  destruct (emptyGraph_spec (WorkflowConfig.nodes workflow)) as (H1 & H2 & H3).
  destruct (buildGraph_prefix (WorkflowConfig.connections workflow) _ H1 H2)
    as (Hk & _). rewrite Hk. by apply H3.
Qed.

Lemma neighborsOf_spec u x :
  In x (neighborsOf (buildGraph workflow) u)
  ↔ In u (workflowNodeIds workflow) ∧ connects workflow u x.
Proof.
  unfold buildGraph, neighborsOf, connects.
  destruct (emptyGraph_spec (WorkflowConfig.nodes workflow)) as (H1 & H2 & H3).
  destruct (buildGraph_prefix (WorkflowConfig.connections workflow) _ H1 H2)
    as (_ & Hn & Hs).
  destruct (in_dec string_dec u (workflowNodeIds workflow)) as [Hu|Hu].
  - destruct (Hs u Hu) as (s & -> & _ & Hin). rewrite Hin. tauto.
  - rewrite (Hn u Hu). simpl. tauto.
Qed.

Lemma neighborsOf_NoDup u : List.NoDup (neighborsOf (buildGraph workflow) u).
Proof.
  unfold buildGraph, neighborsOf.
  destruct (emptyGraph_spec (WorkflowConfig.nodes workflow)) as (H1 & H2 & H3).
  destruct (buildGraph_prefix (WorkflowConfig.connections workflow) _ H1 H2)
    as (_ & Hn & Hs).
  destruct (in_dec string_dec u (workflowNodeIds workflow)) as [Hu|Hu].
  - by destruct (Hs u Hu) as (s & -> & ? & _).
  - rewrite (Hn u Hu). constructor.
Qed.
End GraphFacts.

Section DegreeFacts.
Variable workflow : WorkflowConfig.t.
Hypothesis Hnodup : List.NoDup (workflowNodeIds workflow).
Hypothesis Htargets :
  ∀ c, In c (WorkflowConfig.connections workflow) →
       In (WorkflowConnection.targetId c) (workflowNodeIds workflow).

Lemma zeroDegree_spec nodes :
  let d := fold_left (fun d node => JsMap.set (WorkflowNode.id node) 0%Z d)
             nodes JsMap.empty in
  (∀ u, In u (map WorkflowNode.id nodes) → JsMap.get u d = Some 0%Z) ∧
  (∀ u, ¬ In u (map WorkflowNode.id nodes) → JsMap.get u d = None) ∧
  (List.NoDup (map WorkflowNode.id nodes) → JsMap.keys d = map WorkflowNode.id nodes).
Proof.
  induction nodes as [|n nodes IH] using rev_ind; simpl.
  - split; [done|]. split; done.
  - rewrite fold_left_app, map_app. simpl.
    destruct IH as (IH1 & IH2 & IH3).
    split; [|split].
    + intros u [Hu|[<-|[]]]%in_app_or.
      * destruct (String.eqb_spec (WorkflowNode.id n) u) as [<-|Hne].
        -- apply JsMap_get_set_eq.
        -- rewrite JsMap_get_set_ne by done. by apply IH1.
      * apply JsMap_get_set_eq.
    + intros u Hu. rewrite JsMap_get_set_ne.
      * apply IH2. intros ?. apply Hu, in_or_app. by left.
      * intros <-. apply Hu, in_or_app. right. by left.
    + intros Hnd. apply NoDup_ListNoDup, NoDup_app in Hnd as (Hnd & Hdis & _).
      rewrite JsMap_keys_set_new.
      * rewrite IH3; [done|]. by apply NoDup_ListNoDup.
      * rewrite IH3 by (by apply NoDup_ListNoDup).
        intros Hin. apply (Hdis (WorkflowNode.id n)); [by apply list_elem_of_In|].
        apply list_elem_of_In. by left.
Qed.

Lemma initInDegree_prefix conns d0 :
  (∀ c, In c conns → In (WorkflowConnection.targetId c) (workflowNodeIds workflow)) →
  (∀ u, In u (workflowNodeIds workflow) → JsMap.get u d0 = Some 0%Z) →
  (∀ u, ¬ In u (workflowNodeIds workflow) → JsMap.get u d0 = None) →
  let d :=
    fold_left
      (fun d conn =>
         JsMap.set (WorkflowConnection.targetId conn)
           (default 0%Z (JsMap.get (WorkflowConnection.targetId conn) d) + 1)%Z d)
      conns d0 in
  JsMap.keys d = JsMap.keys d0 ∧
  (∀ u, ¬ In u (workflowNodeIds workflow) → JsMap.get u d = None) ∧
  (∀ u, In u (workflowNodeIds workflow) →
     JsMap.get u d
     = Some (Z.of_nat
               (List.length
                  (List.filter
                     (fun c => String.eqb (WorkflowConnection.targetId c) u) conns)))).
Proof.
  intros Ht H1 H2. induction conns as [|c conns IH] using rev_ind; simpl.
  - split; [done|]. split; [done|]. intros u Hu. by apply H1.
  - rewrite fold_left_app. simpl.
    destruct IH as (IHk & IHn & IHs).
    { intros c' Hc'. apply Ht, in_or_app. by left. }
    match goal with
    | |- context [fold_left ?f conns d0] => set (d := fold_left f conns d0) in *
    end.
    assert (In (WorkflowConnection.targetId c) (workflowNodeIds workflow)) as Htgt.
    { apply Ht, in_or_app. right. by left. }
    split; [|split].
    + rewrite JsMap_keys_set_old; [done|]. apply JsMap_get_In_keys.
      by rewrite (IHs _ Htgt).
    + intros u Hu. rewrite JsMap_get_set_ne; [by apply IHn|]. by intros <-.
    + intros u Hu. rewrite List.filter_app, length_app. simpl.
      destruct (String.eqb_spec (WorkflowConnection.targetId c) u) as [<-|Hne].
      * rewrite JsMap_get_set_eq, (IHs _ Htgt). simpl. f_equal. lia.
      * rewrite JsMap_get_set_ne by done. rewrite (IHs _ Hu). simpl. f_equal. lia.
Qed.

Lemma initInDegree_keys : JsMap.keys (initInDegree workflow) = workflowNodeIds workflow.
Proof.
  unfold initInDegree. cbv zeta.
  destruct (zeroDegree_spec (WorkflowConfig.nodes workflow)) as (H1 & H2 & H3).
  destruct (initInDegree_prefix (WorkflowConfig.connections workflow) _
              Htargets H1 H2) as (Hk & _).
  rewrite Hk. by apply H3.
Qed.

Lemma initInDegree_get v :
  In v (workflowNodeIds workflow) →
  JsMap.get v (initInDegree workflow) = Some (Z.of_nat (inDegreeOf workflow v)).
Proof.
  unfold initInDegree, inDegreeOf, incomingConnections. cbv zeta.
  destruct (zeroDegree_spec (WorkflowConfig.nodes workflow)) as (H1 & H2 & H3).
  destruct (initInDegree_prefix (WorkflowConfig.connections workflow) _
              Htargets H1 H2) as (_ & _ & Hs).
  apply Hs.
Qed.
End DegreeFacts.

(** *** Kahn's loop returns only topological orders *)

Lemma fold_relax_spec neighbors :
  List.NoDup neighbors →
  ∀ inDegree queue,
    let '(inDegree', queue') := fold_left relax neighbors (inDegree, queue) in
    (∀ v, ¬ In v neighbors → JsMap.get v inDegree' = JsMap.get v inDegree) ∧
    (∀ v, In v neighbors →
       JsMap.get v inDegree' = Some (default 0%Z (JsMap.get v inDegree) - 1)%Z) ∧
    queue' = queue ++
      List.filter (fun v => (default 0%Z (JsMap.get v inDegree) - 1 =? 0)%Z) neighbors.
Proof.
  induction 1 as [|n rest Hn Hnd IH]; intros inDegree queue.
  - simpl. split; [done|]. split; [done|]. by rewrite app_nil_r.
  - change (fold_left relax (n :: rest) (inDegree, queue))
      with (fold_left relax rest (relax (inDegree, queue) n)).
    unfold relax at 2.
    set (d1 := JsMap.set n (default 0%Z (JsMap.get n inDegree) - 1)%Z inDegree).
    set (q1 := if (default 0%Z (JsMap.get n inDegree) - 1 =? 0)%Z
               then queue ++ [n] else queue).
    specialize (IH d1 q1).
    destruct (fold_left relax rest (d1, q1)) as [d2 q2].
    destruct IH as (IH1 & IH2 & IH3).
    assert (∀ v, v ≠ n → JsMap.get v d1 = JsMap.get v inDegree) as Hd1.
    { intros v Hv. unfold d1. by rewrite JsMap_get_set_ne. }
    split; [|split].
    + intros v Hv. rewrite IH1.
      * apply Hd1. intros ->. apply Hv. by left.
      * intros ?. apply Hv. by right.
    + intros v [<-|Hv].
      * rewrite IH1 by done. unfold d1. by rewrite JsMap_get_set_eq.
      * rewrite (IH2 v Hv), Hd1; [done|]. by intros ->.
    + rewrite IH3. simpl.
      assert (List.filter (fun v => (default 0%Z (JsMap.get v d1) - 1 =? 0)%Z) rest
              = List.filter
                  (fun v => (default 0%Z (JsMap.get v inDegree) - 1 =? 0)%Z) rest)
        as ->.
      { apply filter_ext_in. intros v Hv. rewrite Hd1; [done|]. by intros ->. }
      unfold q1. destruct (default 0%Z (JsMap.get n inDegree) - 1 =? 0)%Z.
      * by rewrite <- app_assoc.
      * done.
Qed.

Lemma precedes_app u v l x : precedes u v l → precedes u v (l ++ x).
Proof.
  intros (l1 & l2 & -> & H). exists l1, (l2 ++ x). split; [|done].
  by rewrite <- app_assoc.
Qed.

Section KahnInvariant.
Variable workflow : WorkflowConfig.t.
Hypothesis Hnodup : List.NoDup (workflowNodeIds workflow).
Hypothesis Hres : endpointsResolve workflow.

Lemma targets_resolve c :
  In c (WorkflowConfig.connections workflow) →
  In (WorkflowConnection.targetId c) (workflowNodeIds workflow).
Proof.
  intros Hc. destruct (Hres c Hc) as [_ (n & Hn & <-)].
  unfold workflowNodeIds. apply in_map_iff. eauto.
Qed.

Lemma sources_resolve c :
  In c (WorkflowConfig.connections workflow) →
  In (WorkflowConnection.sourceId c) (workflowNodeIds workflow).
Proof.
  intros Hc. destruct (Hres c Hc) as [(n & Hn & <-) _].
  unfold workflowNodeIds. apply in_map_iff. eauto.
Qed.

Lemma has_neighbor u v :
  JsSet.has v (neighborsOf (buildGraph workflow) u) = true ↔ connects workflow u v.
Proof.
  rewrite JsSet_has_In. split.
  - intros H. by apply (neighborsOf_spec workflow Hnodup) in H as [_ ?].
  - intros H. apply (neighborsOf_spec workflow Hnodup). split; [|done].
    destruct H as (c & Hc & <- & _). by apply sources_resolve.
Qed.

(** When as many members of [result] lead into [v] as there are connections
    into [v], every predecessor of [v] is in [result]. *)
Lemma all_predecessors_processed v result :
  List.NoDup result →
  processedInto (buildGraph workflow) v result = inDegreeOf workflow v →
  ∀ u, connects workflow u v → In u result.
Proof.
  intros Hnd Hcount u Hu.
  destruct (in_dec string_dec u result) as [?|Hnot]; [done|exfalso].
  set (P := incomingConnections workflow v).
  set (S := list_to_set (map WorkflowConnection.sourceId P) : gset string).
  set (T := list_to_set
              (List.filter (fun u => JsSet.has v (neighborsOf (buildGraph workflow) u)) result)
            : gset string).
  assert (size T = processedInto (buildGraph workflow) v result) as HT.
  { unfold T, processedInto. apply size_list_to_set, NoDup_ListNoDup.
    by apply List.NoDup_filter. }
  assert (size S ≤ inDegreeOf workflow v) as HS.
  { unfold S, inDegreeOf. fold P. etrans; [apply size_list_to_set_le|].
    by rewrite length_map. }
  assert (u ∈ S) as HuS.
  { unfold S. apply elem_of_list_to_set, list_elem_of_In, in_map_iff.
    destruct Hu as (c & Hc & Hsrc & Hv). exists c. split; [done|].
    unfold P, incomingConnections. apply List.filter_In. split; [done|].
    by apply String.eqb_eq. }
  assert (T ⊆ S ∖ {[u]}) as Hsub.
  { intros x Hx. unfold T in Hx.
    apply elem_of_list_to_set, list_elem_of_In, List.filter_In in Hx as [Hx Hh].
    apply has_neighbor in Hh as (c & Hc & Hsrc & Hv).
    apply elem_of_difference. split.
    - unfold S. apply elem_of_list_to_set, list_elem_of_In, in_map_iff.
      exists c. split; [done|]. unfold P, incomingConnections.
      apply List.filter_In. split; [done|]. by apply String.eqb_eq.
    - intros Heq%elem_of_singleton. congruence. }
  apply subseteq_size in Hsub.
  rewrite size_difference in Hsub by set_solver.
  rewrite size_singleton in Hsub.
  assert (size S ≠ 0); [|lia].
  apply size_non_empty_iff. set_solver.
Qed.

Lemma processedInto_snoc v result x :
  processedInto (buildGraph workflow) v (result ++ [x])
  = processedInto (buildGraph workflow) v result
    + (if JsSet.has v (neighborsOf (buildGraph workflow) x) then 1 else 0).
Proof.
  unfold processedInto. rewrite List.filter_app, length_app. simpl.
  by destruct (JsSet.has v (neighborsOf (buildGraph workflow) x)).
Qed.

Lemma kahnInv_step inDegree x queue result :
  kahnInv workflow inDegree (x :: queue) result →
  let '(inDegree', queue') :=
    fold_left relax (neighborsOf (buildGraph workflow) x) (inDegree, queue) in
  kahnInv workflow inDegree' queue' (result ++ [x]).
Proof.
  intros [Hnd Hids Hdeg Hspent Hqueue Horder].
  pose proof (fold_relax_spec (neighborsOf (buildGraph workflow) x)
                (neighborsOf_NoDup workflow x) inDegree queue) as Hfold.
  destruct (fold_left relax (neighborsOf (buildGraph workflow) x) (inDegree, queue))
    as [inDegree' queue'].
  destruct Hfold as (Hout & Hin & ->).
  set (fresh := List.filter
                  (fun v => (default 0%Z (JsMap.get v inDegree) - 1 =? 0)%Z)
                  (neighborsOf (buildGraph workflow) x)).
  assert (∀ v, In v (neighborsOf (buildGraph workflow) x) → In v (workflowNodeIds workflow)) as Hnbr.
  { intros v Hv.
    apply (neighborsOf_spec workflow Hnodup) in Hv as [_ (c & Hc & _ & <-)].
    by apply targets_resolve. }
  assert (∀ v, In v fresh →
            In v (neighborsOf (buildGraph workflow) x) ∧
            processedInto (buildGraph workflow) v result + 1 = inDegreeOf workflow v) as Hfresh.
  { intros v [Hv Hz]%List.filter_In. split; [done|].
    rewrite (Hdeg v (Hnbr v Hv)) in Hz. simpl in Hz.
    apply Z.eqb_eq in Hz. lia. }
  assert ((result ++ [x]) ++ queue ++ fresh = (result ++ x :: queue) ++ fresh)
    as Heq.
  { rewrite <- !app_assoc. done. }
  assert (List.NoDup (result ++ [x])) as Hndx.
  { apply NoDup_ListNoDup. apply NoDup_ListNoDup in Hnd.
    replace (result ++ x :: queue) with ((result ++ [x]) ++ queue) in Hnd
      by (by rewrite <- app_assoc).
    by apply NoDup_app in Hnd as [? _]. }
  fold fresh.
  constructor.
  - (* no duplicates *)
    rewrite Heq. apply NoDup_ListNoDup, NoDup_app. split; [|split].
    + by apply NoDup_ListNoDup.
    + intros v Hv Hf. apply list_elem_of_In in Hv, Hf.
      destruct (Hfresh v Hf) as [_ Hc]. specialize (Hspent v Hv). lia.
    + apply NoDup_ListNoDup, List.NoDup_filter, (neighborsOf_NoDup workflow).
  - (* members are node ids *)
    intros v Hv. rewrite Heq in Hv. apply in_app_or in Hv as [Hv|Hv].
    + by apply Hids.
    + apply Hnbr. by apply Hfresh.
  - (* the in-degree map *)
    intros v Hv. rewrite processedInto_snoc.
    destruct (JsSet.has v (neighborsOf (buildGraph workflow) x)) eqn:E.
    + apply JsSet_has_In in E. rewrite (Hin v E), (Hdeg v Hv). simpl. f_equal. lia.
    + assert (¬ In v (neighborsOf (buildGraph workflow) x)) as Hn.
      { intros H%JsSet_has_In. congruence. }
      rewrite (Hout v Hn), (Hdeg v Hv). f_equal. lia.
  - (* members have no in-degree left *)
    intros v Hv. rewrite processedInto_snoc.
    rewrite Heq in Hv. apply in_app_or in Hv as [Hv|Hv].
    + specialize (Hspent v Hv). lia.
    + destruct (Hfresh v Hv) as [Hv' Hc].
      apply JsSet_has_In in Hv'. rewrite Hv'. lia.
  - (* queued nodes have all predecessors in the result *)
    intros v [Hv|Hv]%in_app_or u Hu.
    + apply in_or_app. left. apply (Hqueue v); [by right|done].
    + destruct (Hfresh v Hv) as [Hv' Hc].
      apply (all_predecessors_processed v); [done| |done].
      rewrite processedInto_snoc. apply JsSet_has_In in Hv'. rewrite Hv'. lia.
  - (* the result is ordered *)
    intros u v Hu [Hv|[<-|[]]]%in_app_or.
    + apply precedes_app. by apply Horder.
    + exists result, []. split; [done|]. apply (Hqueue x); [by left|done].
Qed.

Lemma kahnLoop_sound fuel :
  ∀ inDegree queue result order,
    kahnInv workflow inDegree queue result →
    kahnLoop fuel (buildGraph workflow) inDegree queue result = Some order →
    ∃ inDegree', kahnInv workflow inDegree' [] order.
Proof.
  induction fuel as [|fuel IH]; intros inDegree queue result order Hinv Hrun.
  - destruct queue; simpl in Hrun; [|done]. injection Hrun as <-. eauto.
  - destruct queue as [|x queue]; simpl in Hrun.
    + injection Hrun as <-. eauto.
    + pose proof (kahnInv_step inDegree x queue result Hinv) as Hstep.
      destruct (fold_left relax (neighborsOf (buildGraph workflow) x) (inDegree, queue))
        as [inDegree' queue'].
      by apply (IH inDegree' queue' (result ++ [x])).
Qed.

Lemma kahnInv_init :
  kahnInv workflow (initInDegree workflow)
    (map fst (List.filter (fun kv => (snd kv =? 0)%Z) (initInDegree workflow))) [].
Proof.
  pose proof (initInDegree_keys workflow Hnodup targets_resolve) as Hkeys.
  assert (∀ v, In v (map fst (List.filter (fun kv : string * Z => (snd kv =? 0)%Z)
                               (initInDegree workflow))) →
            In v (workflowNodeIds workflow) ∧ inDegreeOf workflow v = 0) as Hq.
  { intros v ([k d] & <- & [Hin Hz]%List.filter_In)%in_map_iff. simpl in *.
    assert (In k (workflowNodeIds workflow)) as Hk.
    { rewrite <- Hkeys. unfold JsMap.keys. apply in_map_iff. by exists (k, d). }
    split; [done|].
    pose proof (initInDegree_get workflow targets_resolve k Hk) as Hg.
    assert (JsMap.get k (initInDegree workflow) = Some d) as Hd.
    { apply JsMap_In_get; [|done]. by rewrite Hkeys. }
    rewrite Hd in Hg. injection Hg as ->. apply Z.eqb_eq in Hz. lia. }
  constructor; simpl.
  - apply NoDup_map_fst_filter. fold (JsMap.keys (initInDegree workflow)).
    by rewrite Hkeys.
  - intros v Hv. by apply Hq.
  - intros v Hv. rewrite (initInDegree_get workflow targets_resolve v Hv).
    f_equal. unfold processedInto. simpl. lia.
  - intros v Hv. destruct (Hq v Hv) as [_ ->]. lia.
  - intros v Hv u (c & Hc & Hsrc & Htgt). destruct (Hq v Hv) as [_ Hz].
    assert (In c (incomingConnections workflow v)) as Hc'.
    { apply List.filter_In. split; [done|]. by apply String.eqb_eq. }
    unfold inDegreeOf in Hz.
    destruct (incomingConnections workflow v); [done|]. simpl in Hz. lia.
  - intros u v _ [].
Qed.
End KahnInvariant.

(** X2: when [getWorkflowTopologicalOrder] returns a sequence for a workflow with
    pairwise distinct node ids and resolvable endpoints, the sequence is a
    permutation of the node ids in which the source of every connection comes
    before its target. *)
Theorem getWorkflowTopologicalOrder_sound workflow order :
  List.NoDup (workflowNodeIds workflow) →
  endpointsResolve workflow →
  getWorkflowTopologicalOrder workflow = Some order →
  Permutation order (workflowNodeIds workflow) ∧
  ∀ c, In c (WorkflowConfig.connections workflow) →
    precedes (WorkflowConnection.sourceId c) (WorkflowConnection.targetId c) order.
Proof.
  intros Hnodup Hends Hrun.
  pose proof (getWorkflowTopologicalOrder_run_eq workflow) as Heq.
  rewrite Hrun in Heq. unfold getWorkflowTopologicalOrder_run in Heq.
  destruct (detectWorkflowCycles_run workflow) as [[]|]; [done| |done].
  cbv zeta in Heq.
  destruct (kahnLoop _ _ _ _ _) as [result|] eqn:Hloop; [|done].
  destruct (Nat.eqb_spec (List.length result)
              (List.length (WorkflowConfig.nodes workflow))) as [Hlen|]; [|done].
  injection Heq as ->.
  destruct (kahnLoop_sound workflow Hnodup Hends _ _ _ _ _
              (kahnInv_init workflow Hnodup Hends) Hloop) as [inDegree' Hinv].
  destruct Hinv as [Hnd Hids _ _ _ Horder]. rewrite app_nil_r in Hnd, Hids.
  assert (Permutation order (workflowNodeIds workflow)) as Hperm.
  { apply NoDup_Permutation_bis; [done| |done].
    unfold workflowNodeIds. rewrite length_map. lia. }
  split; [done|]. intros c Hc. apply Horder.
  - by exists c.
  - apply (Permutation_in _ (Permutation_sym Hperm)).
    by apply (targets_resolve workflow Hends).
Qed.


(** ** CrewAI adapter *)

Lemma determineProcessType_sequential workflow :
  sourcesResolve workflow →
  (determineProcessType workflow = CrewAIProcess.sequential ↔ strictChain workflow).
Proof.
  intros Hres. unfold determineProcessType.
  match goal with
  | |- context [existsb ?f ?l || negb (forallb ?g ?m)] =>
      set (hasBranching := existsb f l); set (isLinear := forallb g m)
  end.
  assert (isLinear = true ↔ strictChain workflow) as Hlin.
  { unfold isLinear, strictChain. rewrite forallb_forall.
    split; intros H n Hn; specialize (H n Hn).
    - apply andb_true_iff in H as [H1 H2].
      apply Nat.leb_le in H1, H2. done.
    - destruct H as [H1 H2]. apply andb_true_iff.
      split; apply Nat.leb_le; done. }
  assert (hasBranching = true → ¬ strictChain workflow) as Hbr.
  { unfold hasBranching. intros (c & Hc & Hlen)%existsb_exists Hchain.
    apply Nat.ltb_lt in Hlen.
    destruct (Hres c Hc) as (n & Hn & Hid).
    destruct (Hchain n Hn) as [_ Hout].
    unfold outgoingConnections in Hout. rewrite Hid in Hout. lia. }
  rewrite <- Hlin in *.
  destruct hasBranching; simpl.
  - specialize (Hbr eq_refl). split; [discriminate|done].
  - destruct isLinear; simpl; split; congruence.
Qed.

Lemma determineProcessType_cases workflow :
  determineProcessType workflow = CrewAIProcess.sequential ∨
  determineProcessType workflow = CrewAIProcess.hierarchical.
Proof.
  unfold determineProcessType.
  match goal with |- context [if ?b then _ else _] => destruct b end; auto.
Qed.

Lemma not_strictChain workflow :
  ¬ strictChain workflow ↔
  ∃ n, In n (WorkflowConfig.nodes workflow) ∧
    (1 < List.length (incomingConnections workflow (WorkflowNode.id n)) ∨
     1 < List.length (outgoingConnections workflow (WorkflowNode.id n))).
Proof.
  unfold strictChain. split.
  - intros Hn.
    induction (WorkflowConfig.nodes workflow) as [|n nodes IH].
    + exfalso. apply Hn. intros n [].
    + destruct (le_lt_dec
                  (List.length (incomingConnections workflow (WorkflowNode.id n))) 1);
      destruct (le_lt_dec
                  (List.length (outgoingConnections workflow (WorkflowNode.id n))) 1);
      try (exists n; split; [by left|lia]).
      destruct IH as (n' & Hin & H).
      * intros Hall. apply Hn. intros n' [<-|Hin]; [done|]. by apply Hall.
      * exists n'. split; [by right|done].
  - intros (n & Hin & H) Hall. specialize (Hall n Hin). lia.
Qed.

(** C5: with no [process] option, on a workflow whose connections leave
    existing nodes (Invariant A, which validation establishes), the crew's
    process is sequential if and only if every node has at most one incoming
    and at most one outgoing connection, and hierarchical if and only if some
    node has more than one incoming or more than one outgoing connection. *)
Theorem crew_process_is_sequential_iff_strict_chain
    (workflow : WorkflowConfig.t) (options : CrewAIAdapterOptions.t) :
  CrewAIAdapterOptions.process options = None →
  sourcesResolve workflow →
  let process := CrewAICrew.process (mapWorkflowToCrew workflow options) in
  (process = CrewAIProcess.sequential ↔ strictChain workflow) ∧
  (process = CrewAIProcess.hierarchical ↔
     ∃ n, In n (WorkflowConfig.nodes workflow) ∧
       (1 < List.length (incomingConnections workflow (WorkflowNode.id n)) ∨
        1 < List.length (outgoingConnections workflow (WorkflowNode.id n)))).
Proof.
  intros Hopt Hres. simpl. rewrite Hopt. simpl.
  pose proof (determineProcessType_sequential workflow Hres) as Hseq.
  split; [done|].
  rewrite <- not_strictChain, <- Hseq.
  destruct (determineProcessType_cases workflow) as [-> | ->];
    split; try done; intros H; by destruct H.
Qed.

Lemma crew_process_is_sequential_iff_strict_chain_witness :
  sourcesResolve agentChainWorkflow ∧
  (CrewAICrew.process (mapWorkflowToCrew agentChainWorkflow CrewAIAdapterOptions.none)
     = CrewAIProcess.sequential
   ↔ strictChain agentChainWorkflow).
Proof.
  assert (sourcesResolve agentChainWorkflow) as Hres.
  { intros c [<-|[<-|[]]];
      [exists (inlineNode "n1" "One")|exists (inlineNode "n2" "Two")];
      (split; [simpl; tauto|reflexivity]). }
  split; [exact Hres|].
  exact (proj1 (crew_process_is_sequential_iff_strict_chain agentChainWorkflow
                  CrewAIAdapterOptions.none eq_refl Hres)).
Defined.

(** Scenario 6 of the specification. *)
Example scenario_crew_process :
  CrewAICrew.process (mapWorkflowToCrew agentChainWorkflow CrewAIAdapterOptions.none)
    = CrewAIProcess.sequential ∧
  CrewAICrew.process (mapWorkflowToCrew agentBranchWorkflow CrewAIAdapterOptions.none)
    = CrewAIProcess.hierarchical.
Proof. split; by vm_compute. Qed.

Lemma omap_imap_fst {A B C} (g : nat → A → option (B * C)) (h : A → option B) l :
  (∀ i a, fst <$> g i a = h a) →
  map fst (omap (fun x => x) (imap g l)) = omap h l.
Proof.
  revert g. induction l as [|a l IH]; intros g Hg; simpl; [done|].
  rewrite <- (Hg 0 a).
  destruct (g 0 a) as [[b c]|]; simpl.
  - f_equal. apply IH. intros i a'. apply Hg.
  - apply IH. intros i a'. apply Hg.
Qed.

Lemma omap_imap_Forall {A B} (g : nat → A → option B) (P : B → Prop) l :
  (∀ i a b, g i a = Some b → P b) →
  Forall P (omap (fun x => x) (imap g l)).
Proof.
  revert g. induction l as [|a l IH]; intros g Hg; simpl; [constructor|].
  destruct (g 0 a) as [b|] eqn:E; simpl.
  - constructor; [by eapply Hg|]. apply IH. intros i a' b'. apply Hg.
  - apply IH. intros i a' b'. apply Hg.
Qed.

Lemma omap_filter_agent workflow (f : AgentConfig.t → CrewAIAgent.t) :
  omap (fun n => if NodeType.eqb (WorkflowNode.type n) NodeType.agent
                 then f <$> WorkflowNode.agent n else None)
    (WorkflowConfig.nodes workflow)
  = map f (inlineAgents workflow).
Proof.
  unfold inlineAgents, agentNodes.
  induction (WorkflowConfig.nodes workflow) as [|n l IH]; simpl; [done|].
  destruct (NodeType.eqb (WorkflowNode.type n) NodeType.agent); simpl; [|done].
  destruct (WorkflowNode.agent n); simpl; [by f_equal|done].
Qed.

(** C6, as stated, fails: an agent node that carries only an [agentId] is
    an agent-kind node, and the crew gets no agent and no task for it. *)
Lemma crew_skips_bare_reference_node :
  structurallyValid acceptAnyUrl bareReferenceWorkflow = true ∧
  List.length (agentNodes bareReferenceWorkflow) = 1 ∧
  CrewAICrew.agents
    (mapWorkflowToCrew bareReferenceWorkflow CrewAIAdapterOptions.none) = [] ∧
  CrewAICrew.tasks
    (mapWorkflowToCrew bareReferenceWorkflow CrewAIAdapterOptions.none) = [].
Proof. repeat split. Qed.

(** C6, amended: the crew's agents are the mapped inline descriptors of the
    agent-kind nodes, in node order, each with exactly one paired task that
    names the agent's role; an agent-kind node without an inline descriptor
    yields neither. So the number of crew agents, and of tasks, is the number
    of agent-kind nodes that carry an inline descriptor. *)
Theorem crew_agents_are_inline_agent_nodes
    (workflow : WorkflowConfig.t) (options : CrewAIAdapterOptions.t) :
  let crew := mapWorkflowToCrew workflow options in
  CrewAICrew.agents crew
    = map (fun a => mapAgentToCrewAgent a options) (inlineAgents workflow) ∧
  List.length (CrewAICrew.tasks crew) = List.length (inlineAgents workflow) ∧
  Forall2 (fun a t => CrewAITask.agent t = CrewAIAgent.role a)
    (CrewAICrew.agents crew) (CrewAICrew.tasks crew).
Proof.
  simpl.
  match goal with
  | |- context [omap _ (imap ?g ?l)] => set (pushed := omap (fun x => x) (imap g l))
  end.
  assert (map fst pushed
          = map (fun a => mapAgentToCrewAgent a options) (inlineAgents workflow)) as Hag.
  { rewrite <- omap_filter_agent. apply omap_imap_fst.
    intros i n. unfold crewEntry.
    destruct (NodeType.eqb (WorkflowNode.type n) NodeType.agent); [|done].
    by destruct (WorkflowNode.agent n). }
  split; [done|]. split.
  - rewrite <- (length_map (fun a => mapAgentToCrewAgent a options)), <- Hag.
    by rewrite !length_map.
  - assert (Forall (fun p => CrewAITask.agent (snd p) = CrewAIAgent.role (fst p))
              pushed) as Hp.
    { apply omap_imap_Forall. intros i n [a t]. unfold crewEntry.
      destruct (NodeType.eqb (WorkflowNode.type n) NodeType.agent); [|done].
      destruct (WorkflowNode.agent n); [|done].
      intros [= <- <-]. done. }
    clear Hag. induction Hp as [|[a t] l H Hl IH]; simpl; constructor; done.
Qed.



(** ** LangChain adapter *)

Lemma truthy_spec s : truthy s = true ↔ s ≠ EmptyString.
Proof.
  unfold truthy. destruct (String.eqb_spec s EmptyString); simpl; split; congruence.
Qed.

Lemma carriesCondition_spec c :
  truthy_opt (WorkflowConnection.condition c) = true ↔ carriesCondition c.
Proof.
  unfold carriesCondition, truthy_opt.
  destruct (WorkflowConnection.condition c) as [s|].
  - rewrite truthy_spec. split.
    + intros H. by exists s.
    + intros (l & [= <-] & H). done.
  - split; [done|]. intros (l & H & _). done.
Qed.

Lemma hasConditions_spec outgoing :
  hasConditions outgoing = true ↔ ∃ c, In c outgoing ∧ carriesCondition c.
Proof.
  unfold hasConditions. rewrite existsb_exists.
  split; intros (c & Hin & Hc); exists c; (split; [done|]); by apply carriesCondition_spec.
Qed.

Lemma routeKey_labelled c label :
  WorkflowConnection.condition c = Some label → label ≠ EmptyString →
  routeKey c = label.
Proof.
  unfold routeKey, or_else. intros -> H%truthy_spec. by rewrite H.
Qed.

Lemma routeKey_unlabelled c :
  ¬ carriesCondition c → routeKey c = "default".
Proof.
  unfold routeKey, or_else. intros H.
  destruct (WorkflowConnection.condition c) as [s|] eqn:E; [|done].
  destruct (truthy s) eqn:T; [|done].
  exfalso. apply H. exists s. split; [done|]. by apply truthy_spec.
Qed.

Lemma fromEntries_snoc {V} (l : list (string * V)) k v :
  JsObject.fromEntries (l ++ [(k, v)]) = <[k := v]> (JsObject.fromEntries l).
Proof. unfold JsObject.fromEntries. by rewrite fold_left_app. Qed.

Lemma fromEntries_lookup_last {V} (l1 l2 : list (string * V)) k v :
  (∀ kv, In kv l2 → fst kv ≠ k) →
  JsObject.fromEntries (l1 ++ (k, v) :: l2) !! k = Some v.
Proof.
  induction l2 as [|[k' v'] l2 IH] using rev_ind; intros H.
  - rewrite fromEntries_snoc. apply lookup_insert_eq.
  - replace (l1 ++ (k, v) :: l2 ++ [(k', v')])
      with ((l1 ++ (k, v) :: l2) ++ [(k', v')]) by (by rewrite <- app_assoc).
    rewrite fromEntries_snoc, lookup_insert_ne.
    + apply IH. intros kv Hin. apply H, in_or_app. by left.
    + apply (H (k', v')), in_or_app. right. by left.
Qed.

Lemma fromEntries_lookup_is_Some {V} (l : list (string * V)) k :
  is_Some (JsObject.fromEntries l !! k) ↔ ∃ v, In (k, v) l.
Proof.
  induction l as [|[k' v'] l IH] using rev_ind.
  - unfold JsObject.fromEntries. simpl. rewrite lookup_empty. split.
    + by intros [? ?].
    + by intros [? []].
  - rewrite fromEntries_snoc. destruct (decide (k' = k)) as [->|Hne].
    + rewrite lookup_insert_eq. split; [|by eauto].
      intros _. exists v'. apply in_or_app. right. by left.
    + rewrite lookup_insert_ne by done. rewrite IH. split.
      * intros [v Hin]. exists v. apply in_or_app. by left.
      * intros [v Hin]. apply in_app_or in Hin as [Hin|[[= ? ?]|[]]]; [by eauto|done].
Qed.

Lemma nextOf_fanout workflow nodeId :
  2 ≤ List.length (outgoingConnections workflow nodeId) →
  nextOf workflow nodeId =
    if hasConditions (outgoingConnections workflow nodeId)
    then Some (NextConditional
                 (JsObject.fromEntries
                    (map (fun c => (routeKey c, WorkflowConnection.targetId c))
                       (outgoingConnections workflow nodeId))))
    else Some (NextParallel
                 (map WorkflowConnection.targetId
                    (outgoingConnections workflow nodeId))).
Proof.
  unfold nextOf. destruct (outgoingConnections workflow nodeId) as [|c1 [|c2 r]];
    simpl; intros H; [lia|lia|done].
Qed.

Lemma langGraphNode_next workflow options node :
  LangGraphNode.next (langGraphNode workflow options node)
  = nextOf workflow (WorkflowNode.id node).
Proof.
  unfold langGraphNode.
  destruct (WorkflowNode.type node); try done.
  by destruct (WorkflowNode.agent node).
Qed.

Lemma assign_nodes_lookup {V} (f : WorkflowNode.t → V) nodes :
  ∀ (o : gmap string V) k, k ≠ "__proto__" →
    (∃ n, In n nodes ∧ WorkflowNode.id n = k) →
    ∃ n, In n nodes ∧ WorkflowNode.id n = k ∧
      fold_left (fun o node => JsObject.assign (WorkflowNode.id node) (f node) o)
        nodes o !! k = Some (f n).
Proof.
  induction nodes as [|n nodes IH] using rev_ind; intros o k Hk (n0 & Hin & Hid).
  - destruct Hin.
  - rewrite fold_left_app. simpl. unfold JsObject.assign at 1.
    destruct (String.eqb_spec (WorkflowNode.id n) "__proto__") as [E|E].
    + apply in_app_or in Hin as [Hin|[<-|[]]]; [|congruence].
      destruct (IH o k Hk) as (n1 & Hin1 & Hid1 & Hl); [by eauto|].
      exists n1. split; [apply in_or_app; by left|done].
    + destruct (decide (WorkflowNode.id n = k)) as [Heq|Hne].
      * exists n. split; [apply in_or_app; right; by left|].
        split; [done|]. rewrite Heq. apply lookup_insert_eq.
      * rewrite lookup_insert_ne by done.
        apply in_app_or in Hin as [Hin|[<-|[]]]; [|congruence].
        destruct (IH o k Hk) as (n1 & Hin1 & Hid1 & Hl); [by eauto|].
        exists n1. split; [apply in_or_app; by left|done].
Qed.

(** C4, as stated, fails: the route map does not hold every outgoing
    connection. Node [a] has the connections a to b under the label yes,
    a to c and a to d without a label; the two unlabelled ones share the key
    [default], the map keeps the later target [d], and the target [c] of
    the connection a to c is no value of the map. *)
Lemma fan_out_loses_route_on_shared_key :
  LangGraphNode.next
    (langGraphNode sharedKeyFanOutWorkflow LangChainAdapterOptions.none
       (plainNode "a" NodeType.condition))
  = Some (NextConditional (<["default" := "d"]> (<["yes" := "b"]> ∅))) ∧
  In (edge "c2" "a" "c") (outgoingConnections sharedKeyFanOutWorkflow "a") ∧
  routeKey (edge "c2" "a" "c") = "default" ∧
  WorkflowConnection.targetId (edge "c2" "a" "c") = "c" ∧
  (<["default" := "d"]> (<["yes" := "b"]> ∅) : gmap string string)
    !! routeKey (edge "c2" "a" "c") = Some "d".
Proof.
  split; [reflexivity|]. split; [simpl; tauto|]. split; [reflexivity|].
  split; reflexivity.
Qed.

(** C4, amended: for every node of the workflow with two or more outgoing
    connections, if at least one of them carries a condition label the next
    field is a map whose keys are the condition labels of the outgoing
    connections, with the key default for a connection without one, and
    which binds each key to the target of the last outgoing connection
    that has the key; if none carries a condition it is the array of all
    target ids. The node stored under the id has this next field. *)
Theorem langgraph_fan_out_is_conditional_or_parallel
    (workflow : WorkflowConfig.t) (options : LangChainAdapterOptions.t)
    (node : WorkflowNode.t) :
  In node (WorkflowConfig.nodes workflow) →
  2 ≤ List.length (outgoingConnections workflow (WorkflowNode.id node)) →
  fanOutContract workflow options node.
Proof.
  intros Hin Hlen. unfold fanOutContract.
  rewrite langGraphNode_next, (nextOf_fanout _ _ Hlen).
  set (outgoing := outgoingConnections workflow (WorkflowNode.id node)).
  split; [|split].
  - intros Hc. apply hasConditions_spec in Hc. rewrite Hc.
    eexists. split; [done|]. split; [|split; [|split]].
    + intros k. rewrite fromEntries_lookup_is_Some. split.
      * intros (v & Hv). apply in_map_iff in Hv as (c & [= <- <-] & Hc'). eauto.
      * intros (c & Hc' & <-). exists (WorkflowConnection.targetId c).
        apply in_map_iff. eauto.
    + intros before c after Heq Hafter. rewrite Heq, map_app. simpl.
      apply fromEntries_lookup_last.
      intros kv Hkv. apply in_map_iff in Hkv as (c' & <- & Hc'). simpl. auto.
    + apply routeKey_labelled.
    + apply routeKey_unlabelled.
  - intros Hnone. destruct (hasConditions outgoing) eqn:E; [|done].
    apply hasConditions_spec in E as (c & Hc & Hcc). by destruct (Hnone c).
  - intros Hid. unfold mapWorkflowToLangGraph. simpl.
    destruct (assign_nodes_lookup (langGraphNode workflow options)
                (WorkflowConfig.nodes workflow) ∅ (WorkflowNode.id node) Hid)
      as (n1 & Hin1 & Hid1 & Hl); [by eauto|].
    exists (langGraphNode workflow options n1). split; [done|].
    rewrite langGraphNode_next, Hid1. apply nextOf_fanout. done.
Qed.

Lemma langgraph_fan_out_is_conditional_or_parallel_witness :
  2 ≤ List.length (outgoingConnections mixedFanOutWorkflow "a") ∧
  fanOutContract mixedFanOutWorkflow LangChainAdapterOptions.none
    (plainNode "a" NodeType.condition).
Proof.
  split.
  - vm_compute. lia.
  - apply (langgraph_fan_out_is_conditional_or_parallel mixedFanOutWorkflow
             LangChainAdapterOptions.none (plainNode "a" NodeType.condition)).
    + simpl. tauto.
    + vm_compute. lia.
Defined.

(** Scenario 5 of the specification: one conditioned and one unconditioned
    edge make the fan-out conditional, keyed by the label and by default. *)
Example scenario_mixed_fan_out :
  LangGraphNode.next
    (langGraphNode mixedFanOutWorkflow LangChainAdapterOptions.none
       (plainNode "a" NodeType.condition))
  = Some (NextConditional (<["default" := "c"]> (<["yes" := "b"]> ∅))).
Proof. reflexivity. Qed.

Lemma assign_lookup_eq {V} k (v : V) o :
  k ≠ "__proto__" → JsObject.assign k v o !! k = Some v.
Proof.
  intros H. unfold JsObject.assign.
  destruct (String.eqb_spec k "__proto__"); [done|]. apply lookup_insert_eq.
Qed.

Lemma assign_lookup_ne {V} k k' (v : V) o :
  k ≠ k' → JsObject.assign k v o !! k' = o !! k'.
Proof.
  intros H. unfold JsObject.assign.
  destruct (String.eqb k "__proto__"); [done|]. by apply lookup_insert_ne.
Qed.

Lemma langGraphState_input_output workflow :
  let state := langGraphState workflow in
  LangGraphState.schema state !! "input" = Some (JStr "string") ∧
  LangGraphState.schema state !! "output" = Some (JStr "string") ∧
  LangGraphState.default_ state !! "input" = Some (JStr EmptyString) ∧
  LangGraphState.default_ state !! "output" = Some (JStr EmptyString).
Proof.
  unfold langGraphState. simpl. repeat split.
  - rewrite assign_lookup_ne by done. by apply assign_lookup_eq.
  - by apply assign_lookup_eq.
  - rewrite assign_lookup_ne by done. by apply assign_lookup_eq.
  - by apply assign_lookup_eq.
Qed.

(** C10: for every workflow that declares a variable named input or output,
    the returned state schema maps that name to the type string and the state
    default maps it to the empty string, whatever type and default the
    declaration gave: the two fixed fields are assigned after the declared
    variables. *)
Theorem langgraph_state_fixed_fields_overwrite
    (workflow : WorkflowConfig.t) (options : LangChainAdapterOptions.t)
    (variables : list WorkflowVariable.t) (variable : WorkflowVariable.t) :
  WorkflowConfig.variables workflow = Some variables →
  In variable variables →
  WorkflowVariable.name variable = "input" ∨
  WorkflowVariable.name variable = "output" →
  let state := LangGraphWorkflow.state (mapWorkflowToLangGraph workflow options) in
  LangGraphState.schema state !! WorkflowVariable.name variable
    = Some (JStr "string") ∧
  LangGraphState.default_ state !! WorkflowVariable.name variable
    = Some (JStr EmptyString).
Proof.
  intros _ _ Hname. simpl.
  destruct (langGraphState_input_output workflow) as (H1 & H2 & H3 & H4).
  destruct Hname as [->| ->]; split; assumption.
Qed.

Lemma langgraph_state_fixed_fields_overwrite_witness :
  LangGraphState.schema
    (LangGraphWorkflow.state
       (mapWorkflowToLangGraph inputVariableWorkflow LangChainAdapterOptions.none))
    !! "input" = Some (JStr "string") ∧
  LangGraphState.default_
    (LangGraphWorkflow.state
       (mapWorkflowToLangGraph inputVariableWorkflow LangChainAdapterOptions.none))
    !! "input" = Some (JStr EmptyString).
Proof.
  exact (langgraph_state_fixed_fields_overwrite inputVariableWorkflow
           LangChainAdapterOptions.none
           [WorkflowVariable.mk "input" VariableType.number (Some (JNum 5)) None None]
           (WorkflowVariable.mk "input" VariableType.number (Some (JNum 5)) None None)
           eq_refl (or_introl eq_refl) (or_introl eq_refl)).
Defined.


(** ** n8n adapter *)

Lemma existsb_eqb_In k l : existsb (String.eqb k) l = true ↔ In k l.
Proof.
  rewrite existsb_exists. split.
  - intros (x & Hx & ->%String.eqb_eq). done.
  - intros H. exists k. split; [done|]. apply String.eqb_refl.
Qed.

Lemma get_not_inherited {V} k (o : gmap string V) :
  ¬ In k JsObject.prototypeKeys →
  JsObject.get k o = match o !! k with
                     | Some v => JsObject.Own v
                     | None => JsObject.Undefined
                     end.
Proof.
  intros H. unfold JsObject.get. destruct (o !! k); [done|].
  destruct (existsb (String.eqb k) JsObject.prototypeKeys) eqn:E; [|done].
  by apply existsb_eqb_In in E.
Qed.

Lemma pushConnection_spec fromName toName connections sent :
  ¬ In fromName JsObject.prototypeKeys →
  connections !! fromName = mainOf sent →
  pushConnection fromName toName connections
  = Returns (<[fromName := [sent ++ [N8nConnection.mk toName "main" 0]]]> connections).
Proof.
  intros Hp Hl. unfold pushConnection.
  assert (fromName ≠ "__proto__") as Hne.
  { intros ->. apply Hp. unfold JsObject.prototypeKeys. simpl. tauto. }
  rewrite !(get_not_inherited _ _ Hp), Hl.
  destruct sent as [|c sent]; simpl.
  - unfold JsObject.assign. destruct (String.eqb_spec fromName "__proto__"); [done|].
    rewrite lookup_insert_eq. simpl. by rewrite insert_insert_eq.
  - rewrite Hl. simpl. done.
Qed.

Lemma find_In {A} (f : A → bool) l x : List.find f l = Some x → In x l.
Proof. intros H. by apply find_some in H as [? _]. Qed.

Lemma buildConnections_spec nodes conns :
  avoidsPrototype nodes →
  ∀ connections (sentBefore : string → list N8nConnection.t),
    (∀ name, connections !! name = mainOf (sentBefore name)) →
    ∃ connections',
      buildConnections nodes conns connections = Returns connections' ∧
      ∀ name, connections' !! name
              = mainOf (sentBefore name ++ emittedFrom nodes conns name).
Proof.
  intros Hav. induction conns as [|conn conns IH]; intros connections sentBefore Hinv.
  - exists connections. split; [done|]. intros name.
    unfold emittedFrom. simpl. by rewrite app_nil_r.
  - simpl. unfold connectionStep.
    assert (∀ name, emittedFrom nodes (conn :: conns) name
              = match resolvedEndpoints nodes conn with
                | Some (f, t) =>
                    if String.eqb f name
                    then N8nConnection.mk t "main" 0 :: emittedFrom nodes conns name
                    else emittedFrom nodes conns name
                | None => emittedFrom nodes conns name
                end) as Hem.
    { intros name. unfold emittedFrom. simpl.
      destruct (resolvedEndpoints nodes conn) as [[f t]|]; simpl; [|done].
      destruct (String.eqb f name); done. }
    unfold resolvedEndpoints in Hem.
    destruct (findEndpoint nodes (WorkflowConnection.sourceId conn)) as [fromNode|] eqn:Ef.
    2:{ destruct (IH connections sentBefore Hinv) as (m & -> & Hm).
        exists m. split; [done|]. intros name. by rewrite Hem. }
    destruct (findEndpoint nodes (WorkflowConnection.targetId conn)) as [toNode|] eqn:Et.
    2:{ destruct (IH connections sentBefore Hinv) as (m & -> & Hm).
        exists m. split; [done|]. intros name. by rewrite Hem. }
    rewrite (pushConnection_spec _ _ _ (sentBefore (N8nNode.name fromNode))).
    2:{ apply Hav. eapply find_In, Ef. }
    2:{ apply Hinv. }
    destruct (IH (<[N8nNode.name fromNode :=
                     [sentBefore (N8nNode.name fromNode)
                      ++ [N8nConnection.mk (N8nNode.name toNode) "main" 0]]]> connections)
                 (fun name => if String.eqb (N8nNode.name fromNode) name
                              then sentBefore name
                                   ++ [N8nConnection.mk (N8nNode.name toNode) "main" 0]
                              else sentBefore name))
      as (m & -> & Hm).
    { intros name. destruct (String.eqb_spec (N8nNode.name fromNode) name) as [<-|Hne].
      - rewrite lookup_insert_eq.
        by destruct (sentBefore (N8nNode.name fromNode)).
      - by rewrite lookup_insert_ne. }
    exists m. split; [done|]. intros name. rewrite Hm, Hem.
    destruct (String.eqb (N8nNode.name fromNode) name); [|done].
    by rewrite <- app_assoc.
Qed.

(** The connection step on a workflow whose generated node names stay clear
    of [Object.prototype]: nothing is thrown, a connection with an endpoint
    that matches no generated node leaves no trace, every other connection
    is emitted under the name of its source node. *)
Lemma mapWorkflowToN8n_connections workflow :
  let nodes := map (n8nNode workflow) (WorkflowConfig.nodes workflow) in
  avoidsPrototype nodes →
  ∃ result,
    mapWorkflowToN8n workflow = Returns result ∧
    N8nWorkflow.nodes result = nodes ∧
    ∀ name,
      N8nWorkflow.connections result !! name
      = mainOf (emittedFrom nodes (WorkflowConfig.connections workflow) name).
Proof.
  intros nodes Hav. unfold mapWorkflowToN8n. fold nodes.
  destruct (buildConnections_spec nodes (WorkflowConfig.connections workflow) Hav
              ∅ (fun _ => [])) as (m & -> & Hm).
  { intros name. by rewrite lookup_empty. }
  eexists. split; [done|]. split; [done|]. intros name. apply Hm.
Qed.

(** C8, at the failing input: the workflow has a connection from an id
    that matches no generated node, and an inline agent named constructor
    with one outgoing connection. The malformed connection is skipped; the
    next one reads the inherited property of the connections record, finds
    no [main] on it, and the call throws. *)
Theorem n8n_connection_step_throws_on_prototype_name :
  findEndpoint
    (map (n8nNode reservedNameWorkflow) (WorkflowConfig.nodes reservedNameWorkflow))
    "ghost" = None ∧
  okWorkflowFields acceptAnyUrl reservedNameWorkflow = true ∧
  mapWorkflowToN8n reservedNameWorkflow = Throws "TypeError".
Proof. repeat split; vm_compute; reflexivity. Qed.


(** * Further properties of the code *)

Lemma distinct_NoDup keys : distinct keys = true → List.NoDup keys.
Proof.
  induction keys as [|k keys IH]; simpl; [constructor|].
  intros [Hk Hrest]%andb_true_iff. constructor; [|by apply IH].
  apply negb_true_iff in Hk. rewrite <- existsb_eqb_In. by rewrite Hk.
Qed.

Lemma endpointsResolve_sources workflow :
  endpointsResolve workflow → sourcesResolve workflow.
Proof. intros H c Hc. by destruct (H c Hc). Qed.

Lemma finished_reach graph st u v :
  finishedClosed graph st → u ∈ visited st → u ∉ recursionStack st →
  rtc (adjacent graph) u v → v ∈ visited st ∧ v ∉ recursionStack st.
Proof.
  intros [_ Hcl] Hu Hs Hreach. induction Hreach as [|u w v Huw _ IH]; [done|].
  destruct (Hcl u Hu Hs) as [Hnext _]. destruct (Hnext w Huw). by apply IH.
Qed.

Section DfsCorrect.
Variable graph : JsMap.t JsSet.t.

Lemma visitNeighbors_spec recur nodeId :
  dfs_spec graph recur →
  ∀ neighbors st b st',
    visitNeighbors recur nodeId neighbors st = Some (b, st') →
    (∀ m, In m neighbors → adjacent graph nodeId m) →
    nodeId ∈ recursionStack st → finishedClosed graph st →
    (∀ s, s ∈ recursionStack st → rtc (adjacent graph) s nodeId) →
    if b then ∃ x, tc (adjacent graph) x x
    else ∃ mid,
      st' = mkDfs (visited mid) (recursionStack mid ∖ {[nodeId]}) ∧
      recursionStack mid = recursionStack st ∧
      visited st ⊆ visited mid ∧ finishedClosed graph mid ∧
      ∀ m, In m neighbors → m ∈ visited mid ∧ m ∉ recursionStack mid.
Proof.
  intros Hrec. induction neighbors as [|m rest IH];
    intros st b st' Hrun Hadj Hon Hfin Hreach; simpl in Hrun.
  - injection Hrun as <- <-. exists st. split; [done|]. split; [done|].
    split; [done|]. split; [done|]. by intros m [].
  - assert (∀ x, In x rest → adjacent graph nodeId x) as Hadj'.
    { intros x Hx. apply Hadj. by right. }
    case_bool_decide as Hv; simpl in Hrun.
    + (* already visited *)
      case_bool_decide as Hs.
      * injection Hrun as <- <-. exists nodeId.
        eapply tc_rtc_r; [|by apply Hreach]. apply tc_once, Hadj. by left.
      * specialize (IH st b st' Hrun Hadj' Hon Hfin Hreach).
        destruct b; [done|].
        destruct IH as (mid & -> & Hstack & Hsub & Hfin' & Hrest).
        exists mid. do 4 (split; [done|]).
        intros x [<-|Hx]; [|by apply Hrest].
        split; [set_solver|]. by rewrite Hstack.
    + (* a new node: the recursive call *)
      destruct (recur m st) as [[[] st1]|] eqn:Hcall; [| |done].
      * injection Hrun as <- <-.
        apply (Hrec m st true st1 Hcall Hv Hfin).
        intros s Hs. eapply rtc_r; [by apply Hreach|]. apply Hadj. by left.
      * assert (recursionStack st1 = recursionStack st ∧
                visited st ⊆ visited st1 ∧ m ∈ visited st1 ∧
                finishedClosed graph st1) as (Hstack1 & Hsub1 & Hm1 & Hfin1).
        { apply (Hrec m st false st1 Hcall Hv Hfin).
          intros s Hs. eapply rtc_r; [by apply Hreach|]. apply Hadj. by left. }
        assert (m ∉ recursionStack st) as Hms.
        { intros Hms. apply Hv. destruct Hfin as [Hsub _]. set_solver. }
        specialize (IH st1 b st' Hrun Hadj').
        rewrite Hstack1 in IH. specialize (IH Hon Hfin1 Hreach).
        destruct b; [done|].
        destruct IH as (mid & -> & Hstack & Hsub & Hfin' & Hrest).
        exists mid. split; [done|]. split; [done|].
        split; [set_solver|]. split; [done|].
        intros x [<-|Hx]; [|by apply Hrest].
        split; [set_solver|]. by rewrite Hstack.
Qed.

Lemma hasCycle_spec fuel : dfs_spec graph (hasCycle fuel graph).
Proof.
  induction fuel as [|fuel IH]; intros n st b st' Hrun Hn Hfin Hreach; [done|].
  simpl in Hrun. destruct Hfin as [Hsub Hcl].
  assert (n ∉ recursionStack st) as Hns by set_solver.
  apply (visitNeighbors_spec _ n IH) in Hrun; simpl.
  - destruct b; [done|].
    destruct Hrun as (mid & -> & Hstack & Hvis & Hfin' & Hnbrs).
    simpl in *.
    assert (recursionStack mid ∖ {[n]} = recursionStack st) as Heq.
    { rewrite Hstack. set_solver. }
    rewrite Heq. split; [done|]. split; [set_solver|]. split; [set_solver|].
    destruct Hfin' as [Hsub' Hcl'].
    split; simpl; [rewrite Hstack in Hsub'; set_solver|].
    intros u Hu Hus. destruct (decide (u = n)) as [->|Hne].
    + (* the node that has just finished *)
      split.
      * intros v Hv. destruct (Hnbrs v Hv) as [? Hvs]. split; [done|].
        rewrite Hstack in Hvs. set_solver.
      * intros Hcyc.
        assert (∃ m, adjacent graph n m ∧ rtc (adjacent graph) m n)
          as (m & Hnm & Hmn).
        { inversion Hcyc as [? ? H1|? m ? H1 H2]; subst.
          - exists n. split; [done|]. apply rtc_refl.
          - exists m. split; [done|]. by apply tc_rtc. }
        destruct (Hnbrs m Hnm) as [Hmv Hms].
        destruct (finished_reach graph mid m n (conj Hsub' Hcl') Hmv Hms Hmn)
          as [_ Hfalse].
        apply Hfalse. rewrite Hstack. set_solver.
    + assert (u ∉ recursionStack mid) as Hum.
      { rewrite Hstack. set_solver. }
      destruct (Hcl' u Hu Hum) as [Hnext Hacyc]. split; [|done].
      intros v Hv. destruct (Hnext v Hv) as [? Hvs]. split; [done|].
      rewrite Hstack in Hvs. set_solver.
  - by intros m Hm.
  - set_solver.
  - split; simpl; [set_solver|].
    intros u Hu Hus.
    assert (u ∈ visited st) as Huv by set_solver.
    assert (u ∉ recursionStack st) as Hust by set_solver.
    destruct (Hcl u Huv Hust) as [Hnext Hacyc]. split; [|done].
    intros v Hv. destruct (Hnext v Hv) as [Hvv Hvs]. split; [set_solver|].
    intros [->%elem_of_singleton|?]%elem_of_union; done.
  - intros s [->%elem_of_singleton|Hs]%elem_of_union; [apply rtc_refl|].
    by apply Hreach.
Qed.

Lemma detectLoop_spec fuel keys :
  ∀ st b, detectLoop fuel graph keys st = Some b →
    recursionStack st = ∅ → finishedClosed graph st →
    if b then ∃ x, tc (adjacent graph) x x
    else ∀ u, (u ∈ visited st ∨ In u keys) → ¬ tc (adjacent graph) u u.
Proof.
  induction keys as [|k rest IH]; intros st b Hrun Hstack Hfin; simpl in Hrun.
  - injection Hrun as <-. intros u [Hu|[]].
    destruct Hfin as [_ Hcl]. apply (Hcl u Hu). rewrite Hstack. set_solver.
  - case_bool_decide as Hv; simpl in Hrun.
    + specialize (IH st b Hrun Hstack Hfin). destruct b; [done|].
      intros u [Hu|[<-|Hu]]; apply IH; auto.
    + destruct (hasCycle fuel graph k st) as [[[] st1]|] eqn:Hcall; [| |done].
      * injection Hrun as <-.
        apply (hasCycle_spec fuel k st true st1 Hcall Hv Hfin).
        intros s Hs. rewrite Hstack in Hs. set_solver.
      * assert (recursionStack st1 = recursionStack st ∧
                visited st ⊆ visited st1 ∧ k ∈ visited st1 ∧
                finishedClosed graph st1) as (Hstack1 & Hsub1 & Hk1 & Hfin1).
        { apply (hasCycle_spec fuel k st false st1 Hcall Hv Hfin).
          intros s Hs. rewrite Hstack in Hs. set_solver. }
        rewrite Hstack in Hstack1.
        specialize (IH st1 b Hrun Hstack1 Hfin1). destruct b; [done|].
        intros u [Hu|[<-|Hu]]; apply IH; auto.
Qed.
End DfsCorrect.

(** The adjacency map holds the connections that leave a node. *)
Lemma neighborsOf_connects workflow u x :
  adjacent (buildGraph workflow) u x
  ↔ In u (workflowNodeIds workflow) ∧ connects workflow u x.
Proof.
  unfold adjacent, buildGraph, neighborsOf, connects.
  destruct (emptyGraph_spec (WorkflowConfig.nodes workflow)) as (H1 & H2 & _).
  destruct (buildGraph_prefix workflow (WorkflowConfig.connections workflow)
              _ H1 H2) as (_ & Hn & Hs).
  destruct (in_dec string_dec u (workflowNodeIds workflow)) as [Hu|Hu].
  - destruct (Hs u Hu) as (s & -> & _ & Hin). rewrite Hin. tauto.
  - rewrite (Hn u Hu). simpl. tauto.
Qed.

Lemma adjacent_is_key graph u v :
  adjacent graph u v → In u (JsMap.keys graph).
Proof.
  unfold adjacent, neighborsOf. intros H. apply JsMap_get_In_keys.
  by destruct (JsMap.get u graph).
Qed.

(** [detectWorkflowCycles] is right about the adjacency map it builds. *)
Lemma detectWorkflowCycles_adjacent workflow :
  detectWorkflowCycles workflow = true
  ↔ ∃ x, tc (adjacent (buildGraph workflow)) x x.
Proof.
  pose proof (detectWorkflowCycles_run_eq workflow) as Hrun.
  unfold detectWorkflowCycles_run in Hrun.
  apply detectLoop_spec in Hrun; [| done |].
  - destruct (detectWorkflowCycles workflow); [done|].
    split; [done|]. intros [x Hx]. exfalso. apply (Hrun x); [|done].
    right. inversion Hx; subst; by eapply adjacent_is_key.
  - split; simpl; [done|]. intros u Hu. set_solver.
Qed.

Lemma adjacent_connects workflow :
  sourcesResolve workflow →
  ∀ u v, adjacent (buildGraph workflow) u v ↔ connects workflow u v.
Proof.
  intros Hsrc u v. rewrite neighborsOf_connects. split; [tauto|].
  intros Hc. split; [|done]. destruct Hc as (c & Hc & <- & _).
  destruct (Hsrc c Hc) as (n & Hn & <-). unfold workflowNodeIds.
  apply in_map_iff. eauto.
Qed.

Lemma detectWorkflowCycles_spec workflow :
  sourcesResolve workflow →
  detectWorkflowCycles workflow = true ↔ hasDirectedCycle workflow.
Proof.
  intros Hsrc. rewrite detectWorkflowCycles_adjacent. unfold hasDirectedCycle.
  pose proof (adjacent_connects workflow Hsrc) as Heq.
  split; intros [x Hx]; exists x.
  - eapply tc_congruence with (f := fun x => x); [|exact Hx].
    intros ? ?. apply Heq.
  - eapply tc_congruence with (f := fun x => x); [|exact Hx].
    intros ? ?. apply Heq.
Qed.

(** X1: when every connection leaves a node of the workflow,
    [detectWorkflowCycles] returns true exactly when the connections contain
    a directed cycle. *)
Theorem detectWorkflowCycles_iff_directed_cycle workflow :
  sourcesResolve workflow →
  detectWorkflowCycles workflow = true ↔ hasDirectedCycle workflow.
Proof. apply detectWorkflowCycles_spec. Qed.

Lemma detectWorkflowCycles_iff_directed_cycle_witness :
  sourcesResolve twoNodeCycle ∧
  (detectWorkflowCycles twoNodeCycle = true ↔ hasDirectedCycle twoNodeCycle).
Proof.
  assert (sourcesResolve twoNodeCycle) as Hsrc.
  { apply endpointsResolve_sources, connectionsReferenceNodes_spec.
    vm_compute. reflexivity. }
  split; [exact Hsrc|].
  exact (detectWorkflowCycles_iff_directed_cycle twoNodeCycle Hsrc).
Defined.

(** *** Kahn's loop leaves no node of an acyclic workflow out *)

(** In a finite set in which every member is reached from a member, some
    member reaches itself. *)
Lemma backward_closed_cycle {A} (R : relation A) (l : list A) :
  l ≠ [] → (∀ v, In v l → ∃ u, In u l ∧ tc R u v) → ∃ x, tc R x x.
Proof.
  induction l as [|x l IH]; intros Hne Hpred; [done|].
  destruct (Hpred x ltac:(by left)) as (p & [<-|Hp] & Hpx); [by exists x|].
  apply IH.
  - by destruct l.
  - intros v Hv. destruct (Hpred v ltac:(by right)) as (q & [<-|Hq] & Hqv).
    + exists p. split; [done|]. by etrans.
    + by exists q.
Qed.

Lemma fold_relax_ready workflow x inDegree queue result :
  List.NoDup (neighborsOf (buildGraph workflow) x) →
  kahnReady workflow inDegree (x :: queue) result →
  let '(inDegree', queue') :=
    fold_left relax (neighborsOf (buildGraph workflow) x) (inDegree, queue) in
  kahnReady workflow inDegree' queue' (result ++ [x]).
Proof.
  intros Hnd Hready.
  pose proof (fold_relax_spec _ Hnd inDegree queue) as Hfold.
  destruct (fold_left relax (neighborsOf (buildGraph workflow) x) (inDegree, queue))
    as [inDegree' queue'].
  destruct Hfold as (Hout & Hin & ->).
  intros v Hv Hzero.
  destruct (in_dec string_dec v (neighborsOf (buildGraph workflow) x)) as [Hn|Hn].
  - rewrite (Hin v Hn) in Hzero. injection Hzero as Hzero.
    apply in_or_app. right. apply in_or_app. right.
    apply List.filter_In. split; [done|]. by apply Z.eqb_eq.
  - rewrite (Hout v Hn) in Hzero.
    apply Hready in Hzero; [|done].
    rewrite <- app_assoc. simpl.
    apply in_app_or in Hzero as [?|[<-|?]]; apply in_or_app; auto.
    + right. by left.
    + right. right. apply in_or_app. by left.
Qed.

Section KahnComplete.
Variable workflow : WorkflowConfig.t.
Hypothesis Hnodup : List.NoDup (workflowNodeIds workflow).
Hypothesis Hres : endpointsResolve workflow.

Lemma kahnLoop_ready fuel :
  ∀ inDegree queue result order,
    kahnInv workflow inDegree queue result →
    kahnReady workflow inDegree queue result →
    kahnLoop fuel (buildGraph workflow) inDegree queue result = Some order →
    ∃ inDegree', kahnInv workflow inDegree' [] order ∧
                 kahnReady workflow inDegree' [] order.
Proof.
  induction fuel as [|fuel IH]; intros inDegree queue result order Hinv Hready Hrun.
  - destruct queue; simpl in Hrun; [|done]. injection Hrun as <-. eauto.
  - destruct queue as [|x queue]; simpl in Hrun.
    + injection Hrun as <-. eauto.
    + pose proof (kahnInv_step workflow Hnodup Hres inDegree x queue result Hinv)
        as Hstep.
      pose proof (fold_relax_ready workflow x inDegree queue result
                    (neighborsOf_NoDup workflow x) Hready) as Hstep'.
      destruct (fold_left relax (neighborsOf (buildGraph workflow) x) (inDegree, queue))
        as [inDegree' queue'].
      by apply (IH inDegree' queue' (result ++ [x])).
Qed.

Lemma kahnReady_init :
  kahnReady workflow (initInDegree workflow)
    (map fst (List.filter (fun kv => (snd kv =? 0)%Z) (initInDegree workflow))) [].
Proof.
  intros v Hv Hzero. simpl. apply JsMap_get_In in Hzero.
  apply in_map_iff. exists (v, 0%Z). split; [done|].
  apply List.filter_In. by split.
Qed.

Hypothesis Hsimple : simpleConnections workflow.

Lemma incoming_sources_NoDup v :
  List.NoDup (map WorkflowConnection.sourceId (incomingConnections workflow v)).
Proof.
  unfold incomingConnections. unfold simpleConnections in Hsimple.
  induction (WorkflowConfig.connections workflow) as [|c conns IH]; simpl.
  - constructor.
  - simpl in Hsimple. apply List.NoDup_cons_iff in Hsimple as [Hc Hrest].
    destruct (String.eqb_spec (WorkflowConnection.targetId c) v) as [Heq|Hne];
      [|by apply IH].
    simpl. constructor; [|by apply IH].
    intros (c' & Hsrc & [Hc' Htgt]%List.filter_In)%in_map_iff.
    apply String.eqb_eq in Htgt. apply Hc. apply in_map_iff.
    exists c'. split; [|done]. congruence.
Qed.

(** Once every predecessor of [v] has been processed, the counter of [v] has
    been decremented once per connection into [v]. *)
Lemma processedInto_all v result :
  List.NoDup result →
  (∀ u, connects workflow u v → In u result) →
  processedInto (buildGraph workflow) v result = inDegreeOf workflow v.
Proof.
  intros Hnd Hall. unfold processedInto, inDegreeOf.
  rewrite <- (length_map WorkflowConnection.sourceId (incomingConnections workflow v)).
  apply Permutation_length, Permutation.NoDup_Permutation.
  - by apply List.NoDup_filter.
  - apply incoming_sources_NoDup.
  - intros u. rewrite List.filter_In, (has_neighbor workflow Hnodup Hres).
    split.
    + intros [_ (c & Hc & Hsrc & Htgt)]. apply in_map_iff. exists c.
      split; [done|]. apply List.filter_In. split; [done|]. by apply String.eqb_eq.
    + intros (c & Hsrc & [Hc Htgt]%List.filter_In)%in_map_iff.
      apply String.eqb_eq in Htgt.
      assert (connects workflow u v) as Hconn by (by exists c).
      split; [by apply Hall|done].
Qed.

Lemma kahn_leftover_has_cycle inDegree order :
  kahnInv workflow inDegree [] order →
  kahnReady workflow inDegree [] order →
  (∃ v, In v (workflowNodeIds workflow) ∧ ¬ In v order) →
  hasDirectedCycle workflow.
Proof.
  intros [Hnd Hids Hdeg _ _ _] Hready (v0 & Hv0 & Hout0).
  rewrite app_nil_r in Hnd, Hids.
  set (left := List.filter (fun v => negb (JsSet.has v order))
                 (workflowNodeIds workflow)).
  assert (∀ v, In v left ↔ In v (workflowNodeIds workflow) ∧ ¬ In v order) as Hleft.
  { intros v. unfold left. rewrite List.filter_In, negb_true_iff.
    rewrite <- not_true_iff_false, JsSet_has_In. done. }
  apply (backward_closed_cycle (connects workflow) left).
  - intros Hnil. assert (In v0 left) as H by (by apply Hleft). by rewrite Hnil in H.
  - intros v [Hv Hout]%Hleft.
    set (sources := map WorkflowConnection.sourceId (incomingConnections workflow v)).
    assert (∀ u, In u sources ↔ connects workflow u v) as Hsources.
    { intros u. unfold sources, incomingConnections. rewrite in_map_iff. split.
      - intros (c & Hsrc & [Hc Htgt]%List.filter_In). apply String.eqb_eq in Htgt.
        by exists c.
      - intros (c & Hc & Hsrc & Htgt). exists c. split; [done|].
        apply List.filter_In. split; [done|]. by apply String.eqb_eq. }
    destruct (List.Exists_dec (fun u => ¬ In u order) sources) as [Hex|Hnone].
    { intros u. destruct (in_dec string_dec u order); [right|left]; tauto. }
    { apply List.Exists_exists in Hex as (u & Hu & Hn). apply Hsources in Hu.
      exists u. split; [|by apply tc_once]. apply Hleft. split; [|done].
      destruct Hu as (c & Hc & <- & _). by apply (sources_resolve workflow Hres). }
    exfalso. apply Hout.
    assert (∀ u, connects workflow u v → In u order) as Hall.
    { intros u Huv. destruct (in_dec string_dec u order) as [?|Hn]; [done|].
      exfalso. apply Hnone, List.Exists_exists. exists u. split; [|done].
      by apply Hsources. }
    pose proof (processedInto_all v order Hnd Hall) as Hcount.
    specialize (Hdeg v Hv). rewrite Hcount, Z.sub_diag in Hdeg.
    specialize (Hready v Hv Hdeg). by rewrite app_nil_r in Hready.
Qed.
End KahnComplete.

Lemma getWorkflowTopologicalOrder_complete workflow :
  List.NoDup (workflowNodeIds workflow) →
  endpointsResolve workflow →
  simpleConnections workflow →
  ¬ hasDirectedCycle workflow →
  is_Some (getWorkflowTopologicalOrder workflow).
Proof.
  intros Hnodup Hres Hsimple Hacyclic.
  pose proof (getWorkflowTopologicalOrder_run_eq workflow) as Heq.
  unfold getWorkflowTopologicalOrder_run in Heq.
  rewrite detectWorkflowCycles_run_eq in Heq.
  destruct (detectWorkflowCycles workflow) eqn:Hdetect.
  { exfalso. apply Hacyclic.
    by apply (detectWorkflowCycles_spec workflow (endpointsResolve_sources _ Hres)). }
  cbv zeta in Heq.
  destruct (kahnLoop _ _ _ _ _) as [result|] eqn:Hloop; [|done].
  destruct (kahnLoop_ready workflow Hnodup Hres _ _ _ _ _
              (kahnInv_init workflow Hnodup Hres) (kahnReady_init workflow) Hloop)
    as (inDegree' & Hinv & Hready).
  destruct (Nat.eqb_spec (List.length result)
              (List.length (WorkflowConfig.nodes workflow))) as [Hlen|Hlen].
  { injection Heq as <-. done. }
  exfalso. apply Hacyclic.
  apply (kahn_leftover_has_cycle workflow Hnodup Hres Hsimple inDegree' result Hinv Hready).
  destruct (List.Exists_dec (fun v => ¬ In v result) (workflowNodeIds workflow))
    as [Hex|Hnone].
  { intros v. destruct (in_dec string_dec v result); [right|left]; tauto. }
  { apply List.Exists_exists in Hex as (v & Hv & Hn). eauto. }
  exfalso. apply Hlen.
  destruct Hinv as [Hnd Hids _ _ _ _]. rewrite app_nil_r in Hnd, Hids.
  rewrite <- (length_map WorkflowNode.id (WorkflowConfig.nodes workflow)).
  apply Permutation_length, Permutation.NoDup_Permutation; [done|done|].
  intros v. split; [apply Hids|]. intros Hv.
  destruct (in_dec string_dec v result) as [?|Hn]; [done|].
  exfalso. apply Hnone, List.Exists_exists. eauto.
Qed.

(** X3: for a workflow with pairwise distinct node ids, resolvable endpoints
    and no two connections between the same pair of nodes,
    [getWorkflowTopologicalOrder] returns [null] exactly when the connections
    contain a directed cycle. *)
Theorem getWorkflowTopologicalOrder_null_iff_cycle workflow :
  List.NoDup (workflowNodeIds workflow) →
  endpointsResolve workflow →
  simpleConnections workflow →
  getWorkflowTopologicalOrder workflow = None ↔ hasDirectedCycle workflow.
Proof.
  intros Hnodup Hres Hsimple.
  pose proof (detectWorkflowCycles_spec workflow (endpointsResolve_sources _ Hres))
    as Hdetect.
  split.
  - intros Hnone. apply Hdetect.
    destruct (detectWorkflowCycles workflow) eqn:E; [done|].
    assert (¬ hasDirectedCycle workflow) as Hacyclic.
    { rewrite <- Hdetect. done. }
    destruct (getWorkflowTopologicalOrder_complete workflow Hnodup Hres Hsimple
                Hacyclic) as [order Horder].
    congruence.
  - intros Hcycle. apply getWorkflowTopologicalOrder_null_on_detected_cycle.
    by apply Hdetect.
Qed.

Lemma getWorkflowTopologicalOrder_null_iff_cycle_witness :
  List.NoDup (workflowNodeIds twoNodeCycle) ∧
  endpointsResolve twoNodeCycle ∧
  simpleConnections twoNodeCycle ∧
  (getWorkflowTopologicalOrder twoNodeCycle = None ↔ hasDirectedCycle twoNodeCycle).
Proof.
  assert (List.NoDup (workflowNodeIds twoNodeCycle)) as Hnodup.
  { apply distinct_NoDup. vm_compute. reflexivity. }
  assert (endpointsResolve twoNodeCycle) as Hres.
  { apply connectionsReferenceNodes_spec. vm_compute. reflexivity. }
  assert (simpleConnections twoNodeCycle) as Hsimple.
  { apply NoDup_ListNoDup, (bool_decide_unpack _). vm_compute. exact I. }
  split; [exact Hnodup|]. split; [exact Hres|]. split; [exact Hsimple|].
  exact (getWorkflowTopologicalOrder_null_iff_cycle twoNodeCycle Hnodup Hres Hsimple).
Defined.

Lemma getWorkflowTopologicalOrder_sound_witness :
  List.NoDup (workflowNodeIds chainWorkflow) ∧
  endpointsResolve chainWorkflow ∧
  getWorkflowTopologicalOrder chainWorkflow = Some ["a"; "b"; "c"] ∧
  Permutation ["a"; "b"; "c"] (workflowNodeIds chainWorkflow) ∧
  ∀ c, In c (WorkflowConfig.connections chainWorkflow) →
    precedes (WorkflowConnection.sourceId c) (WorkflowConnection.targetId c)
      ["a"; "b"; "c"].
Proof.
  assert (List.NoDup (workflowNodeIds chainWorkflow)) as Hnodup.
  { apply distinct_NoDup. vm_compute. reflexivity. }
  assert (endpointsResolve chainWorkflow) as Hres.
  { apply connectionsReferenceNodes_spec. vm_compute. reflexivity. }
  assert (getWorkflowTopologicalOrder chainWorkflow = Some ["a"; "b"; "c"]) as Hrun.
  { vm_compute. reflexivity. }
  split; [exact Hnodup|]. split; [exact Hres|]. split; [exact Hrun|].
  exact (getWorkflowTopologicalOrder_sound chainWorkflow ["a"; "b"; "c"]
           Hnodup Hres Hrun).
Defined.

(** ** Topological order: repeated node ids, no connections *)

Lemma JsMap_set_keys_NoDup {V} k (v : V) m :
  List.NoDup (JsMap.keys m) → List.NoDup (JsMap.keys (JsMap.set k v m)).
Proof.
  intros Hnd. destruct (in_dec string_dec k (JsMap.keys m)) as [Hin|Hnot].
  - by rewrite JsMap_keys_set_old.
  - rewrite JsMap_keys_set_new by done.
    apply NoDup_ListNoDup, NoDup_app. split; [by apply NoDup_ListNoDup|].
    split; [|apply NoDup_singleton].
    intros x Hx ->%list_elem_of_singleton. by apply list_elem_of_In in Hx.
Qed.

Lemma initInDegree_keys_NoDup workflow :
  List.NoDup (JsMap.keys (initInDegree workflow)).
Proof.
  unfold initInDegree. cbv zeta.
  assert (∀ {A} (f : JsMap.t Z → A → JsMap.t Z) l d0,
            (∀ d a, List.NoDup (JsMap.keys d) → List.NoDup (JsMap.keys (f d a))) →
            List.NoDup (JsMap.keys d0) → List.NoDup (JsMap.keys (fold_left f l d0)))
    as Hfold.
  { intros A f l. induction l as [|a l IH]; intros d0 Hf Hd; simpl; [done|].
    apply IH; [done|]. by apply Hf. }
  apply Hfold.
  - intros d c. apply JsMap_set_keys_NoDup.
  - apply Hfold; [|constructor]. intros d n. apply JsMap_set_keys_NoDup.
Qed.

Section KahnRepeatedIds.
Variable workflow : WorkflowConfig.t.
Hypothesis Hres : endpointsResolve workflow.

Lemma initInDegree_known v d :
  JsMap.get v (initInDegree workflow) = Some d →
  In v (workflowNodeIds workflow) ∧ d = Z.of_nat (inDegreeOf workflow v).
Proof.
  intros Hget.
  pose proof (initInDegree_get workflow (targets_resolve workflow Hres) v) as Hin.
  unfold initInDegree in Hget. cbv zeta in Hget.
  destruct (zeroDegree_spec (WorkflowConfig.nodes workflow)) as (H1 & H2 & _).
  destruct (initInDegree_prefix workflow (WorkflowConfig.connections workflow) _
              (targets_resolve workflow Hres) H1 H2) as (_ & Hn & _).
  destruct (in_dec string_dec v (workflowNodeIds workflow)) as [Hv|Hv].
  - split; [done|]. specialize (Hin Hv). unfold initInDegree in Hin. cbv zeta in Hin.
    congruence.
  - rewrite (Hn v Hv) in Hget. done.
Qed.

Lemma kahnQueuedOnce_init :
  kahnQueuedOnce workflow (initInDegree workflow)
    (map fst (List.filter (fun kv => (snd kv =? 0)%Z) (initInDegree workflow))) [].
Proof.
  split; simpl.
  - apply NoDup_map_fst_filter. apply initInDegree_keys_NoDup.
  - intros v ([k d] & <- & [Hin Hz]%List.filter_In)%in_map_iff. simpl in *.
    apply Z.eqb_eq in Hz. subst d.
    apply JsMap_In_get in Hin; [|apply initInDegree_keys_NoDup].
    rewrite Hin. simpl. split; [|lia]. by destruct (initInDegree_known k 0%Z Hin).
Qed.

Lemma kahnQueuedOnce_step inDegree x queue result :
  kahnQueuedOnce workflow inDegree (x :: queue) result →
  let '(inDegree', queue') :=
    fold_left relax (neighborsOf (buildGraph workflow) x) (inDegree, queue) in
  kahnQueuedOnce workflow inDegree' queue' (result ++ [x]).
Proof.
  intros [Hnd Hmem].
  pose proof (fold_relax_spec _ (neighborsOf_NoDup workflow x) inDegree queue) as Hfold.
  destruct (fold_left relax (neighborsOf (buildGraph workflow) x) (inDegree, queue))
    as [inDegree' queue'].
  destruct Hfold as (Hout & Hin & ->).
  set (fresh := List.filter
                  (fun v => (default 0%Z (JsMap.get v inDegree) - 1 =? 0)%Z)
                  (neighborsOf (buildGraph workflow) x)).
  assert ((result ++ [x]) ++ queue ++ fresh = (result ++ x :: queue) ++ fresh) as Heq.
  { by rewrite <- !app_assoc. }
  unfold kahnQueuedOnce. rewrite Heq.
  assert (∀ v, In v fresh →
            In v (neighborsOf (buildGraph workflow) x) ∧
            default 0%Z (JsMap.get v inDegree) = 1%Z) as Hfresh.
  { intros v [Hv Hz]%List.filter_In. split; [done|]. apply Z.eqb_eq in Hz. lia. }
  split.
  - apply NoDup_ListNoDup, NoDup_app. split; [by apply NoDup_ListNoDup|].
    split; [|by apply NoDup_ListNoDup, List.NoDup_filter, neighborsOf_NoDup].
    intros v Hv Hf. apply list_elem_of_In in Hv, Hf.
    destruct (Hmem v Hv) as [_ Hle]. destruct (Hfresh v Hf) as [_ Hone]. lia.
  - intros v [Hv|Hv]%in_app_or.
    + destruct (Hmem v Hv) as [Hid Hle]. split; [done|].
      destruct (in_dec string_dec v (neighborsOf (buildGraph workflow) x)) as [Hn|Hn].
      * rewrite (Hin v Hn). simpl. lia.
      * by rewrite (Hout v Hn).
    + destruct (Hfresh v Hv) as [Hn Hone]. split.
      * apply (neighborsOf_connects workflow x v) in Hn as [_ (c & Hc & _ & <-)].
        by apply (targets_resolve workflow Hres).
      * rewrite (Hin v Hn). simpl. lia.
Qed.

Lemma kahnLoop_queuedOnce fuel :
  ∀ inDegree queue result order,
    kahnQueuedOnce workflow inDegree queue result →
    kahnLoop fuel (buildGraph workflow) inDegree queue result = Some order →
    List.NoDup order ∧ ∀ v, In v order → In v (workflowNodeIds workflow).
Proof.
  induction fuel as [|fuel IH]; intros inDegree queue result order Hinv Hrun.
  - destruct queue; simpl in Hrun; [|done]. injection Hrun as <-.
    destruct Hinv as [Hnd Hmem]. rewrite app_nil_r in Hnd, Hmem.
    split; [done|]. intros v Hv. by destruct (Hmem v Hv).
  - destruct queue as [|x queue]; simpl in Hrun.
    + injection Hrun as <-. destruct Hinv as [Hnd Hmem].
      rewrite app_nil_r in Hnd, Hmem. split; [done|].
      intros v Hv. by destruct (Hmem v Hv).
    + pose proof (kahnQueuedOnce_step inDegree x queue result Hinv) as Hstep.
      destruct (fold_left relax (neighborsOf (buildGraph workflow) x) (inDegree, queue))
        as [inDegree' queue'].
      by apply (IH inDegree' queue' (result ++ [x])).
Qed.
End KahnRepeatedIds.

(** X22: for a workflow whose connection endpoints are node ids,
    [getWorkflowTopologicalOrder] returns [null] whenever two nodes share an
    id, with or without a cycle; what it returns otherwise never lists an id
    twice. *)
Theorem getWorkflowTopologicalOrder_null_on_repeated_id workflow :
  endpointsResolve workflow →
  (¬ List.NoDup (workflowNodeIds workflow) →
   getWorkflowTopologicalOrder workflow = None) ∧
  (∀ order, getWorkflowTopologicalOrder workflow = Some order →
     List.NoDup order ∧ List.NoDup (workflowNodeIds workflow)).
Proof.
  intros Hres.
  assert (∀ order, getWorkflowTopologicalOrder workflow = Some order →
            List.NoDup order ∧ List.NoDup (workflowNodeIds workflow)) as Hsome.
  { intros order Hrun.
    pose proof (getWorkflowTopologicalOrder_run_eq workflow) as Heq.
    rewrite Hrun in Heq. unfold getWorkflowTopologicalOrder_run in Heq.
    destruct (detectWorkflowCycles_run workflow) as [[]|]; [done| |done].
    cbv zeta in Heq.
    destruct (kahnLoop _ _ _ _ _) as [result|] eqn:Hloop; [|done].
    destruct (Nat.eqb_spec (List.length result)
                (List.length (WorkflowConfig.nodes workflow))) as [Hlen|]; [|done].
    injection Heq as ->.
    destruct (kahnLoop_queuedOnce workflow Hres _ _ _ _ _
                (kahnQueuedOnce_init workflow Hres) Hloop) as [Hnd Hids].
    split; [done|].
    apply (NoDup_incl_NoDup Hnd); [|done].
    unfold workflowNodeIds. rewrite length_map. lia. }
  split; [|done]. intros Hdup.
  destruct (getWorkflowTopologicalOrder workflow) as [order|] eqn:E; [|done].
  destruct (Hsome order eq_refl) as [_ Hnd]. done.
Qed.

Lemma getWorkflowTopologicalOrder_null_on_repeated_id_witness :
  endpointsResolve sharedIdWorkflow ∧
  ¬ List.NoDup (workflowNodeIds sharedIdWorkflow) ∧
  detectWorkflowCycles sharedIdWorkflow = false ∧
  getWorkflowTopologicalOrder sharedIdWorkflow = None.
Proof.
  assert (endpointsResolve sharedIdWorkflow) as Hres.
  { apply connectionsReferenceNodes_spec. vm_compute. reflexivity. }
  assert (¬ List.NoDup (workflowNodeIds sharedIdWorkflow)) as Hdup.
  { intros Hnd. apply List.NoDup_cons_iff in Hnd as [Hnot _]. apply Hnot. by left. }
  split; [exact Hres|]. split; [exact Hdup|]. split; [vm_compute; reflexivity|].
  exact (proj1 (getWorkflowTopologicalOrder_null_on_repeated_id sharedIdWorkflow Hres)
           Hdup).
Defined.

(** *** No connections *)

Lemma kahnLoop_no_neighbors graph inDegree :
  (∀ x, neighborsOf graph x = []) →
  ∀ queue fuel result, List.length queue ≤ fuel →
    kahnLoop fuel graph inDegree queue result = Some (result ++ queue).
Proof.
  intros Hnone. induction queue as [|x queue IH]; intros fuel result Hfuel.
  - destruct fuel; simpl; by rewrite app_nil_r.
  - destruct fuel as [|fuel]; simpl in *; [lia|].
    rewrite Hnone. simpl. rewrite IH by lia. by rewrite <- app_assoc.
Qed.

(** X23: on a workflow without connections, [detectWorkflowCycles] returns
    false, [findDisconnectedNodes] returns every node id, and, when the node
    ids are pairwise distinct, [getWorkflowTopologicalOrder] returns the node
    ids in node order. *)
Theorem graph_analyses_without_connections workflow :
  WorkflowConfig.connections workflow = [] →
  detectWorkflowCycles workflow = false ∧
  findDisconnectedNodes workflow = workflowNodeIds workflow ∧
  (List.NoDup (workflowNodeIds workflow) →
   getWorkflowTopologicalOrder workflow = Some (workflowNodeIds workflow)).
Proof.
  intros Hnone.
  assert (endpointsResolve workflow) as Hres.
  { intros c Hc. rewrite Hnone in Hc. done. }
  assert (∀ u v, ¬ connects workflow u v) as Hconn.
  { intros u v (c & Hc & _). rewrite Hnone in Hc. done. }
  assert (detectWorkflowCycles workflow = false) as Hdetect.
  { apply not_true_iff_false.
    rewrite (detectWorkflowCycles_spec workflow (endpointsResolve_sources _ Hres)).
    intros [x Hx]. inversion Hx; subst; by eapply Hconn. }
  split; [done|]. split.
  - unfold findDisconnectedNodes, workflowNodeIds. rewrite Hnone. simpl.
    induction (map WorkflowNode.id (WorkflowConfig.nodes workflow)) as [|k l IH];
      simpl; [done|]. by rewrite IH.
  - intros Hnodup.
    pose proof (getWorkflowTopologicalOrder_run_eq workflow) as Heq.
    unfold getWorkflowTopologicalOrder_run in Heq.
    rewrite detectWorkflowCycles_run_eq, Hdetect in Heq. cbv zeta in Heq.
    assert (∀ x, neighborsOf (buildGraph workflow) x = []) as Hnbrs.
    { intros x. destruct (neighborsOf (buildGraph workflow) x) as [|v l] eqn:E; [done|].
      exfalso. apply (Hconn x v).
      apply (neighborsOf_connects workflow x v). unfold adjacent. rewrite E. by left. }
    assert (map fst (List.filter (fun kv : string * Z => (snd kv =? 0)%Z)
                       (initInDegree workflow)) = workflowNodeIds workflow) as Hqueue.
    { rewrite <- (initInDegree_keys workflow Hnodup (targets_resolve workflow Hres)).
      unfold JsMap.keys. f_equal. apply forallb_filter_id, forallb_forall.
      intros [k d] Hin. simpl.
      apply JsMap_In_get in Hin; [|apply initInDegree_keys_NoDup].
      destruct (initInDegree_known workflow Hres k d Hin) as [_ ->].
      unfold inDegreeOf, incomingConnections. by rewrite Hnone. }
    rewrite Hqueue in Heq.
    rewrite (kahnLoop_no_neighbors _ _ Hnbrs) in Heq.
    + simpl in Heq. unfold workflowNodeIds in Heq at 1. rewrite length_map in Heq.
      rewrite Nat.eqb_refl in Heq. by injection Heq as <-.
    + unfold workflowNodeIds, kahnFuel. rewrite length_map. lia.
Qed.

Lemma graph_analyses_without_connections_witness :
  WorkflowConfig.connections unconnectedWorkflow = [] ∧
  detectWorkflowCycles unconnectedWorkflow = false ∧
  findDisconnectedNodes unconnectedWorkflow = ["b"; "a"; "c"] ∧
  (List.NoDup (workflowNodeIds unconnectedWorkflow) →
   getWorkflowTopologicalOrder unconnectedWorkflow = Some ["b"; "a"; "c"]).
Proof.
  split; [reflexivity|].
  exact (graph_analyses_without_connections unconnectedWorkflow eq_refl).
Defined.

(** ** Disconnected nodes *)

Lemma connectedNodes_spec conns (s0 : gset string) id :
  id ∈ fold_left
         (fun s conn =>
            {[WorkflowConnection.targetId conn]} ∪
            ({[WorkflowConnection.sourceId conn]} ∪ s))
         conns s0
  ↔ id ∈ s0 ∨ ∃ c, In c conns ∧
       (WorkflowConnection.sourceId c = id ∨ WorkflowConnection.targetId c = id).
Proof.
  revert s0. induction conns as [|c conns IH]; intros s0; simpl.
  - split; [by left|]. intros [?|(c & [] & _)]. done.
  - rewrite IH. split.
    + intros [Hin|(c' & Hc' & H)].
      * apply elem_of_union in Hin as [->%elem_of_singleton|Hin].
        { right. exists c. split; [by left|by right]. }
        apply elem_of_union in Hin as [->%elem_of_singleton|Hin]; [|by left].
        right. exists c. split; [by left|by left].
      * right. exists c'. split; [by right|done].
    + intros [Hin|(c' & [<-|Hc'] & H)].
      * left. set_solver.
      * left. destruct H as [<-|<-]; set_solver.
      * right. eauto.
Qed.

(** X4: [findDisconnectedNodes] returns the ids of the nodes that no
    connection starts or ends at, and nothing else, in the order of the nodes
    and as often as the id occurs among them. *)
Theorem findDisconnectedNodes_unconnected workflow :
  (∀ id, In id (findDisconnectedNodes workflow) ↔
     In id (workflowNodeIds workflow) ∧ unconnected workflow id) ∧
  (∀ id, unconnected workflow id →
     count_occ string_dec (findDisconnectedNodes workflow) id
     = count_occ string_dec (workflowNodeIds workflow) id) ∧
  sublist (findDisconnectedNodes workflow) (workflowNodeIds workflow).
Proof.
  unfold findDisconnectedNodes, workflowNodeIds.
  set (connectedNodes := fold_left _ _ _).
  assert (∀ id, negb (bool_decide (id ∈ connectedNodes)) = true
                ↔ unconnected workflow id) as Htest.
  { intros id. rewrite negb_true_iff, bool_decide_eq_false.
    unfold connectedNodes. rewrite connectedNodes_spec. unfold unconnected. split.
    - intros Hno c Hc. split; intros Heq; apply Hno; right; exists c; auto.
    - intros Hun [Hin|(c & Hc & [H|H])]; [set_solver| |];
        destruct (Hun c Hc); done. }
  generalize (map WorkflowNode.id (WorkflowConfig.nodes workflow)) as ids.
  intros ids. split; [|split].
  - intros id. rewrite List.filter_In, Htest. done.
  - intros id Hun. apply Htest in Hun.
    induction ids as [|k ids IH]; simpl; [done|].
    destruct (string_dec k id) as [->|Hne].
    + rewrite Hun. simpl. destruct (string_dec id id); [|done]. by rewrite IH.
    + destruct (negb (bool_decide (k ∈ connectedNodes))); simpl; [|done].
      destruct (string_dec k id); done.
  - induction ids as [|k ids IH]; simpl; [constructor|].
    destruct (negb (bool_decide (k ∈ connectedNodes))).
    + by apply sublist_skip.
    + by apply sublist_cons.
Qed.

(** ** The validators *)

Lemma z_optional_of_required {A} (p : json → option A) o a :
  z_required p o = Some a ↔ z_optional p o = Some (Some a).
Proof.
  destruct o as [v|]; simpl; [|done]. destruct (p v); simpl; split; congruence.
Qed.

Lemma PartialAgentConfigSchema_full v a :
  AgentConfigSchema v = Some a ↔ PartialAgentConfigSchema v = Some (partialOf a).
Proof.
  unfold AgentConfigSchema, PartialAgentConfigSchema. split; intros H.
  - peel H.
    repeat match goal with
    | H : z_required _ _ = Some _ |- _ => apply z_optional_of_required in H
    end.
    repeat (apply bind_Some; eexists; split; [eassumption|]; cbv beta). done.
  - repeat (apply bind_Some in H as (? & ? & H)).
    destruct a. unfold partialOf in H. simpl in H. simplify_eq.
    injection H as ? ? ? ? ? ? ? ? ? ? ?. subst.
    repeat match goal with
    | H : z_optional _ _ = Some (Some _) |- _ => apply z_optional_of_required in H
    end.
    repeat (apply bind_Some; eexists; split; [eassumption|]; cbv beta).
    done.
Qed.

Lemma PartialAgentConfigSchema_sound :
  sound PartialAgentConfigSchema okPartialAgentConfig.
Proof.
  intros v a H. unfold PartialAgentConfigSchema in H. peel H.
  field_sound z_string_min1_sound.
  field_sound ModelParametersSchema_sound.
  field_sound (z_array_sound _ _ ToolSchema_sound).
  field_sound MemoryConfigSchema_sound.
  field_sound z_record_sound.
  unfold okPartialAgentConfig. simpl. join_ok.
Qed.

(** X9: [validateAgentConfig] succeeds only with data that meets the field
    constraints of the agent schema, and validating that data again succeeds
    with the same data. *)
Theorem validateAgentConfig_idempotent (config : json) (d : AgentConfig.t) :
  validateAgentConfig config = ValidationSuccess d →
  okAgentConfig d = true ∧
  validateAgentConfig (unknownOfAgentConfig d) = ValidationSuccess d.
Proof.
  unfold validateAgentConfig. intros H.
  destruct (AgentConfigSchema config) as [a|] eqn:E; [|done].
  injection H as ->. pose proof (AgentConfigSchema_sound _ _ E) as Hok.
  split; [done|]. by rewrite (AgentConfigSchema_retract d Hok).
Qed.

Lemma validateAgentConfig_idempotent_witness :
  validateAgentConfig
    (JObj [("name", JStr "Researcher"); ("id", JStr "a1"); ("role", JStr "x");
           ("provider", JStr "openai"); ("model", JStr "gpt-4")])
    = ValidationSuccess (plainAgent "a1" "Researcher") ∧
  okAgentConfig (plainAgent "a1" "Researcher") = true ∧
  validateAgentConfig (unknownOfAgentConfig (plainAgent "a1" "Researcher"))
    = ValidationSuccess (plainAgent "a1" "Researcher").
Proof.
  split.
  - vm_compute. reflexivity.
  - apply (validateAgentConfig_idempotent
             (JObj [("name", JStr "Researcher"); ("id", JStr "a1");
                    ("role", JStr "x"); ("provider", JStr "openai");
                    ("model", JStr "gpt-4")])).
    vm_compute. reflexivity.
Defined.

(** X10: [validatePartialAgentConfig] accepts whatever [validateAgentConfig]
    accepts, with the same properties; and a partial result that has all of
    them is one [validateAgentConfig] returns. *)
Theorem validatePartialAgentConfig_extends_validateAgentConfig
    (config : json) (d : AgentConfig.t) :
  validateAgentConfig config = ValidationSuccess d
  ↔ validatePartialAgentConfig config = ValidationSuccess (partialOf d).
Proof.
  unfold validateAgentConfig, validatePartialAgentConfig.
  pose proof (PartialAgentConfigSchema_full config d) as Hfull. split; intros H.
  - destruct (AgentConfigSchema config) as [a|] eqn:E; [|done].
    injection H as ->. rewrite (proj1 Hfull eq_refl). done.
  - destruct (PartialAgentConfigSchema config) as [p|] eqn:E; [|done].
    injection H as ->. rewrite (proj2 Hfull eq_refl). done.
Qed.

(** X11: [validatePartialAgentConfig] accepts the empty object, and the
    properties its result has meet the constraints of the agent schema: a
    property may be missing, it may not be invalid. *)
Theorem validatePartialAgentConfig_checks_present_properties
    (config : json) (d : PartialAgentConfig.t) :
  validatePartialAgentConfig config = ValidationSuccess d →
  okPartialAgentConfig d = true.
Proof.
  unfold validatePartialAgentConfig. intros H.
  destruct (PartialAgentConfigSchema config) as [p|] eqn:E; [|done].
  injection H as ->. by apply (PartialAgentConfigSchema_sound config).
Qed.

Lemma validatePartialAgentConfig_checks_present_properties_witness :
  validatePartialAgentConfig emptyObject
    = ValidationSuccess
        (PartialAgentConfig.mk None None None None None None None None None
           None None) ∧
  validateAgentConfig emptyObject
    = ValidationFailure "Validation failed" ObjectSchemaIssues ∧
  validatePartialAgentConfig (JObj [("id", JStr EmptyString)])
    = ValidationFailure "Validation failed" ObjectSchemaIssues ∧
  okPartialAgentConfig
    (PartialAgentConfig.mk None None None None None None None None None
       None None) = true.
Proof.
  split; [vm_compute; reflexivity|]. split; [vm_compute; reflexivity|].
  split; [vm_compute; reflexivity|].
  apply (validatePartialAgentConfig_checks_present_properties emptyObject).
  vm_compute. reflexivity.
Defined.

(** X8: the throwing validators return exactly the data the reporting ones
    return, and throw exactly where those report a failure. *)
Theorem strict_validators_agree (isUrl : string → bool) (config : json) :
  validateWorkflowConfigStrict isUrl config
    = match validateWorkflowConfig isUrl config with
      | Success data => Returns data
      | Failure _ _ => Throws "ZodError"
      end ∧
  validateAgentConfigStrict config
    = match validateAgentConfig config with
      | ValidationSuccess data => Returns data
      | ValidationFailure _ _ => Throws "ZodError"
      end.
Proof.
  unfold validateWorkflowConfigStrict, validateWorkflowConfig,
    validateAgentConfigStrict, validateAgentConfig.
  split.
  - by destruct (WorkflowConfigSchema isUrl config).
  - by destruct (AgentConfigSchema config).
Qed.

(** X5: on the unknown view of a typed workflow, [validateWorkflowConfig]
    returns success with that workflow exactly when the workflow is
    structurally valid: field constraints, at least one node, connection
    endpoints among the node ids, a reference on every agent node, and no
    property named [__proto__] in its records (metadata, tool parameters,
    undeclared trigger config properties), which the returned data never
    has. *)
Theorem validateWorkflowConfig_accepts_exactly_valid
    (isUrl : string → bool) (workflow : WorkflowConfig.t) :
  validateWorkflowConfig isUrl (unknownOfWorkflowConfig workflow) = Success workflow
  ↔ structurallyValid isUrl workflow = true.
Proof. apply validateWorkflowConfig_accepts_iff. Qed.

(** X6: a workflow that meets the field constraints and fails a refinement is
    reported as a failure with the message of the validator and exactly one
    issue per failed refinement, in the order of the refinements: first the
    issue of the connections, when some endpoint is no node id, then the
    issue of the nodes, when some agent node has no reference; the list has
    no other member and is not empty. *)
Theorem validateWorkflowConfig_reports_refinements
    (isUrl : string → bool) (workflow : WorkflowConfig.t) :
  okWorkflowFields isUrl workflow = true →
  structurallyValid isUrl workflow = false →
  validateWorkflowConfig isUrl (unknownOfWorkflowConfig workflow)
  = Failure "Workflow validation failed"
      (RefinementIssues
         ((if connectionsReferenceNodes workflow then []
           else [danglingConnectionIssue]) ++
          (if agentNodesHaveReference workflow then []
           else [unreferencedAgentIssue]))) ∧
  (connectionsReferenceNodes workflow = false
   ∨ agentNodesHaveReference workflow = false) ∧
  (connectionsReferenceNodes workflow = true ↔ endpointsResolve workflow) ∧
  (agentNodesHaveReference workflow = true ↔ agentNodesCarryReference workflow).
Proof.
  intros Hok Hinvalid.
  split; [|split; [|split;
    [apply connectionsReferenceNodes_spec|apply agentNodesHaveReference_spec]]].
  - unfold validateWorkflowConfig, WorkflowConfigSchema.
    rewrite (WorkflowConfigObject_retract isUrl workflow Hok).
    unfold structurallyValid in Hinvalid. rewrite Hok in Hinvalid.
    simpl in Hinvalid.
    unfold refinementIssues, danglingConnectionIssue, unreferencedAgentIssue.
    destruct (connectionsReferenceNodes workflow),
             (agentNodesHaveReference workflow); try discriminate Hinvalid; done.
  - unfold structurallyValid in Hinvalid. rewrite Hok in Hinvalid.
    simpl in Hinvalid.
    destruct (connectionsReferenceNodes workflow); [|by left].
    right. by destruct (agentNodesHaveReference workflow).
Qed.

(** A dangling connection and an agent node without reference: two issues. *)
Lemma validateWorkflowConfig_reports_refinements_witness :
  okWorkflowFields acceptAnyUrl danglingWorkflow = true ∧
  structurallyValid acceptAnyUrl danglingWorkflow = false ∧
  validateWorkflowConfig acceptAnyUrl (unknownOfWorkflowConfig danglingWorkflow)
  = Failure "Workflow validation failed"
      (RefinementIssues [danglingConnectionIssue; unreferencedAgentIssue]).
Proof.
  assert (okWorkflowFields acceptAnyUrl danglingWorkflow = true) as Hok.
  { vm_compute. reflexivity. }
  assert (structurallyValid acceptAnyUrl danglingWorkflow = false) as Hinvalid.
  { vm_compute. reflexivity. }
  split; [exact Hok|]. split; [exact Hinvalid|].
  exact (proj1 (validateWorkflowConfig_reports_refinements acceptAnyUrl
                  danglingWorkflow Hok Hinvalid)).
Defined.

(** X7: [validateWorkflowConfig] reads the ten properties the schema declares
    and nothing else: two objects that agree on them get the same verdict,
    whatever other properties they carry. *)
Theorem validateWorkflowConfig_ignores_undeclared_properties
    (isUrl : string → bool) (fields fields' : list (string * json)) :
  (∀ k, In k workflowConfigKeys → field k fields = field k fields') →
  validateWorkflowConfig isUrl (JObj fields)
  = validateWorkflowConfig isUrl (JObj fields').
Proof.
  intros H. unfold validateWorkflowConfig, WorkflowConfigSchema.
  assert (WorkflowConfigObject isUrl (JObj fields)
          = WorkflowConfigObject isUrl (JObj fields')) as ->; [|done].
  unfold WorkflowConfigObject. cbn [z_object mbind option_bind].
  rewrite !H by (unfold workflowConfigKeys; simpl; tauto). done.
Qed.

Lemma validateWorkflowConfig_ignores_undeclared_properties_witness :
  (∀ k, In k workflowConfigKeys →
     field k [("owner", JStr "me"); ("id", JStr "wf"); ("name", JStr "wf");
              ("nodes", JArr [JObj [("id", JStr "a"); ("type", JStr "end")]]);
              ("connections", JArr [])]
     = field k [("id", JStr "wf"); ("name", JStr "wf");
                ("nodes", JArr [JObj [("id", JStr "a"); ("type", JStr "end")]]);
                ("connections", JArr [])]) ∧
  validateWorkflowConfig acceptAnyUrl
    (JObj [("owner", JStr "me"); ("id", JStr "wf"); ("name", JStr "wf");
           ("nodes", JArr [JObj [("id", JStr "a"); ("type", JStr "end")]]);
           ("connections", JArr [])])
  = validateWorkflowConfig acceptAnyUrl
      (JObj [("id", JStr "wf"); ("name", JStr "wf");
             ("nodes", JArr [JObj [("id", JStr "a"); ("type", JStr "end")]]);
             ("connections", JArr [])]).
Proof.
  assert (∀ k, In k workflowConfigKeys →
     field k [("owner", JStr "me"); ("id", JStr "wf"); ("name", JStr "wf");
              ("nodes", JArr [JObj [("id", JStr "a"); ("type", JStr "end")]]);
              ("connections", JArr [])]
     = field k [("id", JStr "wf"); ("name", JStr "wf");
                ("nodes", JArr [JObj [("id", JStr "a"); ("type", JStr "end")]]);
                ("connections", JArr [])]) as H.
  { intros k Hk. unfold workflowConfigKeys in Hk. simpl in Hk.
    repeat (destruct Hk as [<-|Hk]; [vm_compute; reflexivity|]). destruct Hk. }
  split; [exact H|].
  exact (validateWorkflowConfig_ignores_undeclared_properties acceptAnyUrl _ _ H).
Defined.

(** ** The validator: the trigger configuration passes through *)




(** ** CrewAI adapter: tasks *)

Lemma omap_imap_Forall2 {A B} (g : nat → A → option B) (keep : A → bool)
    (P : A → B → Prop) (l : list A) :
  (∀ i a, match g i a with
          | Some b => keep a = true ∧ P a b
          | None => keep a = false
          end) →
  Forall2 P (List.filter keep l) (omap (fun x => x) (imap g l)).
Proof.
  revert g. induction l as [|a l IH]; intros g Hg; simpl; [constructor|].
  specialize (IH (g ∘ S) (fun i a => Hg (S i) a)).
  specialize (Hg 0 a). destruct (g 0 a) as [b|].
  - destruct Hg as [-> Hp]. by constructor.
  - by rewrite Hg.
Qed.

(** [dependencyMap.get(id) || []] is the list of the sources of the
    connections into [id]. *)
Lemma buildDependencyMap_get workflow nodeId :
  default [] (JsMap.get nodeId (buildDependencyMap workflow))
  = sourcesInto workflow nodeId.
Proof.
  unfold buildDependencyMap, sourcesInto, incomingConnections.
  assert (∀ conns m,
    default [] (JsMap.get nodeId
      (fold_left
         (fun m conn =>
            let deps := default [] (JsMap.get (WorkflowConnection.targetId conn) m) in
            JsMap.set (WorkflowConnection.targetId conn)
              (deps ++ [WorkflowConnection.sourceId conn]) m) conns m))
    = default [] (JsMap.get nodeId m) ++
      map WorkflowConnection.sourceId
        (List.filter (fun c => String.eqb (WorkflowConnection.targetId c) nodeId)
           conns)) as H.
  { induction conns as [|c conns IH]; intros m; simpl.
    - by rewrite app_nil_r.
    - rewrite IH. cbv zeta.
      destruct (String.eqb_spec (WorkflowConnection.targetId c) nodeId) as [->|Hne].
      + rewrite JsMap_get_set_eq. simpl. by rewrite <- app_assoc.
      + by rewrite JsMap_get_set_ne. }
  apply (H _ JsMap.empty).
Qed.

Lemma taskContext_In workflow dependencies depId :
  In depId (taskContext workflow dependencies)
  ↔ In depId dependencies ∧ namesAgentNode workflow depId.
Proof.
  unfold taskContext, namesAgentNode. rewrite List.filter_In.
  destruct (List.find _ _) as [n|]; split; intros [Hin H]; split; try done.
  - apply andb_true_iff in H as [Hk Ht]. split; [by apply truthy_spec|].
    exists n. split; [done|]. by apply NodeType_eqb_spec.
  - destruct H as (Hne & n' & [= <-] & Hk). apply andb_true_iff.
    split; [by apply NodeType_eqb_spec|by apply truthy_spec].
  - by destruct H as (_ & n' & ? & _).
Qed.

(** X12: the tasks of the crew stand, in node order, for the agent-kind nodes
    that carry an inline descriptor; the context of the task of a node is the
    list of the sources of the connections into the node, in connection
    order, without the ids that are empty or whose node is not agent-kind. *)
Theorem crew_task_context_lists_agent_predecessors
    (workflow : WorkflowConfig.t) (options : CrewAIAdapterOptions.t) :
  Forall2
    (fun node task =>
       CrewAITask.context task
       = taskContext workflow (sourcesInto workflow (WorkflowNode.id node)))
    (inlineAgentNodes workflow)
    (CrewAICrew.tasks (mapWorkflowToCrew workflow options)) ∧
  ∀ dependencies depId,
    In depId (taskContext workflow dependencies)
    ↔ In depId dependencies ∧ namesAgentNode workflow depId.
Proof.
  split; [|apply taskContext_In].
  unfold mapWorkflowToCrew, inlineAgentNodes. simpl.
  match goal with
  | |- context [omap _ (imap ?g ?l)] =>
      pose proof (omap_imap_Forall2 g hasInlineAgent
        (fun node p =>
           CrewAITask.context (snd p)
           = taskContext workflow (sourcesInto workflow (WorkflowNode.id node))) l)
        as H; set (pushed := omap (fun x => x) (imap g l)) in *
  end.
  assert (Forall2
    (fun node p =>
       CrewAITask.context (snd p)
       = taskContext workflow (sourcesInto workflow (WorkflowNode.id node)))
    (List.filter hasInlineAgent (WorkflowConfig.nodes workflow)) pushed) as Hp.
  { apply H. intros i n. unfold crewEntry, hasInlineAgent.
    destruct (NodeType.eqb (WorkflowNode.type n) NodeType.agent); [|done].
    destruct (WorkflowNode.agent n); [|done]. simpl. split; [done|].
    by rewrite buildDependencyMap_get. }
  clear H. induction Hp; simpl; constructor; done.
Qed.

(** X13: every task of the crew is asynchronous exactly when the process of
    the crew is hierarchical, and the process is the one the options give
    when they give one. *)
Theorem crew_tasks_async_iff_hierarchical
    (workflow : WorkflowConfig.t) (options : CrewAIAdapterOptions.t) :
  let crew := mapWorkflowToCrew workflow options in
  Forall
    (fun task =>
       CrewAITask.async task = true
       ↔ CrewAICrew.process crew = CrewAIProcess.hierarchical)
    (CrewAICrew.tasks crew) ∧
  CrewAICrew.process crew
  = default (determineProcessType workflow) (CrewAIAdapterOptions.process options).
Proof.
  simpl. split; [|done].
  set (process := default (determineProcessType workflow)
                    (CrewAIAdapterOptions.process options)).
  match goal with
  | |- context [omap _ (imap ?g ?l)] => set (pushed := omap (fun x => x) (imap g l))
  end.
  assert (Forall
    (fun p => CrewAITask.async (snd p) = true ↔ process = CrewAIProcess.hierarchical)
    pushed) as Hp.
  { apply omap_imap_Forall. intros i n [a t]. unfold crewEntry.
    destruct (NodeType.eqb (WorkflowNode.type n) NodeType.agent); [|done].
    destruct (WorkflowNode.agent n); [|done].
    intros [= <- <-]. simpl. by destruct process. }
  induction Hp; simpl; constructor; done.
Qed.

(** ** CrewAI adapter: agents *)

Lemma append_nonempty_l s t : s ≠ EmptyString → s +:+ t ≠ EmptyString.
Proof. by destruct s. Qed.

Lemma or_else_nonempty o d : d ≠ EmptyString → or_else o d ≠ EmptyString.
Proof.
  intros Hd. unfold or_else. destruct o as [s|]; [|done].
  destruct (truthy s) eqn:E; [|done]. by apply truthy_spec.
Qed.

(** X14: the crew agent of an agent configuration always has a goal and a
    backstory that are not empty; its role is the name of the agent when the
    name is not empty and the id of the agent when the name is empty, so it
    is not empty exactly when one of the two is not. *)
Theorem mapAgentToCrewAgent_fills_required_fields
    (agent : AgentConfig.t) (options : CrewAIAdapterOptions.t) :
  let crewAgent := mapAgentToCrewAgent agent options in
  CrewAIAgent.goal crewAgent ≠ EmptyString ∧
  CrewAIAgent.backstory crewAgent ≠ EmptyString ∧
  (CrewAIAgent.role crewAgent ≠ EmptyString
   ↔ AgentConfig.name agent ≠ EmptyString ∨ AgentConfig.id agent ≠ EmptyString) ∧
  (AgentConfig.name agent ≠ EmptyString →
   CrewAIAgent.role crewAgent = AgentConfig.name agent) ∧
  (AgentConfig.name agent = EmptyString →
   CrewAIAgent.role crewAgent = AgentConfig.id agent).
Proof.
  simpl. split; [|split; [|split; [|split]]].
  - by apply or_else_nonempty.
  - destruct (truthy_opt (AgentConfig.description agent)) eqn:E.
    + destruct (AgentConfig.description agent) as [d|]; [|done]. simpl in *.
      apply append_nonempty_l. by apply truthy_spec.
    + apply or_else_nonempty. by destruct (agentTitle agent).
  - unfold agentTitle. destruct (truthy (AgentConfig.name agent)) eqn:E.
    + apply truthy_spec in E. tauto.
    + assert (AgentConfig.name agent = EmptyString) as Hn.
      { destruct (String.eqb_spec (AgentConfig.name agent) EmptyString) as [?|Hne];
          [done|]. apply truthy_spec in Hne. congruence. }
      rewrite Hn. split; [by right|]. by intros [?|?].
  - intros Hn. unfold agentTitle. apply truthy_spec in Hn. by rewrite Hn.
  - intros Hn. unfold agentTitle. by rewrite Hn.
Qed.

(** ** LangChain adapter: the node map, the entry point, the state *)

(** Assignments to a plain object, one per member of a list that has a
    value: a key holds the value of the last member that assigned to it. *)
Lemma assign_fold_lookup {X V} (key : X → string) (val : X → option V) l :
  ∀ (o : gmap string V) k,
    fold_left
      (fun o x => match val x with
                  | Some v => JsObject.assign (key x) v o
                  | None => o
                  end) l o !! k
    = if String.eqb k "__proto__" then o !! k
      else match List.find (fun x => String.eqb (key x) k && bool_decide (is_Some (val x)))
                   (rev l) with
           | Some x => val x
           | None => o !! k
           end.
Proof.
  induction l as [|x l IH] using rev_ind; intros o k.
  - simpl. by destruct (String.eqb k "__proto__").
  - rewrite fold_left_app, rev_unit. simpl.
    specialize (IH o k).
    destruct (String.eqb_spec k "__proto__") as [Heq|Hk].
    + destruct (val x) as [v|]; [|done].
      unfold JsObject.assign. destruct (String.eqb_spec (key x) "__proto__"); [done|].
      rewrite lookup_insert_ne; [done|congruence].
    + destruct (val x) as [v|] eqn:Hv; simpl.
      * destruct (String.eqb_spec (key x) k) as [<-|Hne]; simpl.
        -- rewrite Hv. by apply assign_lookup_eq.
        -- by rewrite assign_lookup_ne.
      * by rewrite andb_false_r.
Qed.

Lemma find_ext {X} (f g : X → bool) l :
  (∀ x, f x = g x) → List.find f l = List.find g l.
Proof.
  intros H. induction l as [|x l IH]; simpl; [done|]. by rewrite H, IH.
Qed.

Lemma find_rev_unique {X} (key : X → string) (l : list X) x :
  List.NoDup (map key l) → In x l →
  List.find (fun y => String.eqb (key y) (key x)) (rev l) = Some x.
Proof.
  intros Hnd Hin.
  destruct (List.find _ (rev l)) as [y|] eqn:E.
  - apply find_some in E as [Hy Heq]. apply String.eqb_eq in Heq.
    apply in_rev in Hy. f_equal.
    clear -Hnd Hin Hy Heq. induction l as [|z l IH]; [done|].
    simpl in Hnd. apply List.NoDup_cons_iff in Hnd as [Hz Hnd].
    destruct Hin as [->|Hin], Hy as [->|Hy]; try done.
    + exfalso. apply Hz. rewrite <- Heq. by apply in_map.
    + exfalso. apply Hz. rewrite Heq. by apply in_map.
    + by apply IH.
  - apply in_rev in Hin. pose proof (find_none _ _ E x Hin) as H. simpl in H.
    by rewrite String.eqb_refl in H.
Qed.

Lemma langGraphNode_id workflow options node :
  LangGraphNode.id (langGraphNode workflow options node) = WorkflowNode.id node.
Proof.
  unfold langGraphNode. destruct (WorkflowNode.type node); try done.
  by destruct (WorkflowNode.agent node).
Qed.

Lemma langGraph_nodes_lookup workflow options k :
  LangGraphWorkflow.nodes (mapWorkflowToLangGraph workflow options) !! k
  = if String.eqb k "__proto__" then None
    else langGraphNode workflow options <$>
         List.find (fun n => String.eqb (WorkflowNode.id n) k)
           (rev (WorkflowConfig.nodes workflow)).
Proof.
  unfold mapWorkflowToLangGraph. simpl.
  rewrite (assign_fold_lookup WorkflowNode.id
             (fun n => Some (langGraphNode workflow options n))).
  destruct (String.eqb k "__proto__"); [done|].
  rewrite (find_ext _ (fun n => String.eqb (WorkflowNode.id n) k)).
  - destruct (List.find _ _); [done|]. apply lookup_empty.
  - intros n. simpl. rewrite ?bool_decide_eq_true_2 by eauto. by rewrite ?andb_true_r.
Qed.

(** X15: the node map of the LangGraph workflow has one entry per node id other
    than [__proto__], stored under the id; an id that several nodes share
    holds the last of them, and a node whose id is [__proto__] is not
    stored. *)
Theorem langgraph_nodes_are_keyed_by_id
    (workflow : WorkflowConfig.t) (options : LangChainAdapterOptions.t) :
  let nodes := LangGraphWorkflow.nodes (mapWorkflowToLangGraph workflow options) in
  (∀ k, is_Some (nodes !! k)
        ↔ k ≠ "__proto__" ∧ In k (workflowNodeIds workflow)) ∧
  (∀ k stored, nodes !! k = Some stored →
     LangGraphNode.id stored = k ∧
     ∃ before node after,
       WorkflowConfig.nodes workflow = before ++ node :: after ∧
       stored = langGraphNode workflow options node ∧
       ¬ In k (map WorkflowNode.id after)) ∧
  (List.NoDup (workflowNodeIds workflow) →
   ∀ node, In node (WorkflowConfig.nodes workflow) →
     WorkflowNode.id node ≠ "__proto__" →
     nodes !! WorkflowNode.id node = Some (langGraphNode workflow options node)).
Proof.
  cbv zeta. split; [|split].
  - intros k. rewrite langGraph_nodes_lookup.
    destruct (String.eqb_spec k "__proto__") as [->|Hk].
    { split; [by intros []|]. by intros []. }
    destruct (List.find _ _) as [n|] eqn:E; simpl.
    + apply find_some in E as [Hn Heq]. apply String.eqb_eq in Heq.
      apply in_rev in Hn. split; [|by eauto]. intros _. split; [done|].
      unfold workflowNodeIds. apply in_map_iff. eauto.
    + split; [by intros []|]. intros [_ Hin]. exfalso.
      apply in_map_iff in Hin as (n & Hid & Hn).
      apply in_rev in Hn. pose proof (find_none _ _ E n Hn) as H. simpl in H.
      apply String.eqb_neq in H. done.
  - intros k stored. rewrite langGraph_nodes_lookup.
    destruct (String.eqb k "__proto__"); [done|].
    destruct (List.find _ _) as [n|] eqn:E; simpl; [|done]. intros [= <-].
    assert (WorkflowNode.id n = k) as Hid.
    { apply find_some in E as [_ Heq]. by apply String.eqb_eq. }
    split; [by rewrite langGraphNode_id|].
    clear -E Hid. revert E.
    induction (WorkflowConfig.nodes workflow) as [|m l IH] using rev_ind; [done|].
    rewrite rev_unit. simpl.
    destruct (String.eqb_spec (WorkflowNode.id m) k) as [Hm|Hm].
    + intros [= ->]. exists l, n, []. split; [done|]. split; [done|]. by intros [].
    + intros E. destruct (IH E) as (before & node & after & -> & Hst & Hlast).
      exists before, node, (after ++ [m]). split; [by rewrite <- app_assoc|].
      split; [done|]. rewrite map_app. intros [?|[?|[]]]%in_app_or; done.
  - intros Hnd node Hn Hid. rewrite langGraph_nodes_lookup.
    destruct (String.eqb_spec (WorkflowNode.id node) "__proto__"); [done|].
    by rewrite (find_rev_unique WorkflowNode.id _ node Hnd Hn).
Qed.

(** X16: in a workflow with at least one node and no empty node id, the entry
    point of the LangGraph workflow is the id of the first trigger node, or
    of the first node when no node is a trigger; it is the id of a node. *)
Theorem langgraph_entry_point_is_first_trigger_or_first_node
    (workflow : WorkflowConfig.t) (options : LangChainAdapterOptions.t) :
  WorkflowConfig.nodes workflow ≠ [] →
  (∀ n, In n (WorkflowConfig.nodes workflow) → WorkflowNode.id n ≠ EmptyString) →
  let entryPoint :=
    LangGraphWorkflow.entryPoint (mapWorkflowToLangGraph workflow options) in
  In entryPoint (workflowNodeIds workflow) ∧
  match List.find (fun n => NodeType.eqb (WorkflowNode.type n) NodeType.trigger)
          (WorkflowConfig.nodes workflow) with
  | Some triggerNode => entryPoint = WorkflowNode.id triggerNode
  | None => Some entryPoint = WorkflowNode.id <$> head (WorkflowConfig.nodes workflow)
  end.
Proof.
  intros Hne Hids. simpl. unfold langGraphEntryPoint, workflowNodeIds.
  destruct (List.find _ _) as [t|] eqn:E; simpl.
  - apply find_some in E as [Ht _].
    pose proof (Hids t Ht) as Hid. apply truthy_spec in Hid. rewrite Hid.
    split; [by apply in_map|done].
  - destruct (WorkflowConfig.nodes workflow) as [|n rest]; [done|]. simpl.
    pose proof (Hids n ltac:(by left)) as Hid. apply truthy_spec in Hid. rewrite Hid.
    split; [by left|done].
Qed.

Lemma langgraph_entry_point_is_first_trigger_or_first_node_witness :
  WorkflowConfig.nodes lateTriggerWorkflow ≠ [] ∧
  (∀ n, In n (WorkflowConfig.nodes lateTriggerWorkflow) →
     WorkflowNode.id n ≠ EmptyString) ∧
  LangGraphWorkflow.entryPoint
    (mapWorkflowToLangGraph lateTriggerWorkflow LangChainAdapterOptions.none) = "go" ∧
  In "go" (workflowNodeIds lateTriggerWorkflow).
Proof.
  assert (WorkflowConfig.nodes lateTriggerWorkflow ≠ []) as Hne by done.
  assert (∀ n, In n (WorkflowConfig.nodes lateTriggerWorkflow) →
            WorkflowNode.id n ≠ EmptyString) as Hids.
  { intros n [<-|[<-|[]]]; done. }
  split; [exact Hne|]. split; [exact Hids|]. split; [reflexivity|].
  exact (proj1 (langgraph_entry_point_is_first_trigger_or_first_node
                  lateTriggerWorkflow LangChainAdapterOptions.none Hne Hids)).
Defined.

(** X17: when no two declared variables share a name, a declared variable whose
    name is not [input], [output] or [__proto__] has its type in the state
    schema, and in the state default its default value when it declares one
    and no entry when it does not. *)
Theorem langgraph_state_holds_declared_variables
    (workflow : WorkflowConfig.t) (options : LangChainAdapterOptions.t)
    (variables : list WorkflowVariable.t) (variable : WorkflowVariable.t) :
  WorkflowConfig.variables workflow = Some variables →
  List.NoDup (map WorkflowVariable.name variables) →
  In variable variables →
  ¬ In (WorkflowVariable.name variable) reservedStateNames →
  let state := LangGraphWorkflow.state (mapWorkflowToLangGraph workflow options) in
  LangGraphState.schema state !! WorkflowVariable.name variable
    = Some (JStr (VariableType.to_string (WorkflowVariable.type variable))) ∧
  LangGraphState.default_ state !! WorkflowVariable.name variable
    = WorkflowVariable.defaultValue variable.
Proof.
  intros Hvars Hnd Hin Hres. simpl. unfold langGraphState. rewrite Hvars. simpl.
  assert (WorkflowVariable.name variable ≠ "input" ∧
          WorkflowVariable.name variable ≠ "output" ∧
          WorkflowVariable.name variable ≠ "__proto__") as (Hi & Ho & Hp).
  { repeat split; intros Heq; apply Hres; rewrite Heq; simpl; tauto. }
  pose proof (find_rev_unique WorkflowVariable.name variables variable Hnd Hin)
    as Hfind.
  split.
  - rewrite !assign_lookup_ne by done.
    rewrite (assign_fold_lookup WorkflowVariable.name
               (fun v => Some (JStr (VariableType.to_string (WorkflowVariable.type v))))).
    destruct (String.eqb_spec (WorkflowVariable.name variable) "__proto__"); [done|].
    rewrite (find_ext _ (fun y => String.eqb (WorkflowVariable.name y)
                                    (WorkflowVariable.name variable)));
      [by rewrite Hfind|].
    intros v. simpl. rewrite ?bool_decide_eq_true_2 by eauto. by rewrite ?andb_true_r.
  - rewrite !assign_lookup_ne by done.
    rewrite (assign_fold_lookup WorkflowVariable.name WorkflowVariable.defaultValue).
    destruct (String.eqb_spec (WorkflowVariable.name variable) "__proto__"); [done|].
    match goal with
    | |- context [List.find ?f (rev variables)] =>
        destruct (List.find f (rev variables)) as [v|] eqn:E
    end.
    + apply find_some in E as [Hv [Heq _]%andb_true_iff].
      apply String.eqb_eq in Heq. apply in_rev in Hv.
      assert (List.find (fun y => String.eqb (WorkflowVariable.name y)
                                    (WorkflowVariable.name v)) (rev variables)
              = Some v) as Hv' by (by apply find_rev_unique).
      rewrite Heq, Hfind in Hv'. by injection Hv' as ->.
    + rewrite lookup_empty.
      destruct (WorkflowVariable.defaultValue variable) as [d|] eqn:Hd; [|done].
      exfalso. apply in_rev in Hin.
      pose proof (find_none _ _ E variable Hin) as H. simpl in H.
      rewrite String.eqb_refl, bool_decide_eq_true_2 in H; [done|].
      rewrite Hd. eauto.
Qed.

Lemma langgraph_state_holds_declared_variables_witness :
  WorkflowConfig.variables declaredVariablesWorkflow
    = Some [topicVariable; depthVariable] ∧
  List.NoDup (map WorkflowVariable.name [topicVariable; depthVariable]) ∧
  In depthVariable [topicVariable; depthVariable] ∧
  ¬ In (WorkflowVariable.name depthVariable) reservedStateNames ∧
  LangGraphState.schema
    (LangGraphWorkflow.state
       (mapWorkflowToLangGraph declaredVariablesWorkflow LangChainAdapterOptions.none))
    !! "depth" = Some (JStr "number") ∧
  LangGraphState.default_
    (LangGraphWorkflow.state
       (mapWorkflowToLangGraph declaredVariablesWorkflow LangChainAdapterOptions.none))
    !! "depth" = None.
Proof.
  assert (List.NoDup (map WorkflowVariable.name [topicVariable; depthVariable]))
    as Hnd.
  { apply distinct_NoDup. vm_compute. reflexivity. }
  assert (In depthVariable [topicVariable; depthVariable]) as Hin.
  { simpl. tauto. }
  assert (¬ In (WorkflowVariable.name depthVariable) reservedStateNames) as Hres.
  { rewrite <- existsb_eqb_In. vm_compute. discriminate. }
  split; [reflexivity|]. split; [exact Hnd|]. split; [exact Hin|].
  split; [exact Hres|].
  exact (langgraph_state_holds_declared_variables declaredVariablesWorkflow
           LangChainAdapterOptions.none [topicVariable; depthVariable]
           depthVariable eq_refl Hnd Hin Hres).
Defined.

(** ** LangChain adapter: agents *)

(** X18: when the options name no agent type, [mapAgentToLangChain] chooses
    [openai-functions] for an agent of provider openai that has tools,
    [conversational-react-description] for an agent without tools that has a
    memory other than [none], and [zero-shot-react-description] in every other
    case. *)
Theorem mapAgentToLangChain_chooses_agent_type
    (agent : AgentConfig.t) (options : LangChainAdapterOptions.t) :
  LangChainAdapterOptions.agentType options = None →
  let agentType := LangChainAgent.agentType (mapAgentToLangChain agent options) in
  (agentType = LangChainAgentType.openai_functions
   ↔ hasTools agent ∧ AgentConfig.provider agent = AIProvider.openai) ∧
  (agentType = LangChainAgentType.conversational_react_description
   ↔ ¬ hasTools agent ∧ remembers agent) ∧
  (agentType = LangChainAgentType.zero_shot_react_description
   ↔ (hasTools agent ∧ AgentConfig.provider agent ≠ AIProvider.openai) ∨
     (¬ hasTools agent ∧ ¬ remembers agent)).
Proof.
  intros Hopt. simpl. rewrite Hopt. simpl. unfold determineAgentType.
  assert ((0 <? List.length (default [] (AgentConfig.tools agent)))%nat = true
          ↔ hasTools agent) as Htools.
  { unfold hasTools. destruct (AgentConfig.tools agent) as [[|t ts]|]; simpl.
    - split; [done|]. by intros (? & ? & ?).
    - split; [by eauto|done].
    - split; [done|]. by intros (? & ? & ?). }
  assert (match AgentConfig.memory agent with
          | Some m => negb (MemoryType.is_none (MemoryConfig.type m))
          | None => false
          end = true ↔ remembers agent) as Hmem.
  { unfold remembers. destruct (AgentConfig.memory agent) as [m|].
    - destruct (MemoryConfig.type m) eqn:E; simpl; split; try done;
        try (intros _; exists m; split; [done|]; by rewrite E).
      intros (m' & [= <-] & H). by rewrite E in H.
    - split; [done|]. by intros (? & ? & _). }
  destruct (0 <? List.length (default [] (AgentConfig.tools agent)))%nat.
  - assert (hasTools agent) as Ht by (by apply Htools).
    destruct (AgentConfig.provider agent); (split; [|split]); split;
      try done; try tauto; try (intros [? ?]; done); try (intros [[? ?]|[? ?]]; done);
      try (intros _; left; done).
  - assert (¬ hasTools agent) as Ht.
    { intros H. apply Htools in H. done. }
    destruct (AgentConfig.memory agent) as [m|].
    + destruct (MemoryType.is_none (MemoryConfig.type m)); simpl in Hmem.
      * assert (¬ remembers agent) as Hr by (intros H; by apply Hmem in H).
        (split; [|split]); split; try done; try tauto.
      * assert (remembers agent) as Hr by (by apply Hmem).
        (split; [|split]); split; try done; try tauto.
    + assert (¬ remembers agent) as Hr by (intros H; by apply Hmem in H).
      (split; [|split]); split; try done; try tauto.
Qed.

Lemma mapAgentToLangChain_chooses_agent_type_witness :
  LangChainAdapterOptions.agentType LangChainAdapterOptions.none = None ∧
  (LangChainAgent.agentType
     (mapAgentToLangChain memoryAgent LangChainAdapterOptions.none)
   = LangChainAgentType.conversational_react_description
   ↔ ¬ hasTools memoryAgent ∧ remembers memoryAgent).
Proof.
  split; [reflexivity|].
  exact (proj1 (proj2 (mapAgentToLangChain_chooses_agent_type memoryAgent
                         LangChainAdapterOptions.none eq_refl))).
Defined.

(** ** n8n adapter: which connections are emitted *)

Lemma avoidsPrototypeb_spec nodes :
  avoidsPrototypeb nodes = true → avoidsPrototype nodes.
Proof.
  unfold avoidsPrototypeb, avoidsPrototype. rewrite forallb_forall.
  intros H n Hn Hin. specialize (H n Hn). apply negb_true_iff in H.
  apply existsb_eqb_In in Hin. congruence.
Qed.

Lemma prefix_refl s : String.prefix s s = true.
Proof.
  induction s as [|c s IH]; simpl; [done|].
  destruct (ascii_dec c c); [apply IH|congruence].
Qed.

Lemma includes_refl s : includes s s = true.
Proof. destruct s; cbn [includes]; by rewrite prefix_refl. Qed.

Lemma includes_append p s : includes (p +:+ s) s = true.
Proof.
  induction p as [|c p IH]; simpl.
  - apply includes_refl.
  - rewrite IH. apply orb_true_r.
Qed.

(** The n8n node of a workflow node answers to the id of the node. *)
Lemma n8nNode_matches workflow node :
  (∀ agent, WorkflowNode.type node = NodeType.agent →
     WorkflowNode.agent node = Some agent →
     AgentConfig.id agent = WorkflowNode.id node ∨
     includes (agentTitle agent) (WorkflowNode.id node) = true) →
  matchesEndpoint (WorkflowNode.id node) (n8nNode workflow node) = true.
Proof.
  intros Hinline. unfold matchesEndpoint, n8nNode.
  destruct (WorkflowNode.type node) eqn:Et;
    [|by (cbn [N8nNode.name]; rewrite includes_append)..].
  destruct (WorkflowNode.agent node) as [agent|] eqn:Ea.
  - unfold mapAgentToN8nNode. cbn [N8nNode.name N8nNode.agentIdParameter].
    destruct (Hinline agent eq_refl eq_refl) as [-> | ->]; [|done].
    rewrite String.eqb_refl. apply orb_true_r.
  - cbn [N8nNode.name]. by rewrite includes_append.
Qed.

Lemma find_is_Some {A} (f : A → bool) l x :
  In x l → f x = true → is_Some (List.find f l).
Proof.
  intros Hin Hf. destruct (List.find f l) eqn:E; [done|].
  rewrite (find_none _ _ E x Hin) in Hf. done.
Qed.

Lemma emittedFrom_In nodes conns c fromName toName :
  In c conns → resolvedEndpoints nodes c = Some (fromName, toName) →
  In (N8nConnection.mk toName "main" 0) (emittedFrom nodes conns fromName).
Proof.
  intros Hc Hres. unfold emittedFrom. apply in_map_iff.
  exists (fromName, toName). split; [done|].
  apply List.filter_In. split; [|apply String.eqb_refl].
  apply list_elem_of_In, list_elem_of_omap. exists c.
  split; [by apply list_elem_of_In|done].
Qed.

(** X19: when no generated node is named like a property of
    [Object.prototype], [mapWorkflowToN8n] returns; the result has one node
    per workflow node, in node order, and under every node name the
    connections that resolve to that source, in connection order, in one
    output; a connection with an endpoint that resolves to no node leaves no
    trace. *)
Theorem mapWorkflowToN8n_emits_resolved_connections workflow :
  let nodes := map (n8nNode workflow) (WorkflowConfig.nodes workflow) in
  avoidsPrototype nodes →
  ∃ result,
    mapWorkflowToN8n workflow = Returns result ∧
    N8nWorkflow.nodes result = nodes ∧
    ∀ name, N8nWorkflow.connections result !! name
            = mainOf (emittedFrom nodes (WorkflowConfig.connections workflow) name).
Proof. apply mapWorkflowToN8n_connections. Qed.

Lemma mapWorkflowToN8n_emits_resolved_connections_witness :
  avoidsPrototype (map (n8nNode chainWorkflow) (WorkflowConfig.nodes chainWorkflow)) ∧
  ∃ result,
    mapWorkflowToN8n chainWorkflow = Returns result ∧
    N8nWorkflow.nodes result
      = map (n8nNode chainWorkflow) (WorkflowConfig.nodes chainWorkflow) ∧
    ∀ name, N8nWorkflow.connections result !! name
            = mainOf (emittedFrom
                        (map (n8nNode chainWorkflow) (WorkflowConfig.nodes chainWorkflow))
                        (WorkflowConfig.connections chainWorkflow) name).
Proof.
  assert (avoidsPrototype
            (map (n8nNode chainWorkflow) (WorkflowConfig.nodes chainWorkflow))) as H.
  { apply avoidsPrototypeb_spec. vm_compute. reflexivity. }
  split; [exact H|].
  exact (mapWorkflowToN8n_emits_resolved_connections chainWorkflow H).
Defined.

(** X20: in a workflow whose connection endpoints are node ids, whose inline
    agents go by the id of their node, and none of whose generated node names
    is a property of [Object.prototype], [mapWorkflowToN8n] drops no
    connection: every connection resolves, and its n8n connection is in the
    first output of the entry of the source it resolves to. *)
Theorem mapWorkflowToN8n_keeps_every_connection workflow :
  endpointsResolve workflow →
  inlineAgentsFollowNodeIds workflow →
  avoidsPrototype (map (n8nNode workflow) (WorkflowConfig.nodes workflow)) →
  ∃ result,
    mapWorkflowToN8n workflow = Returns result ∧
    ∀ c, In c (WorkflowConfig.connections workflow) →
      ∃ fromNode toNode main,
        findEndpoint (N8nWorkflow.nodes result) (WorkflowConnection.sourceId c)
          = Some fromNode ∧
        findEndpoint (N8nWorkflow.nodes result) (WorkflowConnection.targetId c)
          = Some toNode ∧
        N8nWorkflow.connections result !! N8nNode.name fromNode = Some [main] ∧
        In (N8nConnection.mk (N8nNode.name toNode) "main" 0) main.
Proof.
  intros Hres Hinline Havoid.
  destruct (mapWorkflowToN8n_connections workflow Havoid) as (result & Hrun & Hnodes & Hconn).
  exists result. split; [done|]. intros c Hc. rewrite Hnodes.
  set (nodes := map (n8nNode workflow) (WorkflowConfig.nodes workflow)) in *.
  assert (∀ id, (∃ n, In n (WorkflowConfig.nodes workflow) ∧ WorkflowNode.id n = id) →
            is_Some (findEndpoint nodes id)) as Hfind.
  { intros id (n & Hn & <-). unfold findEndpoint.
    apply (find_is_Some _ _ (n8nNode workflow n)); [by apply in_map|].
    apply n8nNode_matches. intros agent Ht Ha. by apply (Hinline n). }
  destruct (Hres c Hc) as [Hsrc Htgt].
  destruct (Hfind _ Hsrc) as [fromNode Hfrom], (Hfind _ Htgt) as [toNode Hto].
  assert (resolvedEndpoints nodes c
          = Some (N8nNode.name fromNode, N8nNode.name toNode)) as Hresolved.
  { unfold resolvedEndpoints. by rewrite Hfrom, Hto. }
  pose proof (emittedFrom_In nodes _ c _ _ Hc Hresolved) as Hin.
  specialize (Hconn (N8nNode.name fromNode)).
  destruct (emittedFrom nodes (WorkflowConfig.connections workflow)
              (N8nNode.name fromNode)) as [|e rest] eqn:E; [done|].
  exists fromNode, toNode, (e :: rest). by rewrite Hconn.
Qed.

Lemma mapWorkflowToN8n_keeps_every_connection_witness :
  endpointsResolve agentChainWorkflow ∧
  inlineAgentsFollowNodeIds agentChainWorkflow ∧
  avoidsPrototype
    (map (n8nNode agentChainWorkflow) (WorkflowConfig.nodes agentChainWorkflow)) ∧
  ∃ result,
    mapWorkflowToN8n agentChainWorkflow = Returns result ∧
    ∀ c, In c (WorkflowConfig.connections agentChainWorkflow) →
      ∃ fromNode toNode main,
        findEndpoint (N8nWorkflow.nodes result) (WorkflowConnection.sourceId c)
          = Some fromNode ∧
        findEndpoint (N8nWorkflow.nodes result) (WorkflowConnection.targetId c)
          = Some toNode ∧
        N8nWorkflow.connections result !! N8nNode.name fromNode = Some [main] ∧
        In (N8nConnection.mk (N8nNode.name toNode) "main" 0) main.
Proof.
  assert (endpointsResolve agentChainWorkflow) as Hres.
  { apply connectionsReferenceNodes_spec. vm_compute. reflexivity. }
  assert (inlineAgentsFollowNodeIds agentChainWorkflow) as Hinline.
  { intros node agent [<-|[<-|[<-|[]]]] _ [= <-]; by left. }
  assert (avoidsPrototype
            (map (n8nNode agentChainWorkflow)
               (WorkflowConfig.nodes agentChainWorkflow))) as Havoid.
  { apply avoidsPrototypeb_spec. vm_compute. reflexivity. }
  split; [exact Hres|]. split; [exact Hinline|]. split; [exact Havoid|].
  exact (mapWorkflowToN8n_keeps_every_connection agentChainWorkflow
           Hres Hinline Havoid).
Defined.

(** ** n8n adapter: when the connection step throws *)

Lemma pushConnection_inherited fromName toName
    (connections : gmap string (list (list N8nConnection.t))) :
  In fromName JsObject.prototypeKeys → connections !! fromName = None →
  pushConnection fromName toName connections = Throws "TypeError".
Proof.
  intros Hp Hnone. unfold pushConnection.
  assert (JsObject.get fromName connections = JsObject.Inherited) as Hget.
  { unfold JsObject.get. rewrite Hnone.
    apply existsb_eqb_In in Hp. by rewrite Hp. }
  by rewrite Hget, Hget.
Qed.

Lemma buildConnections_outcome nodes conns :
  ∀ connections (sentBefore : string → list N8nConnection.t),
    (∀ name, connections !! name = mainOf (sentBefore name)) →
    (∀ name, In name JsObject.prototypeKeys → sentBefore name = []) →
    match buildConnections nodes conns connections with
    | Returns connections' =>
        ¬ resolvesToPrototypeName nodes conns ∧
        ∀ name, connections' !! name
                = mainOf (sentBefore name ++ emittedFrom nodes conns name)
    | Throws error =>
        error = "TypeError" ∧ resolvesToPrototypeName nodes conns
    end.
Proof.
  induction conns as [|conn conns IH]; intros connections sentBefore Hinv Hproto.
  - simpl. split; [by intros (c & ? & ? & [] & _)|]. intros name.
    unfold emittedFrom. simpl. by rewrite app_nil_r.
  - simpl. unfold connectionStep.
    assert (∀ name, emittedFrom nodes (conn :: conns) name
              = match resolvedEndpoints nodes conn with
                | Some (f, t) =>
                    if String.eqb f name
                    then N8nConnection.mk t "main" 0 :: emittedFrom nodes conns name
                    else emittedFrom nodes conns name
                | None => emittedFrom nodes conns name
                end) as Hem.
    { intros name. unfold emittedFrom. simpl.
      destruct (resolvedEndpoints nodes conn) as [[f t]|]; simpl; [|done].
      destruct (String.eqb f name); done. }
    assert (∀ rest, resolvedEndpoints nodes conn = None →
              (resolvesToPrototypeName nodes (conn :: rest)
               ↔ resolvesToPrototypeName nodes rest)) as Hskip.
    { intros rest Hnone. split.
      - intros (c & f & t & [<-|Hc] & Hr & Hp); [congruence|].
        exists c, f, t. done.
      - intros (c & f & t & Hc & Hr & Hp). exists c, f, t. split; [by right|done]. }
    unfold resolvedEndpoints in Hem, Hskip.
    destruct (findEndpoint nodes (WorkflowConnection.sourceId conn)) as [fromNode|] eqn:Ef.
    2:{ specialize (IH connections sentBefore Hinv Hproto).
        destruct (buildConnections nodes conns connections) as [m|e].
        - destruct IH as [Hno Hm]. split; [by rewrite Hskip|].
          intros name. by rewrite Hem.
        - destruct IH as [-> Hyes]. split; [done|]. by rewrite Hskip. }
    destruct (findEndpoint nodes (WorkflowConnection.targetId conn)) as [toNode|] eqn:Et.
    2:{ specialize (IH connections sentBefore Hinv Hproto).
        destruct (buildConnections nodes conns connections) as [m|e].
        - destruct IH as [Hno Hm]. split; [by rewrite Hskip|].
          intros name. by rewrite Hem.
        - destruct IH as [-> Hyes]. split; [done|]. by rewrite Hskip. }
    assert (resolvedEndpoints nodes conn
            = Some (N8nNode.name fromNode, N8nNode.name toNode)) as Hres.
    { unfold resolvedEndpoints. by rewrite Ef, Et. }
    destruct (in_dec string_dec (N8nNode.name fromNode) JsObject.prototypeKeys)
      as [Hp|Hp].
    + rewrite pushConnection_inherited; [|done|].
      * split; [done|]. exists conn, (N8nNode.name fromNode), (N8nNode.name toNode).
        split; [by left|done].
      * by rewrite Hinv, (Hproto _ Hp).
    + rewrite (pushConnection_spec _ _ _ (sentBefore (N8nNode.name fromNode)) Hp (Hinv _)).
      specialize (IH (<[N8nNode.name fromNode :=
                     [sentBefore (N8nNode.name fromNode)
                      ++ [N8nConnection.mk (N8nNode.name toNode) "main" 0]]]> connections)
                 (fun name => if String.eqb (N8nNode.name fromNode) name
                              then sentBefore name
                                   ++ [N8nConnection.mk (N8nNode.name toNode) "main" 0]
                              else sentBefore name)).
      assert (resolvesToPrototypeName nodes (conn :: conns)
              ↔ resolvesToPrototypeName nodes conns) as Hkeep.
      { split.
        - intros (c & f & t & [<-|Hc] & Hr & Hp'); [congruence|].
          exists c, f, t. done.
        - intros (c & f & t & Hc & Hr & Hp'). exists c, f, t. split; [by right|done]. }
      match type of IH with ?A → ?B → _ => assert A as H1; [|assert B as H2] end.
      { intros name. destruct (String.eqb_spec (N8nNode.name fromNode) name) as [<-|Hne].
        - rewrite lookup_insert_eq.
          by destruct (sentBefore (N8nNode.name fromNode)).
        - by rewrite lookup_insert_ne. }
      { intros name Hname.
        destruct (String.eqb_spec (N8nNode.name fromNode) name) as [<-|Hne]; [done|].
        by apply Hproto. }
      specialize (IH H1 H2).
      destruct (buildConnections nodes conns _) as [m|e].
      * destruct IH as [Hno Hm]. split; [by rewrite Hkeep|].
        intros name. rewrite Hm, Hem.
        destruct (String.eqb (N8nNode.name fromNode) name); [|done].
        by rewrite <- app_assoc.
      * destruct IH as [-> Hyes]. split; [done|]. by rewrite Hkeep.
Qed.

(** X21: [mapWorkflowToN8n] throws exactly when some connection resolves on
    both ends and the name of the node its source resolves to is a property
    name of [Object.prototype]; what it throws is a [TypeError], and in every
    other case it returns. *)
Theorem mapWorkflowToN8n_throws_iff_prototype_name workflow :
  let nodes := map (n8nNode workflow) (WorkflowConfig.nodes workflow) in
  let conns := WorkflowConfig.connections workflow in
  (mapWorkflowToN8n workflow = Throws "TypeError"
   ↔ resolvesToPrototypeName nodes conns) ∧
  ((∃ result, mapWorkflowToN8n workflow = Returns result)
   ↔ ¬ resolvesToPrototypeName nodes conns) ∧
  (∀ error, mapWorkflowToN8n workflow = Throws error → error = "TypeError").
Proof.
  cbv zeta. unfold mapWorkflowToN8n.
  pose proof (buildConnections_outcome
                (map (n8nNode workflow) (WorkflowConfig.nodes workflow))
                (WorkflowConfig.connections workflow) ∅ (fun _ => [])) as H.
  destruct (buildConnections _ _ ∅) as [m|e].
  - destruct H as [Hno _]; [by intros; rewrite lookup_empty|done|].
    split; [|split].
    + split; [done|]. intros Hyes. by destruct Hno.
    + split; [done|]. intros _. eauto.
    + by intros error.
  - destruct H as [-> Hyes]; [by intros; rewrite lookup_empty|done|].
    split; [|split].
    + by split.
    + split; [by intros [? ?]|]. intros Hno. by destruct Hno.
    + by intros error [= <-].
Qed.

(** ** n8n adapter: the layout *)

(** *** The adjacency map and the in-degrees of the layout *)

Lemma JsSet_has_app u l1 l2 : JsSet.has u (l1 ++ l2) = JsSet.has u l1 || JsSet.has u l2.
Proof. apply existsb_app. Qed.

Lemma layoutGraph_empty nodeIds u :
  JsMap.get u (fold_left (fun g id => JsMap.set id ([] : list string) g) nodeIds
                 JsMap.empty)
  = if JsSet.has u nodeIds then Some [] else None.
Proof.
  induction nodeIds as [|n nodeIds IH] using rev_ind; simpl; [done|].
  rewrite fold_left_app, JsSet_has_app. simpl.
  destruct (String.eqb_spec n u) as [->|Hne].
  - rewrite JsMap_get_set_eq, String.eqb_refl. simpl. by rewrite orb_true_r.
  - rewrite JsMap_get_set_ne by done. rewrite IH.
    destruct (String.eqb_spec u n) as [?|_]; [congruence|].
    simpl. by rewrite orb_false_r.
Qed.

(** [graph.get(u) || []] holds the targets of the connections that leave [u],
    in connection order, when [u] is a node id, and nothing otherwise. *)
Lemma layoutNeighbors_spec nodeIds connections u :
  layoutNeighbors (layoutGraph nodeIds connections) u
  = if JsSet.has u nodeIds
    then map snd (List.filter (fun c => String.eqb (fst c) u) connections)
    else [].
Proof.
  unfold layoutNeighbors, layoutGraph. cbv zeta.
  pose proof (layoutGraph_empty nodeIds) as Hg0. revert Hg0.
  generalize (fold_left (fun g id => JsMap.set id ([] : list string) g) nodeIds
                JsMap.empty) as g0.
  intros g0 Hg0.
  assert (∀ conns g,
    (∀ w, is_Some (JsMap.get w g) ↔ JsSet.has w nodeIds = true) →
    default [] (JsMap.get u
      (fold_left
         (fun g conn =>
            match JsMap.get (fst conn) g with
            | Some targets => JsMap.set (fst conn) (targets ++ [snd conn]) g
            | None => g
            end) conns g))
    = default [] (JsMap.get u g) ++
      (if JsSet.has u nodeIds
       then map snd (List.filter (fun c => String.eqb (fst c) u) conns)
       else ([] : list string))) as H.
  { induction conns as [|c conns IH]; intros g Hg; simpl.
    - destruct (JsSet.has u nodeIds); by rewrite app_nil_r.
    - destruct (JsMap.get (fst c) g) as [targets|] eqn:E.
      + rewrite IH.
        * destruct (String.eqb_spec (fst c) u) as [Heq|Hne].
          -- rewrite Heq in *. rewrite JsMap_get_set_eq, E. simpl.
             assert (JsSet.has u nodeIds = true) as -> by (apply Hg; by rewrite E).
             simpl. by rewrite <- app_assoc.
          -- by rewrite JsMap_get_set_ne.
        * intros w. rewrite <- Hg.
          destruct (String.eqb_spec (fst c) w) as [<-|Hne].
          -- rewrite JsMap_get_set_eq, E. split; eauto.
          -- by rewrite JsMap_get_set_ne.
      + rewrite IH by done.
        destruct (String.eqb_spec (fst c) u) as [Heq|Hne]; [|done].
        rewrite Heq in E.
        destruct (JsSet.has u nodeIds) eqn:Hm; [|done].
        apply Hg in Hm. rewrite E in Hm. by destruct Hm. }
  rewrite H.
  - rewrite Hg0. by destruct (JsSet.has u nodeIds).
  - intros w. rewrite Hg0. destruct (JsSet.has w nodeIds); split; try done; by intros [].
Qed.

Lemma filter_snd_absent (connections : list (string * string)) u :
  JsSet.has u (map snd connections) = false →
  List.filter (fun c => String.eqb (snd c) u) connections = [].
Proof.
  induction connections as [|c conns IH]; simpl; [done|].
  intros [E1 E2]%orb_false_iff. rewrite String.eqb_sym, E1. by apply IH.
Qed.

Lemma layoutInDegree_spec nodeIds connections u :
  JsMap.get u (layoutInDegree nodeIds connections)
  = if JsSet.has u nodeIds || JsSet.has u (map snd connections)
    then Some (Z.of_nat (List.length
                 (List.filter (fun c => String.eqb (snd c) u) connections)))
    else None.
Proof.
  unfold layoutInDegree. cbv zeta.
  assert (∀ ids d,
    JsMap.get u (fold_left (fun d id => JsMap.set id 0%Z d) ids d)
    = if JsSet.has u ids then Some 0%Z else JsMap.get u d) as Hzero.
  { induction ids as [|n ids IH] using rev_ind; intros d; simpl; [done|].
    rewrite fold_left_app, JsSet_has_app. simpl.
    destruct (String.eqb_spec n u) as [->|Hne].
    - rewrite JsMap_get_set_eq, String.eqb_refl. simpl. by rewrite orb_true_r.
    - rewrite JsMap_get_set_ne by done. rewrite IH.
      destruct (String.eqb_spec u n) as [?|_]; [congruence|].
      simpl. by rewrite orb_false_r. }
  assert (∀ (conns : list (string * string)) d,
    JsMap.get u
      (fold_left
         (fun d conn =>
            JsMap.set (snd conn) (default 0%Z (JsMap.get (snd conn) d) + 1)%Z d)
         conns d)
    = if JsSet.has u (map snd conns)
      then Some (default 0%Z (JsMap.get u d)
                 + Z.of_nat (List.length
                     (List.filter (fun c => String.eqb (snd c) u) conns)))%Z
      else JsMap.get u d) as Hcount.
  { induction conns as [|c conns IH]; intros d; simpl; [done|].
    rewrite IH. destruct (String.eqb_spec (snd c) u) as [Heq|Hne].
    - rewrite Heq. rewrite JsMap_get_set_eq, String.eqb_refl. simpl.
      destruct (JsSet.has u (map snd conns)) eqn:E; [f_equal; lia|].
      rewrite (filter_snd_absent _ _ E). simpl; first [done | f_equal; lia].
    - rewrite JsMap_get_set_ne by done.
      destruct (String.eqb_spec u (snd c)) as [?|_]; [congruence|]. done. }
  rewrite Hcount, Hzero. simpl.
  destruct (JsSet.has u nodeIds), (JsSet.has u (map snd connections)) eqn:E; simpl; try done;
    try by rewrite (filter_snd_absent _ _ E).
Qed.

Lemma isLayoutRoot_spec nodeIds connections u :
  In u nodeIds →
  isLayoutRoot (layoutInDegree nodeIds connections) u = true
  ↔ ¬ In u (map snd connections).
Proof.
  intros Hu. unfold isLayoutRoot. rewrite layoutInDegree_spec.
  apply JsSet_has_In in Hu. rewrite Hu. simpl. rewrite Z.eqb_eq.
  induction connections as [|c conns IH]; simpl; [tauto|].
  destruct (String.eqb_spec (snd c) u); simpl.
  - split; [lia|]. intros H. exfalso. apply H. by left.
  - rewrite IH. tauto.
Qed.


(** *** The breadth-first loop *)

(** The cells after [levels.get(level).push(id)]. *)
Lemma inCell_push levels l v w L i :
  inCell (<[l := default [] (levels !! l) ++ [v]]> levels) w L i
  ↔ inCell levels w L i ∨
    (w = v ∧ L = l ∧ i = List.length (default [] (levels !! l))).
Proof.
  unfold inCell. destruct (decide (L = l)) as [->|Hne].
  - rewrite lookup_insert_eq. split.
    + intros (row & [= <-] & Hi).
      apply lookup_app_Some in Hi as [Hi|[Hlen Hi]].
      * left. destruct (levels !! l) as [old|]; [by exists old|done].
      * right. apply list_lookup_singleton_Some in Hi as [Hi <-].
        split; [done|]. split; [done|]. simpl in Hi. lia.
    + intros [(row & Hrow & Hi)|(-> & _ & ->)].
      * rewrite Hrow. simpl. eexists. split; [done|].
        apply lookup_app_Some. by left.
      * eexists. split; [done|]. apply lookup_app_Some. right.
        split; [lia|]. by rewrite Nat.sub_diag.
  - rewrite lookup_insert_ne by done. split; [by left|].
    intros [?|(_ & ? & _)]; [done|congruence].
Qed.

Lemma inCell_push_old levels l v w L i :
  inCell levels w L i →
  inCell (<[l := default [] (levels !! l) ++ [v]]> levels) w L i.
Proof. intros. apply inCell_push. by left. Qed.

Lemma inCell_push_new levels l v :
  inCell (<[l := default [] (levels !! l) ++ [v]]> levels) v l
    (List.length (default [] (levels !! l))).
Proof. apply inCell_push. by right. Qed.

Lemma In_pushed (visited : gset string) neighbors w (l : nat) :
  In (w, l)
    (map (fun neighbor => (neighbor, l))
       (List.filter (fun neighbor => negb (bool_decide (neighbor ∈ visited)))
          neighbors))
  ↔ In w neighbors ∧ w ∉ visited.
Proof.
  rewrite in_map_iff. split.
  - intros (x & [= ->] & Hx). apply List.filter_In in Hx as [Hx Hv].
    split; [done|]. apply negb_true_iff in Hv. by apply bool_decide_eq_false in Hv.
  - intros [Hx Hv]. exists w. split; [done|]. apply List.filter_In.
    split; [done|]. apply negb_true_iff. by apply bool_decide_eq_false.
Qed.

Lemma In_pushed_level (visited : gset string) neighbors w (l l' : nat) :
  In (w, l')
    (map (fun neighbor => (neighbor, l))
       (List.filter (fun neighbor => negb (bool_decide (neighbor ∈ visited)))
          neighbors)) →
  l' = l.
Proof. rewrite in_map_iff. by intros (x & [= -> ->] & _). Qed.

Section Bfs.
Variable graph : JsMap.t (list string).
Variable roots : list string.

Lemma bfsInv_skip v l rest levels visited :
  bfsInv graph roots ((v, l) :: rest) levels visited →
  v ∈ visited →
  bfsInv graph roots rest levels visited.
Proof.
  intros [Hcells Huniq Hqpar Hqroot Hcpar Hcroot Hclosed Hroots] Hv. split; try done.
  - intros w L Hw. apply Hqpar. by right.
  - intros w Hw. apply Hqroot. by right.
  - intros u w Hu Hw. destruct (Hclosed u w Hu Hw) as [?|[<-|?]]; auto.
  - intros r Hr. destruct (Hroots r Hr) as [?|[<-|?]]; auto.
Qed.

Lemma bfsInv_visit v l rest levels visited :
  bfsInv graph roots ((v, l) :: rest) levels visited →
  v ∉ visited →
  bfsInv graph roots
    (rest ++ map (fun neighbor => (neighbor, S l))
       (List.filter
          (fun neighbor => negb (bool_decide (neighbor ∈ {[v]} ∪ visited)))
          (layoutNeighbors graph v)))
    (<[l := default [] (levels !! l) ++ [v]]> levels)
    ({[v]} ∪ visited).
Proof.
  intros [Hcells Huniq Hqpar Hqroot Hcpar Hcroot Hclosed Hroots] Hv.
  assert (∃ j, inCell (<[l := default [] (levels !! l) ++ [v]]> levels) v l j)
    as [jv Hjv] by (eexists; apply inCell_push_new).
  split.
  - intros w. rewrite elem_of_union, elem_of_singleton, Hcells. split.
    + intros [->|(L & i & Hc)]; [by exists l, jv|].
      exists L, i. by apply inCell_push_old.
    + intros (L & i & [Hc|(-> & _)]%inCell_push); [right; eauto|by left].
  - intros w L i L' i' [H1|(-> & -> & ->)]%inCell_push
      [H2|(Hw & -> & ->)]%inCell_push.
    + eauto.
    + subst w. destruct Hv. apply Hcells. eauto.
    + destruct Hv. apply Hcells. eauto.
    + done.
  - intros w L [Hw|Hw]%in_app_iff.
    + destruct (Hqpar w L) as (u & j & Hu & Hn); [by right|].
      exists u, j. split; [by apply inCell_push_old|done].
    + pose proof (In_pushed_level _ _ _ _ _ Hw) as [= ->].
      apply In_pushed in Hw as [Hw _]. by exists v, jv.
  - intros w [Hw|Hw]%in_app_iff.
    + apply Hqroot. by right.
    + by apply In_pushed_level in Hw.
  - intros w L i [Hc|(-> & <- & ->)]%inCell_push.
    + destruct (Hcpar w L i Hc) as (u & j & Hu & Hn).
      exists u, j. split; [by apply inCell_push_old|done].
    + destruct (Hqpar v L) as (u & j & Hu & Hn); [by left|].
      exists u, j. split; [by apply inCell_push_old|done].
  - intros w i [Hc|(-> & <- & ->)]%inCell_push; [eauto|].
    apply Hqroot. by left.
  - intros u w Hu Hw. rewrite map_app, in_app_iff.
    destruct (decide (w ∈ {[v]} ∪ visited)) as [?|Hnew]; [by left|].
    right. apply elem_of_union in Hu as [->%elem_of_singleton|Hu].
    + right. apply in_map_iff. exists (w, S l). split; [done|].
      by apply In_pushed.
    + destruct (Hclosed u w Hu Hw) as [?|[<-|?]]; [set_solver|set_solver|by left].
  - intros r Hr. rewrite map_app, in_app_iff.
    destruct (Hroots r Hr) as [?|[<-|?]]; [left; set_solver|left; set_solver|auto].
Qed.

Lemma bfsOrder_head l v lv rest levels :
  bfsOrder graph l ((v, lv) :: rest) levels →
  bfsOrder graph lv ((v, lv) :: rest) levels.
Proof.
  intros [(q1 & q2 & Hq & H1 & H2) Hc He].
  destruct q1 as [|e q1]; simpl in Hq.
  - subst q2. pose proof (Forall_inv H2) as Hlv. simpl in Hlv. subst lv.
    split; [|intros ??? Hx; apply Hc in Hx; lia|done].
    exists ((v, S l) :: rest), []. rewrite app_nil_r. by repeat split.
  - injection Hq as <- ->. pose proof (Forall_inv H1) as Hlv. simpl in Hlv. subst lv.
    split; [|done|done]. exists ((v, l) :: q1), q2. by repeat split.
Qed.

Lemma bfsOrder_tail_split v l rest levels :
  bfsOrder graph l ((v, l) :: rest) levels →
  ∃ q1 q2, rest = q1 ++ q2 ∧
    Forall (fun e => snd e = l) q1 ∧ Forall (fun e => snd e = S l) q2.
Proof.
  intros [(q1 & q2 & Hq & H1 & H2) _ _].
  destruct q1 as [|e q1]; simpl in Hq.
  - subst q2. pose proof (Forall_inv H2) as Hlv. simpl in Hlv. lia.
  - injection Hq as <- ->. exists q1, q2. split; [done|].
    split; [by apply Forall_inv_tail in H1|done].
Qed.

Lemma bfsOrder_skip v l rest levels visited :
  bfsInv graph roots ((v, l) :: rest) levels visited →
  bfsOrder graph l ((v, l) :: rest) levels →
  v ∈ visited →
  bfsOrder graph l rest levels.
Proof.
  intros Hinv Hord Hv. pose proof (bfsOrder_tail_split _ _ _ _ Hord) as Hsplit.
  destruct Hord as [_ Hc He]. split; [done|done|].
  intros u L j w Hu Hw.
  destruct (He u L j w Hu Hw) as [?|(L' & [[= <- <-]|Hin] & Hle)]; [by left| |].
  - left. apply (bfs_cells _ _ _ _ _ Hinv) in Hv as (Lv & iv & Hcv).
    exists Lv, iv. split; [done|]. apply Hc in Hcv. lia.
  - right. eauto.
Qed.

Lemma bfsOrder_visit v l rest levels visited :
  bfsInv graph roots ((v, l) :: rest) levels visited →
  bfsOrder graph l ((v, l) :: rest) levels →
  v ∉ visited →
  bfsOrder graph l
    (rest ++ map (fun neighbor => (neighbor, S l))
       (List.filter
          (fun neighbor => negb (bool_decide (neighbor ∈ {[v]} ∪ visited)))
          (layoutNeighbors graph v)))
    (<[l := default [] (levels !! l) ++ [v]]> levels).
Proof.
  intros Hinv Hord Hv.
  destruct (bfsOrder_tail_split _ _ _ _ Hord) as (q1 & q2 & -> & H1 & H2).
  destruct Hord as [_ Hc He]. split.
  - exists q1, (q2 ++ map (fun neighbor => (neighbor, S l))
       (List.filter
          (fun neighbor => negb (bool_decide (neighbor ∈ {[v]} ∪ visited)))
          (layoutNeighbors graph v))).
    rewrite app_assoc. split; [done|]. split; [done|].
    apply Forall_app. split; [done|].
    apply List.Forall_forall. intros [w lw] Hw.
    by apply In_pushed_level in Hw.
  - intros w L i [Hw|(_ & -> & _)]%inCell_push; [eauto|done].
  - intros u L j w [Hu|(-> & -> & ->)]%inCell_push Hw.
    + destruct (He u L j w Hu Hw) as [(L' & i & Hcw & Hle)|(L' & [[= <- <-]|Hin] & Hle)].
      * left. exists L', i. split; [by apply inCell_push_old|done].
      * left. eexists l, _. split; [apply inCell_push_new|done].
      * right. exists L'. split; [|done]. apply in_app_iff. by left.
    + destruct (decide (w ∈ {[v]} ∪ visited)) as [Hin|Hnew].
      * left. apply elem_of_union in Hin as [->%elem_of_singleton|Hin].
        -- eexists l, _. split; [apply inCell_push_new|lia].
        -- apply (bfs_cells _ _ _ _ _ Hinv) in Hin as (Lw & iw & Hcw).
           exists Lw, iw. split; [by apply inCell_push_old|].
           apply Hc in Hcw. lia.
      * right. exists (S l). split; [|done]. apply in_app_iff. right.
        by apply In_pushed.
Qed.

(** What the loop leaves behind. *)
Lemma assignLevels_inv fuel queue levels visited l final :
  bfsInv graph roots queue levels visited →
  bfsOrder graph l queue levels →
  assignLevels fuel graph queue levels visited = Some final →
  ∃ visited' l', bfsInv graph roots [] final visited' ∧ bfsOrder graph l' [] final.
Proof.
  revert queue levels visited l.
  induction fuel as [|fuel IH]; intros queue levels visited l Hinv Hord Hrun.
  - destruct queue as [|[v lv] rest]; simpl in Hrun; [|done].
    injection Hrun as <-. eauto.
  - destruct queue as [|[v lv] rest]; simpl in Hrun.
    { injection Hrun as <-. eauto. }
    apply bfsOrder_head in Hord. case_bool_decide as Hv.
    + eapply IH; [by eapply bfsInv_skip|by eapply bfsOrder_skip|done].
    + eapply IH; [by eapply bfsInv_visit|by eapply bfsOrder_visit|done].
Qed.

End Bfs.


(** *** The bound of the breadth-first loop *)

Lemma pendingConnections_visit (connections : list (string * string))
    (visited : gset string) v :
  v ∉ visited →
  List.length (pendingConnections connections ({[v]} ∪ visited))
  + List.length (List.filter (fun c => String.eqb (fst c) v) connections)
  = List.length (pendingConnections connections visited).
Proof.
  intros Hv. unfold pendingConnections.
  induction connections as [|c conns IH]; simpl; [done|].
  destruct (String.eqb_spec (fst c) v) as [Heq|Hne].
  - rewrite (bool_decide_eq_true_2 (fst c ∈ {[v]} ∪ visited)) by set_solver.
    rewrite (bool_decide_eq_false_2 (fst c ∈ visited)) by (by rewrite Heq).
    simpl. lia.
  - destruct (decide (fst c ∈ visited)) as [Hin|Hout].
    + rewrite (bool_decide_eq_true_2 (fst c ∈ {[v]} ∪ visited)) by set_solver.
      rewrite (bool_decide_eq_true_2 (fst c ∈ visited)) by done.
      simpl. lia.
    + rewrite (bool_decide_eq_false_2 (fst c ∈ {[v]} ∪ visited)) by set_solver.
      rewrite (bool_decide_eq_false_2 (fst c ∈ visited)) by done.
      simpl. lia.
Qed.

Lemma layoutNeighbors_length nodeIds connections v :
  List.length (layoutNeighbors (layoutGraph nodeIds connections) v)
  ≤ List.length (List.filter (fun c => String.eqb (fst c) v) connections).
Proof.
  rewrite layoutNeighbors_spec. destruct (JsSet.has v nodeIds); simpl; [|lia].
  by rewrite length_map.
Qed.

Lemma assignLevels_total nodeIds connections fuel queue levels visited :
  List.length queue + List.length (pendingConnections connections visited) ≤ fuel →
  is_Some (assignLevels fuel (layoutGraph nodeIds connections) queue levels visited).
Proof.
  revert queue levels visited.
  induction fuel as [|fuel IH]; intros queue levels visited Hfuel.
  - destruct queue; simpl in *; [done|lia].
  - destruct queue as [|[v l] rest]; simpl in *; [done|].
    case_bool_decide as Hv.
    + apply IH. lia.
    + apply IH. rewrite length_app, length_map.
      pose proof (pendingConnections_visit connections visited v Hv).
      pose proof (layoutNeighbors_length nodeIds connections v).
      pose proof (filter_length_le
        (fun neighbor => negb (bool_decide (neighbor ∈ {[v]} ∪ visited)))
        (layoutNeighbors (layoutGraph nodeIds connections) v)).
      lia.
Qed.

Lemma assignLevels_run_total nodeIds connections :
  is_Some (assignLevels_run nodeIds connections).
Proof.
  unfold assignLevels_run. cbv zeta. apply assignLevels_total.
  unfold layoutRoots, layoutFuel, pendingConnections. rewrite length_map.
  etrans; [apply Nat.add_le_mono; apply filter_length_le|lia].
Qed.

(** *** What the loop leaves in [levels] *)

Lemma layoutNeighbors_edge nodeIds connections u v :
  In v (layoutNeighbors (layoutGraph nodeIds connections) u)
  ↔ layoutEdge nodeIds connections u v.
Proof.
  rewrite layoutNeighbors_spec. unfold layoutEdge.
  destruct (JsSet.has u nodeIds); [|by split; [|intros []]].
  rewrite in_map_iff. split.
  - intros ([a b] & <- & [Hin Heq]%List.filter_In). simpl in *.
    apply String.eqb_eq in Heq as ->. done.
  - intros [_ Hin]. exists (u, v). split; [done|]. apply List.filter_In.
    split; [done|]. apply String.eqb_refl.
Qed.

Lemma layoutRoots_start nodeIds connections r :
  In r (List.filter (isLayoutRoot (layoutInDegree nodeIds connections)) nodeIds)
  ↔ layoutStart nodeIds connections r.
Proof.
  rewrite List.filter_In. unfold layoutStart. split.
  - intros [Hr Hroot]. split; [done|]. by apply (isLayoutRoot_spec nodeIds).
  - intros [Hr Hroot]. split; [done|]. by apply (isLayoutRoot_spec nodeIds).
Qed.

Lemma layoutLevels_inv nodeIds connections :
  ∃ visited l,
    bfsInv (layoutGraph nodeIds connections)
      (List.filter (isLayoutRoot (layoutInDegree nodeIds connections)) nodeIds)
      [] (layoutLevels nodeIds connections) visited ∧
    bfsOrder (layoutGraph nodeIds connections) l []
      (layoutLevels nodeIds connections).
Proof.
  unfold layoutLevels.
  destruct (assignLevels_run_total nodeIds connections) as [final Hrun].
  rewrite Hrun. simpl. unfold assignLevels_run in Hrun. cbv zeta in Hrun.
  eapply (assignLevels_inv _ _ _ _ _ _ 0); [| |exact Hrun].
  - unfold layoutRoots. split.
    + intros v. split; [set_solver|]. by intros (L & i & row & ? & _).
    + by intros v L i L' i' (row & ? & _).
    + by intros v L (x & [= _ ?] & _)%in_map_iff.
    + by intros v (x & [= ->] & ?)%in_map_iff.
    + by intros v L i (row & ? & _).
    + by intros v i (row & ? & _).
    + set_solver.
    + intros r Hr. right. rewrite map_map. simpl. by rewrite map_id.
  - split.
    + eexists _, []. rewrite app_nil_r. split; [done|]. split; [|done].
      apply List.Forall_forall. by intros e (x & <- & _)%in_map_iff.
    + by intros v L i (row & ? & _).
    + by intros u L j v (row & ? & _).
Qed.

(** No id lies in two cells. *)
Lemma layoutLevels_unique nodeIds connections v L i L' i' :
  inCell (layoutLevels nodeIds connections) v L i →
  inCell (layoutLevels nodeIds connections) v L' i' →
  L = L' ∧ i = i'.
Proof.
  destruct (layoutLevels_inv nodeIds connections) as (visited & l & Hinv & _).
  destruct Hinv as [Hcells Huniq Hqpar Hqroot Hcpar Hcroot Hclosed Hroots]. eauto.
Qed.

(** Whether an id lies in a cell can be told. *)
Lemma layoutLevels_placed_dec nodeIds connections v :
  (∃ L i, inCell (layoutLevels nodeIds connections) v L i) ∨
  ¬ (∃ L i, inCell (layoutLevels nodeIds connections) v L i).
Proof.
  destruct (layoutLevels_inv nodeIds connections) as (visited & l & Hinv & _).
  destruct Hinv as [Hcells Huniq Hqpar Hqroot Hcpar Hcroot Hclosed Hroots].
  rewrite <- Hcells. destruct (decide (v ∈ visited)); auto.
Qed.

(** A cell of a level that is not the first has a cell of the level before. *)
Lemma layoutLevels_parent nodeIds connections v L i :
  inCell (layoutLevels nodeIds connections) v (S L) i →
  ∃ u j, inCell (layoutLevels nodeIds connections) u L j ∧
         layoutEdge nodeIds connections u v.
Proof.
  destruct (layoutLevels_inv nodeIds connections) as (visited & l & Hinv & _).
  destruct Hinv as [Hcells Huniq Hqpar Hqroot Hcpar Hcroot Hclosed Hroots].
  intros (u & j & Hu & Hn)%Hcpar. exists u, j.
  split; [done|]. by apply layoutNeighbors_edge.
Qed.

Lemma layoutLevels_first nodeIds connections v i :
  inCell (layoutLevels nodeIds connections) v 0 i →
  layoutStart nodeIds connections v.
Proof.
  destruct (layoutLevels_inv nodeIds connections) as (visited & l & Hinv & _).
  destruct Hinv as [Hcells Huniq Hqpar Hqroot Hcpar Hcroot Hclosed Hroots].
  intros Hr%Hcroot. by apply layoutRoots_start.
Qed.

Lemma layoutLevels_reached nodeIds connections L : ∀ v i,
  inCell (layoutLevels nodeIds connections) v L i →
  reachedIn nodeIds connections L v.
Proof.
  induction L as [|L IH]; intros v i Hc.
  - exists v. split; [by eapply layoutLevels_first|constructor].
  - apply layoutLevels_parent in Hc as (u & j & Hu & He).
    destruct (IH u j Hu) as (r & Hr & Hpath). exists r. split; [done|].
    by eapply nsteps_r.
Qed.

Lemma layoutLevels_edge_le nodeIds connections u L j v :
  inCell (layoutLevels nodeIds connections) u L j →
  layoutEdge nodeIds connections u v →
  ∃ L' i, inCell (layoutLevels nodeIds connections) v L' i ∧ L' ≤ S L.
Proof.
  destruct (layoutLevels_inv nodeIds connections)
    as (visited & l & _ & [Hsplit Hc Hpromise]).
  intros Hu He%layoutNeighbors_edge.
  destruct (Hpromise u L j v Hu He) as [?|(L' & [] & _)]. done.
Qed.

Lemma layoutStart_not_target nodeIds connections r u :
  layoutStart nodeIds connections r → ¬ layoutEdge nodeIds connections u r.
Proof.
  intros [_ Hr] [_ He]. apply Hr. apply in_map_iff. by exists (u, r).
Qed.

Lemma layoutLevels_start nodeIds connections r :
  layoutStart nodeIds connections r →
  ∃ i, inCell (layoutLevels nodeIds connections) r 0 i.
Proof.
  intros Hr.
  destruct (layoutLevels_inv nodeIds connections) as (visited & l & Hinv & _).
  destruct Hinv as [Hcells Huniq Hqpar Hqroot Hcpar Hcroot Hclosed Hroots].
  destruct (Hroots r) as [Hv|[]]; [by apply layoutRoots_start|].
  apply Hcells in Hv as (L & i & Hc). destruct L as [|L]; [eauto|].
  apply layoutLevels_parent in Hc as (u & j & _ & He).
  by apply layoutStart_not_target in He.
Qed.

Lemma reachedIn_cell nodeIds connections n : ∀ v,
  reachedIn nodeIds connections n v →
  ∃ L i, inCell (layoutLevels nodeIds connections) v L i ∧ L ≤ n.
Proof.
  induction n as [|n IH]; intros v (r & Hr & Hpath).
  - inversion Hpath; subst. destruct (layoutLevels_start _ _ _ Hr) as [i Hi].
    by exists 0, i.
  - apply nsteps_inv_r in Hpath as (u & Hpath & He).
    destruct (IH u) as (L & j & Hu & Hle); [by exists r|].
    destruct (layoutLevels_edge_le _ _ _ _ _ _ Hu He) as (L' & i & Hv & Hle').
    exists L', i. split; [done|lia].
Qed.


(** *** From levels to positions *)

Lemma JsObject_assign_lookup_ne {V} (k k' : string) (v : V) o :
  k' ≠ k → JsObject.assign k v o !! k' = o !! k'.
Proof.
  intros Hne. unfold JsObject.assign. destruct (String.eqb k "__proto__"); [done|].
  by rewrite lookup_insert_ne.
Qed.

Lemma JsObject_assign_lookup_eq {V} (k : string) (v : V) o :
  k ≠ "__proto__" → JsObject.assign k v o !! k = Some v.
Proof.
  intros Hne. unfold JsObject.assign.
  destruct (String.eqb_spec k "__proto__") as [?|_]; [done|].
  by rewrite lookup_insert_eq.
Qed.

Lemma JsObject_assign_lookup_proto {V} (k : string) (v : V) o :
  JsObject.assign k v o !! "__proto__" = o !! "__proto__".
Proof.
  unfold JsObject.assign.
  destruct (String.eqb_spec k "__proto__") as [?|Hne]; [done|].
  by rewrite lookup_insert_ne.
Qed.

Lemma placeLevel_lookup_other startPosition spacing level row k : ∀ index positions,
  (k = "__proto__" ∨ ∀ j, row !! j ≠ Some k) →
  placeLevel startPosition spacing level index row positions !! k = positions !! k.
Proof.
  induction row as [|x row IH]; intros index positions Hk; simpl; [done|].
  rewrite IH.
  - destruct Hk as [->|Hk]; [apply JsObject_assign_lookup_proto|].
    apply JsObject_assign_lookup_ne. intros ->. by apply (Hk 0).
  - destruct Hk as [->|Hk]; [by left|]. right. intros j. apply (Hk (S j)).
Qed.

Lemma placeLevel_lookup startPosition spacing level row k : ∀ i index positions,
  k ≠ "__proto__" →
  row !! i = Some k →
  (∀ j, row !! j = Some k → j = i) →
  placeLevel startPosition spacing level index row positions !! k
  = Some (layoutCell startPosition spacing level (index + i)).
Proof.
  induction row as [|x row IH]; intros i index positions Hk Hi Honce; [done|].
  simpl. destruct i as [|i]; simpl in Hi.
  - injection Hi as ->. rewrite placeLevel_lookup_other.
    + rewrite Nat.add_0_r. by apply JsObject_assign_lookup_eq.
    + right. intros j Hj. by specialize (Honce (S j) Hj).
  - rewrite (IH i); [by rewrite Nat.add_succ_r|done|done|].
    intros j Hj. specialize (Honce (S j) Hj). lia.
Qed.

Section Place.
Variable levels : gmap nat (list string).
Hypothesis levels_unique : ∀ v L i L' i',
  inCell levels v L i → inCell levels v L' i' → L = L' ∧ i = i'.
Hypothesis levels_parent : ∀ v L i,
  inCell levels v (S L) i → ∃ u j, inCell levels u L j.

Lemma cell_levels_present L : ∀ v i k,
  inCell levels v L i → k ≤ L → is_Some (levels !! k).
Proof.
  induction L as [|L IH]; intros v i k Hc Hk.
  - assert (k = 0) as -> by lia. destruct Hc as (row & -> & _). eauto.
  - destruct (decide (k = S L)) as [->|Hne].
    + destruct Hc as (row & -> & _). eauto.
    + destruct (levels_parent v L i Hc) as (u & j & Hu).
      apply (IH u j); [done|lia].
Qed.

Lemma placeLevels_lookup startPosition spacing fuel :
  ∀ currentLevel positions result,
  placeLevels fuel startPosition spacing levels currentLevel positions
  = Some result →
  (∀ k L i, inCell levels k L i → currentLevel ≤ L → k ≠ "__proto__" →
     result !! k = Some (layoutCell startPosition spacing L i)) ∧
  (∀ k, k = "__proto__" ∨ (∀ L i, inCell levels k L i → L < currentLevel) →
     result !! k = positions !! k).
Proof.
  induction fuel as [|fuel IH]; intros c positions result Hrun.
  - simpl in Hrun. destruct (levels !! c) as [row|] eqn:Hrow; [done|].
    injection Hrun as <-. split; [|done].
    intros k L i Hc Hle _.
    destruct (cell_levels_present L k i c Hc Hle) as [? ?]. congruence.
  - simpl in Hrun. destruct (levels !! c) as [row|] eqn:Hrow.
    + destruct (IH _ _ _ Hrun) as [IHa IHb]. split.
      * intros k L i Hc Hle Hk. destruct (decide (L = c)) as [->|Hne].
        -- rewrite IHb.
           ++ destruct Hc as (row' & Hrow' & Hi).
              assert (row' = row) as -> by congruence.
              rewrite (placeLevel_lookup _ _ _ _ _ i); [done|done|done|].
              intros j Hj.
              assert (inCell levels k c j) as Hcj by (by exists row).
              assert (inCell levels k c i) as Hci by (by exists row).
              by destruct (levels_unique _ _ _ _ _ Hcj Hci).
           ++ right. intros L' i' Hc'.
              destruct (levels_unique _ _ _ _ _ Hc Hc') as [<- _]. lia.
        -- apply IHa; [done|lia|done].
      * intros k Hk. rewrite IHb.
        -- apply placeLevel_lookup_other. destruct Hk as [->|Hk]; [by left|].
           right. intros j Hj.
           assert (inCell levels k c j) as Hcj by (by exists row).
           apply Hk in Hcj. lia.
        -- destruct Hk as [->|Hk]; [by left|]. right.
           intros L i Hc. apply Hk in Hc. lia.
    + injection Hrun as <-. split; [|done].
      intros k L i Hc Hle _.
      destruct (cell_levels_present L k i c Hc Hle) as [? ?]. congruence.
Qed.

Lemma levels_prefix_size n :
  (∀ k, k < n → is_Some (levels !! k)) → n ≤ size levels.
Proof.
  intros Hn. rewrite <- size_dom.
  rewrite <- (size_set_seq (C:=gset nat) 0 n). apply subseteq_size.
  intros k [_ Hk]%elem_of_set_seq. apply elem_of_dom. apply Hn. lia.
Qed.

Lemma placeLevels_total startPosition spacing fuel :
  ∀ currentLevel positions,
  (∀ k, k < currentLevel → is_Some (levels !! k)) →
  size levels < fuel + currentLevel →
  is_Some (placeLevels fuel startPosition spacing levels currentLevel positions).
Proof.
  induction fuel as [|fuel IH]; intros c positions Hc Hsize; simpl.
  - destruct (levels !! c) as [row|] eqn:Hrow; [|done].
    assert (S c ≤ size levels); [|lia].
    apply levels_prefix_size. intros k Hk.
    destruct (decide (k = c)) as [->|Hne]; [eauto|]. apply Hc. lia.
  - destruct (levels !! c) as [row|] eqn:Hrow; [|done].
    apply IH; [|lia]. intros k Hk.
    destruct (decide (k = c)) as [->|Hne]; [eauto|]. apply Hc. lia.
Qed.

End Place.

Lemma calculateNodePositions_run_total nodeIds connections startPosition spacing :
  is_Some (calculateNodePositions_run nodeIds connections startPosition spacing).
Proof.
  unfold calculateNodePositions_run. cbv zeta.
  apply placeLevels_total; [intros k Hk|]; lia.
Qed.

(** The own properties of the record are the cells of [levels]. *)
Lemma calculateNodePositions_cell nodeIds connections startPosition spacing k L i :
  k ≠ "__proto__" →
  inCell (layoutLevels nodeIds connections) k L i →
  calculateNodePositions nodeIds connections startPosition spacing !! k
  = Some (layoutCell startPosition spacing L i).
Proof.
  intros Hk Hc. unfold calculateNodePositions.
  destruct (calculateNodePositions_run_total nodeIds connections startPosition
              spacing) as [result Hrun].
  rewrite Hrun. simpl. unfold calculateNodePositions_run in Hrun. cbv zeta in Hrun.
  apply placeLevels_lookup in Hrun as [Ha _].
  - apply Ha; [done|lia|done].
  - apply layoutLevels_unique.
  - intros v L' i' (u & j & Hu & _)%layoutLevels_parent. eauto.
Qed.

Lemma calculateNodePositions_no_cell nodeIds connections startPosition spacing k :
  k = "__proto__" ∨ ¬ (∃ L i, inCell (layoutLevels nodeIds connections) k L i) →
  calculateNodePositions nodeIds connections startPosition spacing !! k = None.
Proof.
  intros Hk. unfold calculateNodePositions.
  destruct (calculateNodePositions_run_total nodeIds connections startPosition
              spacing) as [result Hrun].
  rewrite Hrun. simpl. unfold calculateNodePositions_run in Hrun. cbv zeta in Hrun.
  apply placeLevels_lookup in Hrun as [_ Hb].
  - rewrite Hb; [done|]. destruct Hk as [->|Hk]; [by left|]. right.
    intros L i Hc. destruct Hk. eauto.
  - apply layoutLevels_unique.
  - intros v L' i' (u & j & Hu & _)%layoutLevels_parent. eauto.
Qed.


(** *** The layout of a workflow *)

(** The coordinates are those of the binary64 arithmetic: with the start
    [0.1, 0.7] and the spacing 0.2, the first cell of level 1 lies at
    0.30000000000000004, not at three tenths. *)
Example layoutCell_rounds :
  layoutCell (0x1.999999999999ap-4, 0x1.6666666666666p-1)%float
    0x1.999999999999ap-3%float 1 0
  = (0x1.3333333333334p-2, 0x1.6666666666666p-1)%float.
Proof. reflexivity. Qed.

(** X25: the own properties of the record [calculateNodePositions] returns
    are the cells of a grid. The record has the own property [id] exactly
    when [id] is not [__proto__] and the breadth-first loop has put [id] into
    [levels]; the value is then [startPosition[0] + level * spacing,
    startPosition[1] + index * 100], in the binary64 arithmetic of the
    source, for the level and the index at which [id] lies there. No id lies
    in two cells and no cell holds two ids. *)
Theorem calculateNodePositions_fills_grid
    (nodeIds : list string) (connections : list (string * string))
    (startPosition : float * float) (spacing : float) :
  let positions := calculateNodePositions nodeIds connections startPosition spacing in
  let levels := layoutLevels nodeIds connections in
  (∀ id p,
     positions !! id = Some p
     ↔ id ≠ "__proto__" ∧
       ∃ level index, inCell levels id level index ∧
                      p = layoutCell startPosition spacing level index) ∧
  (∀ id level index level' index',
     inCell levels id level index → inCell levels id level' index' →
     level = level' ∧ index = index') ∧
  (∀ id id' level index,
     inCell levels id level index → inCell levels id' level index → id = id').
Proof.
  cbv zeta. split; [|split].
  - intros id p. split.
    + intros Hp. destruct (String.eqb_spec id "__proto__") as [->|Hid].
      { rewrite calculateNodePositions_no_cell in Hp by (by left). done. }
      split; [done|].
      destruct (layoutLevels_placed_dec nodeIds connections id)
        as [(L & i & Hc)|Hnone].
      * exists L, i. split; [done|].
        rewrite (calculateNodePositions_cell _ _ _ _ _ L i) in Hp by done.
        congruence.
      * rewrite calculateNodePositions_no_cell in Hp by (by right). done.
    + intros (Hid & L & i & Hc & ->). by apply calculateNodePositions_cell.
  - apply layoutLevels_unique.
  - intros id id' L i (row & Hrow & Hi) (row' & Hrow' & Hi'). congruence.
Qed.

(** X26: the column of a node is its distance from the starting nodes. An id
    other than [__proto__] gets a position from [calculateNodePositions]
    exactly when a path of connections, each leaving a node id, leads to it
    from a node id that no connection enters; its position then lies in the
    column whose number is the length of a shortest such path. *)
Theorem calculateNodePositions_column_is_distance
    (nodeIds : list string) (connections : list (string * string))
    (startPosition : float * float) (spacing : float) (id : string) :
  id ≠ "__proto__" →
  let positions := calculateNodePositions nodeIds connections startPosition spacing in
  (is_Some (positions !! id) ↔ ∃ n, reachedIn nodeIds connections n id) ∧
  ∀ p, positions !! id = Some p →
    ∃ level index,
      p = layoutCell startPosition spacing level index ∧
      reachedIn nodeIds connections level id ∧
      ∀ n, reachedIn nodeIds connections n id → level ≤ n.
Proof.
  intros Hid. cbv zeta.
  assert (∀ p,
    calculateNodePositions nodeIds connections startPosition spacing !! id = Some p →
    ∃ L i, inCell (layoutLevels nodeIds connections) id L i ∧
           p = layoutCell startPosition spacing L i) as Hcell.
  { intros p Hp.
    destruct (layoutLevels_placed_dec nodeIds connections id)
      as [(L & i & Hc)|Hnone].
    - exists L, i. split; [done|].
      rewrite (calculateNodePositions_cell _ _ _ _ _ L i) in Hp by done.
      congruence.
    - rewrite calculateNodePositions_no_cell in Hp by (by right). done. }
  split; [split|].
  - intros [p (L & i & Hc & _)%Hcell]. exists L. by eapply layoutLevels_reached.
  - intros [n (L & i & Hc & _)%reachedIn_cell].
    rewrite (calculateNodePositions_cell _ _ _ _ _ L i) by done. eauto.
  - intros p (L & i & Hc & ->)%Hcell. exists L, i. split; [done|].
    split; [by eapply layoutLevels_reached|].
    intros n (L' & i' & Hc' & Hle)%reachedIn_cell.
    destruct (layoutLevels_unique _ _ _ _ _ _ _ Hc Hc') as [<- _]. done.
Qed.

Lemma calculateNodePositions_column_is_distance_witness :
  "c" ≠ "__proto__" ∧
  (is_Some
     (calculateNodePositions ["a"; "b"; "c"] [("a", "b"); ("b", "c"); ("a", "c")]
        (250, 300)%float 220%float !! "c")
   ↔ ∃ n, reachedIn ["a"; "b"; "c"] [("a", "b"); ("b", "c"); ("a", "c")] n "c") ∧
  ∀ p,
    calculateNodePositions ["a"; "b"; "c"] [("a", "b"); ("b", "c"); ("a", "c")]
      (250, 300)%float 220%float !! "c" = Some p →
    ∃ level index,
      p = layoutCell (250, 300)%float 220%float level index ∧
      reachedIn ["a"; "b"; "c"] [("a", "b"); ("b", "c"); ("a", "c")] level "c" ∧
      ∀ n, reachedIn ["a"; "b"; "c"] [("a", "b"); ("b", "c"); ("a", "c")] n "c" →
           level ≤ n.
Proof.
  assert ("c" ≠ "__proto__") as Hid by discriminate.
  split; [exact Hid|].
  exact (calculateNodePositions_column_is_distance
           ["a"; "b"; "c"] [("a", "b"); ("b", "c"); ("a", "c")]
           (250, 300)%float 220%float "c" Hid).
Defined.

Lemma layoutConnections_In workflow u v :
  In (u, v) (layoutConnections workflow) ↔ connects workflow u v.
Proof.
  unfold layoutConnections, connects. rewrite in_map_iff. split.
  - intros (c & [= <- <-] & Hc). eauto.
  - intros (c & Hc & <- & <-). eauto.
Qed.

Lemma acyclic_workflow_placed workflow :
  sourcesResolve workflow →
  ¬ hasDirectedCycle workflow →
  ∀ id, In id (workflowNodeIds workflow) →
    ∃ L i, inCell (layoutLevels (workflowNodeIds workflow)
                     (layoutConnections workflow)) id L i.
Proof.
  intros Hsrc Hacyclic.
  set (nodeIds := workflowNodeIds workflow).
  set (connections := layoutConnections workflow).
  destruct (layoutLevels_inv nodeIds connections) as (visited & l & Hinv & _).
  set (missing := List.filter (fun id => negb (bool_decide (id ∈ visited))) nodeIds).
  assert (∀ id, In id missing ↔ In id nodeIds ∧ id ∉ visited) as Hmissing.
  { intros id. unfold missing. rewrite List.filter_In, negb_true_iff.
    by rewrite bool_decide_eq_false. }
  assert (missing = []) as Hnone.
  { destruct missing as [|m0 rest] eqn:E; [done|]. rewrite <- E in *.
    destruct Hacyclic. apply (backward_closed_cycle (connects workflow) missing).
    - by rewrite E.
    - intros v [Hv Hout]%Hmissing.
      destruct (in_dec string_dec v (map snd connections)) as [Hin|Hroot].
      + apply in_map_iff in Hin as ([u v'] & Heq & Hin). simpl in Heq. subst v'.
        assert (In u nodeIds) as Hu.
        { apply layoutConnections_In in Hin as (c & Hc & <- & _).
          destruct (Hsrc c Hc) as (n & Hn & <-). apply in_map_iff. eauto. }
        exists u. split; [|by apply tc_once, layoutConnections_In].
        apply Hmissing. split; [done|]. intros Hvis.
        destruct (bfs_closed _ _ _ _ _ Hinv u v Hvis) as [?|[]]; [|done].
        apply layoutNeighbors_edge. split; [by apply JsSet_has_In|done].
      + destruct Hout.
        destruct (bfs_roots _ _ _ _ _ Hinv v) as [?|[]]; [|done].
        by apply layoutRoots_start. }
  intros id Hid. apply (bfs_cells _ _ _ _ _ Hinv).
  destruct (decide (id ∈ visited)) as [?|Hout]; [done|].
  assert (In id missing) as Hin by (by apply Hmissing).
  by rewrite Hnone in Hin.
Qed.

(** X27: in a workflow without a directed cycle whose connections all leave
    nodes of the workflow, the layout of [mapWorkflowToN8n] reaches every
    node: the record of positions has an own property, the coordinates of a
    cell of the grid, for every node id other than [__proto__]. *)
Theorem workflowNodePositions_covers_acyclic_workflow
    (workflow : WorkflowConfig.t) (startPosition : float * float) (nodeSpacing : float)
    (id : string) :
  sourcesResolve workflow →
  ¬ hasDirectedCycle workflow →
  In id (workflowNodeIds workflow) →
  id ≠ "__proto__" →
  ∃ level index,
    workflowNodePositions workflow startPosition nodeSpacing !! id
    = Some (layoutCell startPosition nodeSpacing level index).
Proof.
  intros Hsrc Hacyclic Hin Hid.
  destruct (acyclic_workflow_placed workflow Hsrc Hacyclic id Hin) as (L & i & Hc).
  exists L, i. by apply calculateNodePositions_cell.
Qed.

Lemma workflowNodePositions_covers_acyclic_workflow_witness :
  sourcesResolve chainWorkflow ∧
  (hasDirectedCycle chainWorkflow → False) ∧
  In "c" (workflowNodeIds chainWorkflow) ∧
  "c" ≠ "__proto__" ∧
  ∃ level index,
    workflowNodePositions chainWorkflow (250, 300)%float 220%float !! "c"
    = Some (layoutCell (250, 300)%float 220%float level index).
Proof.
  assert (sourcesResolve chainWorkflow) as Hsrc.
  { apply endpointsResolve_sources, connectionsReferenceNodes_spec.
    vm_compute. reflexivity. }
  assert (¬ hasDirectedCycle chainWorkflow) as Hacyclic.
  { rewrite <- (detectWorkflowCycles_spec chainWorkflow Hsrc). vm_compute.
    discriminate. }
  assert (In "c" (workflowNodeIds chainWorkflow)) as Hin.
  { vm_compute. tauto. }
  assert ("c" ≠ "__proto__") as Hid by discriminate.
  split; [exact Hsrc|]. split; [exact Hacyclic|]. split; [exact Hin|].
  split; [exact Hid|].
  exact (workflowNodePositions_covers_acyclic_workflow chainWorkflow
           (250, 300)%float 220%float "c" Hsrc Hacyclic Hin Hid).
Defined.
